(** * Ultrasonic ranger: pulse timing, median smoothing and export pacing

    A shallow embedding of the measuring core of the ultrasonic ranger demo:

    - [RangerK]: the kernel module [ranger-k/ranger_k.c] (threaded IRQ
      handler [echo_irq_thread] and the fixed-point conversion
      [width_ns_to_um]), on 32- and 64-bit machine integers;
    - [RangerU]: the user-space measurer [ranger-u] ([PulseTracker::on_edge],
      [MedianFilter::push] and the event/print loop of [main.cpp]), on
      IEEE-754 binary64 values (Rocq's primitive floats);
    - [RangerCan]: the send pacing of the ISO-TP bridge
      [ranger-can/src/ranger_can.cpp];
    - [RangerKRuns], [RangerUEvents], [RangerJson]: what [distances_read]
      prints and runs of the handler, [edge_from] of [main.cpp], and the
      line format shared by [to_json] and [parse_jsonl_line].

    Machine integers are integers of [Z] with the wrap-around written out;
    [double] is [float]; [std::optional] is [option]; a read or write past
    the end of a container, which C++ leaves undefined, is the [None] of an
    outer [option]. *)

From Stdlib Require Import ZArith QArith Qabs Floats Lia Bool.
From Stdlib Require Ascii.
From stdpp Require Import base option list sorting.

Set Warnings "-inexact-float".

#[local] Open Scope Z_scope.

(** ** Machine integers *)

Definition to_u32 (x : Z) : Z := x mod 2 ^ 32.
Definition to_u64 (x : Z) : Z := x mod 2 ^ 64.
(** Two's complement reading of the low 64 bits. *)
Definition to_s64 (x : Z) : Z := (x + 2 ^ 63) mod 2 ^ 64 - 2 ^ 63.

Definition in_u32 (x : Z) : Prop := 0 <= x < 2 ^ 32.
Definition in_s64 (x : Z) : Prop := - 2 ^ 63 <= x < 2 ^ 63.

(** A timestamp of a monotonic clock: nanoseconds since an epoch in the past,
    held in a signed 64-bit count. *)
Definition is_timestamp (t : Z) : Prop := 0 <= t < 2 ^ 63.

(** ** The kernel module (ranger-k/ranger_k.c) *)

Module RangerK.

Definition MAX_SENSORS : nat := 5.

(** [struct sensor_state], without the IRQ number and the GPIO descriptor,
    which the handler only reads to obtain the line level. *)
Record sensor_state := SensorState {
  have_rise : bool;
  rise_ts : Z;      (* ktime_t, s64 nanoseconds *)
  dist_um : Z;      (* u32 *)
  pulses : Z;       (* u32 *)
  overruns : Z      (* u32 *)
}.

(** The global [g]: the sensor array and the sequence counter, both under
    [g.lock]. *)
Record module_state := ModuleState {
  s : list sensor_state;
  seq : Z           (* u32 *)
}.

Definition sensor_init : sensor_state := SensorState false 0 0 0 0.
Definition module_init : module_state :=
  ModuleState (replicate MAX_SENSORS sensor_init) 0.

(** [(u32)div64_u64((u64)width_ns * 171500ULL, 1000000ULL)] *)
Definition width_ns_to_um (width_ns : Z) : Z :=
  to_u32 (to_u64 (to_u64 width_ns * 171500) / 1000000).

(** The body of the critical section of [echo_irq_thread] on the sensor
    [s = &g.s[idx]]; [level] is what [gpiod_get_value_cansleep] returned and
    [now] is [ktime_get()]. *)
Definition echo_irq_sensor (level : Z) (now : Z) (st : sensor_state)
  : sensor_state :=
  if negb (level =? 0) then
    (* Rising edge *)
    SensorState true now (dist_um st) (pulses st) (overruns st)
  else
    (* Falling edge *)
    if have_rise st then
      let dt := to_s64 (now - rise_ts st) in
      SensorState false (rise_ts st) (width_ns_to_um dt)
                  (to_u32 (pulses st + 1)) (overruns st)
    else
      SensorState (have_rise st) (rise_ts st) (dist_um st) (pulses st)
                  (to_u32 (overruns st + 1)).

Definition echo_irq_thread (idx : nat) (level : Z) (now : Z)
    (g : module_state) : module_state :=
  ModuleState (alter (echo_irq_sensor level now) idx (s g))
              (to_u32 (seq g + 1)).

(** What [distances_read] and [stats_read] copy under the lock. *)
Definition distances_read (g : module_state) : list Z :=
  dist_um <$> s g.
Definition stats_read (g : module_state) : Z * list Z * list Z :=
  (seq g, pulses <$> s g, overruns <$> s g).

(** The [u32] fields hold 32-bit values. *)
Definition sensor_wf (st : sensor_state) : Prop :=
  in_u32 (dist_um st) /\ in_u32 (pulses st) /\ in_u32 (overruns st).

End RangerK.

(** ** The kernel module under concurrency

    The IRQ threads and the debugfs readers as contexts that take their
    steps one memory access at a time, in any interleaving, on the shared
    [g] and its spinlock. *)

Module RangerKConc.

Import RangerK.

(** What a context returns: nothing (the handler), the copy made by
    [distances_read], or the copy made by [stats_read]. *)
Inductive result :=
| RDone
| RDist (um : list Z)
| RStats (copy : Z * list Z * list Z).

(** The steps a context has left: a lock operation, a read of [g] or a
    write to it, and what follows. *)
Inductive prog :=
| Ret (r : result)
| SpinLock (k : prog)            (* spin_lock_irqsave(&g.lock, flags) *)
| SpinUnlock (k : prog)          (* spin_unlock_irqrestore(&g.lock, flags) *)
| Load (k : module_state -> prog)
| Store (f : module_state -> module_state) (k : prog).

(** [g.s[idx]] *)
Definition sensor_at (idx : nat) (g : module_state) : sensor_state :=
  default sensor_init (s g !! idx).

(** Writes of one field. *)
Definition set_have_rise (idx : nat) (b : bool) (g : module_state) :=
  ModuleState
    (alter (λ st, SensorState b (rise_ts st) (dist_um st) (pulses st)
                              (overruns st)) idx (s g)) (seq g).
Definition set_rise_ts (idx : nat) (t : Z) (g : module_state) :=
  ModuleState
    (alter (λ st, SensorState (have_rise st) t (dist_um st) (pulses st)
                              (overruns st)) idx (s g)) (seq g).
Definition set_dist_um (idx : nat) (v : Z) (g : module_state) :=
  ModuleState
    (alter (λ st, SensorState (have_rise st) (rise_ts st) v (pulses st)
                              (overruns st)) idx (s g)) (seq g).
Definition set_pulses (idx : nat) (v : Z) (g : module_state) :=
  ModuleState
    (alter (λ st, SensorState (have_rise st) (rise_ts st) (dist_um st) v
                              (overruns st)) idx (s g)) (seq g).
Definition set_overruns (idx : nat) (v : Z) (g : module_state) :=
  ModuleState
    (alter (λ st, SensorState (have_rise st) (rise_ts st) (dist_um st)
                              (pulses st) v) idx (s g)) (seq g).
Definition set_seq (v : Z) (g : module_state) :=
  ModuleState (s g) v.

(** [g.seq++; spin_unlock_irqrestore(...); return IRQ_HANDLED;] *)
Definition seq_incr_unlock : prog :=
  Load (λ g, Store (set_seq (to_u32 (seq g + 1))) (SpinUnlock (Ret RDone))).

(** [echo_irq_thread], lines 139-158, access by access; [level] and [now]
    were obtained before the lock is taken. *)
Definition echo_irq_prog (idx : nat) (level now : Z) : prog :=
  SpinLock
    (if negb (level =? 0) then
       Store (set_have_rise idx true)
         (Store (set_rise_ts idx now) seq_incr_unlock)
     else
       Load (λ g,
         if have_rise (sensor_at idx g) then
           Load (λ g1,
             let dt := to_s64 (now - rise_ts (sensor_at idx g1)) in
             Store (set_have_rise idx false)
               (Load (λ g2,
                  Store (set_pulses idx
                           (to_u32 (pulses (sensor_at idx g2) + 1)))
                    (Store (set_dist_um idx (width_ns_to_um dt))
                       seq_incr_unlock))))
         else
           Load (λ g1,
             Store (set_overruns idx
                      (to_u32 (overruns (sensor_at idx g1) + 1)))
               seq_incr_unlock))).

(** The copy loop of [distances_read], lines 75-76, from index [i] with
    [n] entries to go. *)
Fixpoint copy_distances (i n : nat) (um : list Z) : prog :=
  match n with
  | O => SpinUnlock (Ret (RDist um))
  | S n' =>
      Load (λ g, copy_distances (S i) n' (um ++ [dist_um (sensor_at i g)]))
  end.

Definition distances_read_prog : prog :=
  SpinLock (copy_distances 0 MAX_SENSORS []).

(** The copy loop of [stats_read], lines 102-105. *)
Fixpoint copy_stats (i n : nat) (sq : Z) (ps os : list Z) : prog :=
  match n with
  | O => SpinUnlock (Ret (RStats (sq, ps, os)))
  | S n' =>
      Load (λ g,
        Load (λ g',
          copy_stats (S i) n' sq (ps ++ [pulses (sensor_at i g)])
                     (os ++ [overruns (sensor_at i g')])))
  end.

Definition stats_read_prog : prog :=
  SpinLock (Load (λ g, copy_stats 0 MAX_SENSORS (seq g) [] [])).

(** The machine: the shared [g], the context that holds [g.lock], the
    contexts, and (for the statements only) the values [g] had at the start
    and at every unlock, in order. *)
Record config := Config {
  shared : module_state;
  owner : option nat;
  pool : list prog;
  history : list module_state
}.

Definition config_init (g0 : module_state) (pool0 : list prog) : config :=
  Config g0 None pool0 [g0].

(** One step of context [i], if it can take one: a context that has
    returned has none, and one that wants the lock spins while it is
    held. *)
Definition step_context (i : nat) (c : config) : option config :=
  p ← pool c !! i;
  match p with
  | Ret _ => None
  | SpinLock k =>
      match owner c with
      | None => Some (Config (shared c) (Some i) (<[i := k]> (pool c))
                             (history c))
      | Some _ => None
      end
  | SpinUnlock k =>
      Some (Config (shared c) None (<[i := k]> (pool c))
                   (history c ++ [shared c]))
  | Load k =>
      Some (Config (shared c) (owner c) (<[i := k (shared c)]> (pool c))
                   (history c))
  | Store f k =>
      Some (Config (f (shared c)) (owner c) (<[i := k]> (pool c))
                   (history c))
  end.

(** An interleaving: the contexts scheduled, in order; a context that
    cannot move when scheduled leaves everything as it is. *)
Fixpoint exec (sched : list nat) (c : config) : config :=
  match sched with
  | [] => c
  | i :: sched' => exec sched' (default c (step_context i c))
  end.

(** A context run alone to its end. *)
Fixpoint run_alone (p : prog) (g : module_state) : module_state * result :=
  match p with
  | Ret r => (g, r)
  | SpinLock k | SpinUnlock k => run_alone k g
  | Load k => run_alone (k g) g
  | Store f k => run_alone k (f g)
  end.

(** A critical section: reads and writes up to one unlock and the
    return. *)
Inductive critical : prog -> Prop :=
| critical_unlock r : critical (SpinUnlock (Ret r))
| critical_load k : (∀ g, critical (k g)) -> critical (Load k)
| critical_store f k : critical k -> critical (Store f k).

(** The contexts of the module. *)
Inductive context : prog -> Prop :=
| context_irq idx level now : context (echo_irq_prog idx level now)
| context_distances : context distances_read_prog
| context_stats : context stats_read_prog.

(** What a context has returned is what its kind of context returns from
    the single value [g] of the shared state. *)
Definition returned_from (p0 : prog) (g : module_state) (r : result)
  : Prop :=
  match r with
  | RDone => ∃ idx level now, p0 = echo_irq_prog idx level now
  | RDist um => p0 = distances_read_prog /\ um = distances_read g
  | RStats copy => p0 = stats_read_prog /\ copy = stats_read g
  end.

(** Consecutive entries of the history: the same value, or the next after
    one whole call of the handler. *)
Definition history_step (g g' : module_state) : Prop :=
  g' = g \/ ∃ idx level now, g' = echo_irq_thread idx level now g.

Fixpoint chain (R : relation module_state) (h : list module_state)
  : Prop :=
  match h with
  | g :: ((g' :: _) as h') => R g g' /\ chain R h'
  | _ => True
  end.

Definition history_chain (h : list module_state) : Prop :=
  chain history_step h.

(** A context of one critical section: it takes the lock, reads and
    writes, unlocks and returns. *)
Definition atomic_block (p0 : prog) : Prop :=
  ∃ body, p0 = SpinLock body /\ critical body.

(** The shared state after context [p0] has run alone from [g]. *)
Definition effect_of (pool0 : list prog) (g g' : module_state) : Prop :=
  ∃ i p0, pool0 !! i = Some p0 /\ g' = (run_alone p0 g).1.

(** Context [i] is not running: it has not started, or it has returned
    what it returns when run alone from an entry of the history. *)
Definition settled (pool0 : list prog) (h : list module_state)
    (i : nat) (p : prog) : Prop :=
  pool0 !! i = Some p
  \/ ∃ p0 g, pool0 !! i = Some p0 /\ g ∈ h /\ p = Ret (run_alone p0 g).2.

(** The invariant of the lock: while it is free the shared state is the
    last entry of the history and no context is running; while context [o]
    holds it, [o] is in its critical section, and finishing it alone gives
    what the whole of it gives from the last entry of the history. *)
Definition lock_inv (pool0 : list prog) (c : config) : Prop :=
  chain (effect_of pool0) (history c)
  /\ ∃ g_last, last (history c) = Some g_last
     /\ match owner c with
        | None =>
            shared c = g_last
            /\ ∀ i p, pool c !! i = Some p -> settled pool0 (history c) i p
        | Some o =>
            (∃ p_o p0,
               pool c !! o = Some p_o /\ pool0 !! o = Some p0
               /\ critical p_o
               /\ run_alone p_o (shared c) = run_alone p0 g_last)
            /\ ∀ i p, i ≠ o -> pool c !! i = Some p ->
                  settled pool0 (history c) i p
        end.

End RangerKConc.

(** ** The user-space measurer (ranger-u) *)

Module RangerU.

#[local] Open Scope float_scope.

(** Conversion of an integer count to [double] (round to nearest, ties to
    even), as the usual arithmetic conversion of [w.count() * 1e-9] does. *)
Definition double_of_int (z : Z) : float :=
  SF2Prim (binary_normalize 53 1024 z 0 false).

(** [static_cast<float>]: rounding of a [double] to binary32.  A [float]
    object is represented by the [double] of the same value. *)
Definition to_float (d : float) : float :=
  SF2Prim
    match Prim2SF d with
    | S754_finite sg m e =>
        binary_normalize 24 128 (if sg then Z.neg m else Z.pos m) e sg
    | x => x
    end.

(** *** pulse_measure.hpp, pulse_measure.cpp *)

Inductive Edge := Rising | Falling.

Record EdgeStamp := mkEdgeStamp {
  edge : Edge;
  ts : Z            (* std::chrono::nanoseconds *)
}.

Record Pulse := mkPulse {
  width : Z;        (* std::chrono::nanoseconds *)
  distance_m : float
}.

Record PulseTracker := mkPulseTracker {
  t_rise_ : option Z;
  c_ : float
}.

(** [PulseTracker::PulseTracker(double sound_speed)] *)
Definition PulseTracker_new (sound_speed : float) : PulseTracker :=
  mkPulseTracker None sound_speed.

(** The spec's [armed] flag is [t_rise_.has_value()]. *)
Definition armed (pt : PulseTracker) : bool :=
  match t_rise_ pt with Some _ => true | None => false end.

(** [PulseTracker::on_edge]: the returned optional and the tracker after the
    call. *)
Definition on_edge (es : EdgeStamp) (pt : PulseTracker)
  : option Pulse * PulseTracker :=
  match edge es with
  | Rising => (None, mkPulseTracker (Some (ts es)) (c_ pt))
  | Falling =>
      match t_rise_ pt with
      | Some t_rise =>
          let w := to_s64 (ts es - t_rise) in
          let t_s := double_of_int w * 1e-9 in
          let dist := (c_ pt * t_s) / 2 in
          (Some (mkPulse w dist), mkPulseTracker None (c_ pt))
      | None => (None, pt)
      end
  end.

(** *** filter_median.hpp *)

(** [std::sort] on doubles with [operator<]: an insertion sort.  It stands
    for [std::sort] on windows without a NaN, on which [operator<] is the
    strict weak ordering [std::sort] asks for; what [std::sort] leaves open
    there, the order of +0 and -0 among themselves, is fixed here in one
    way.  On a window with a NaN it is used only where it leaves the window
    as it is. *)
Fixpoint sort_insert (x : float) (l : list float) : list float :=
  match l with
  | [] => [x]
  | y :: l' => if x <? y then x :: l else y :: sort_insert x l'
  end.

Definition std_sort (l : list float) : list float :=
  foldr sort_insert [] l.

Record MedianFilter := mkMedianFilter {
  win_ : nat;             (* size_t *)
  buf_ : list float       (* std::deque<double>, front first *)
}.

(** [MedianFilter::MedianFilter(size_t win)] *)
Definition MedianFilter_new (win : nat) : MedianFilter :=
  mkMedianFilter win [].

(** The element [tmp[tmp.size()/2]] of the sorted copy of a window. *)
Definition sorted_mid (window : list float) : option float :=
  let tmp := std_sort window in
  tmp !! (length tmp / 2)%nat.

(** [MedianFilter::push].  The outer [option] is [None] when [tmp[...]] reads
    past the end of the vector (only for [win_ = 0], where [tmp] is empty). *)
Definition push (v : float) (mf : MedianFilter)
  : option (option float * MedianFilter) :=
  let b1 := buf_ mf ++ [v] in
  let b2 := if (win_ mf <? length b1)%nat then drop 1 b1 else b1 in
  let mf' := mkMedianFilter (win_ mf) b2 in
  if (length b2 <? win_ mf)%nat then Some (None, mf')
  else m ← sorted_mid b2; Some (Some m, mf').

(** *** main.cpp *)

(** [SensorCtx], without the GPIO line the events are read from. *)
Record SensorCtx := mkSensorCtx {
  tracker : PulseTracker;
  mf : MedianFilter
}.

Definition SensorCtx_new : SensorCtx :=
  mkSensorCtx (PulseTracker_new 343) (MedianFilter_new 5).

(** [TelemetryFrame]: [std::array<float,5> dist_m]. *)
Abbreviation TelemetryFrame := (list float) (only parsing).
Definition FRAME_SLOTS : nat := 5.
Definition TelemetryFrame_zero : TelemetryFrame := replicate FRAME_SLOTS 0.

(** The measuring state of [main]: the sensors and the frame. *)
Record loop_state := mkLoop {
  sensors : list SensorCtx;
  tf : TelemetryFrame
}.

(** State at the head of the [while] loop, for [n] lines. *)
Definition loop_init (n : nat) : loop_state :=
  mkLoop (replicate n SensorCtx_new) TelemetryFrame_zero.

(** One event read from sensor [idx] in the drain loop (lines 121-128).
    [None] is an access past the end of [sensors] or of [tf.dist_m]. *)
Definition handle_event (idx : nat) (es : EdgeStamp) (st : loop_state)
  : option loop_state :=
  sc ← sensors st !! idx;
  let '(p, tr') := on_edge es (tracker sc) in
  match p with
  | None =>
      Some (mkLoop (<[idx := mkSensorCtx tr' (mf sc)]> (sensors st)) (tf st))
  | Some pl =>
      '(m, mf') ← push (distance_m pl) (mf sc);
      let sensors' := <[idx := mkSensorCtx tr' mf']> (sensors st) in
      match m with
      | None => Some (mkLoop sensors' (tf st))
      | Some mv =>
          if (idx <? FRAME_SLOTS)%nat
          then Some (mkLoop sensors' (<[idx := to_float mv]> (tf st)))
          else None
      end
  end.

(** The events drained in one pass of the loop, in the order they are
    handled, each with the index of the sensor it was read from. *)
Fixpoint drain (evs : list (nat * EdgeStamp)) (st : loop_state)
  : option loop_state :=
  match evs with
  | [] => Some st
  | (idx, es) :: evs' => st' ← handle_event idx es st; drain evs' st'
  end.

(** The periodic print (lines 132-151) at time [now] with the deadline
    [next_print] (both [steady_clock] ticks, int64): the frame written, if
    any, stamped with [now], and the next deadline. *)
Definition print_tick (print_interval : Z) (now : Z)
    (frame : TelemetryFrame) (next_print : Z)
  : option (Z * TelemetryFrame) * Z :=
  if (next_print <=? now)%Z
  then (Some (now, frame), to_s64 (next_print + print_interval))
  else (None, next_print).

(** One pass of the [while] loop: drain, then print. *)
Definition loop_pass (print_interval : Z)
    (pass : list (nat * EdgeStamp) * Z) (st : loop_state * Z)
  : option (option (Z * TelemetryFrame) * (loop_state * Z)) :=
  st' ← drain pass.1 st.1;
  let '(out, np) := print_tick print_interval pass.2 (tf st') st.2 in
  Some (out, (st', np)).

(** A run of the loop from the measuring state and the first deadline: the
    frames printed, in order, and the final state. *)
Fixpoint run (print_interval : Z)
    (passes : list (list (nat * EdgeStamp) * Z)) (st : loop_state * Z)
  : option (list (Z * TelemetryFrame) * (loop_state * Z)) :=
  match passes with
  | [] => Some ([], st)
  | pass :: rest =>
      '(out, st') ← loop_pass print_interval pass st;
      '(outs, st'') ← run print_interval rest st';
      Some (from_option (λ o, [o]) [] out ++ outs, st'')
  end.

End RangerU.

(** ** The ISO-TP bridge (ranger-can/src/ranger_can.cpp) *)

Module RangerCan.

#[local] Open Scope float_scope.

Record RangerMsg := mkRangerMsg {
  seq : Z;                (* uint32_t *)
  dist_m : list float;    (* float dist_m[5] *)
  status : Z              (* uint32_t *)
}.

(** [const bool rate_limit = (args.rate_hz > 0.0)] *)
Definition rate_limit (rate_hz : float) : bool := 0 <? rate_hz.

(** [const double min_interval_ns = rate_limit ? (1e9 / args.rate_hz) : 0.0] *)
Definition min_interval_ns (rate_hz : float) : float :=
  if rate_limit rate_hz then 1e9 / rate_hz else 0.

Record bridge_state := mkBridge {
  msg : RangerMsg;
  last_sent_ns : Z        (* uint64_t *)
}.

Definition bridge_init : bridge_state :=
  mkBridge (mkRangerMsg 0 (replicate 5 0) 0) 0.

(** The test of line 150: the packet is skipped. *)
Definition too_soon (rate_hz : float) (now_ns last : Z) : bool :=
  rate_limit rate_hz && negb (last =? 0)%Z
  && (RangerU.double_of_int (to_u64 (now_ns - last))
      <? min_interval_ns rate_hz).

(** One line of input: what [parse_jsonl_line] returned for it and the value
    of the steady clock read at line 148.  The result is the frame handed to
    [send], with the time of sending, if any; [send] is taken to succeed (a
    failure ends the loop). *)
Definition bridge_line (rate_hz : float)
    (line : option (list float) * Z) (st : bridge_state)
  : option (Z * RangerMsg) * bridge_state :=
  match line.1 with
  | None => (None, st)
  | Some arr =>
      let m := mkRangerMsg (to_u32 (seq (msg st) + 1)) arr 0 in
      let now_ns := line.2 in
      if too_soon rate_hz now_ns (last_sent_ns st)
      then (None, mkBridge m (last_sent_ns st))
      else (Some (now_ns, m), mkBridge m now_ns)
  end.

Fixpoint bridge_run (rate_hz : float)
    (lines : list (option (list float) * Z)) (st : bridge_state)
  : list (Z * RangerMsg) * bridge_state :=
  match lines with
  | [] => ([], st)
  | line :: rest =>
      let '(out, st') := bridge_line rate_hz line st in
      let '(outs, st'') := bridge_run rate_hz rest st' in
      (from_option (λ o, [o]) [] out ++ outs, st'')
  end.

End RangerCan.

(** ** Vocabulary of the properties *)

Module Props.

Import RangerU.

(** A value of a measurement: any [double] but a NaN, on which [operator<]
    is not the strict weak ordering [std::sort] asks for. *)
Definition not_nan (x : float) : Prop := is_nan x = false.

Definition fle (x y : float) : Prop := (x <=? y)%float = true.

(** [m] is at position [k] of the window put in ascending order. *)
Definition order_stat (k : nat) (window : list float) (m : float) : Prop :=
  ∃ srt, srt ≡ₚ window ∧ StronglySorted fle srt ∧ srt !! k = Some m.

(** The median of a window: the middle element of the window in ascending
    order, the upper of the two middle ones when the size is even. *)
Definition is_median (window : list float) (m : float) : Prop :=
  order_stat (length window / 2) window m.

(** The lower of the two middle elements of a window of even size. *)
Definition is_lower_middle (window : list float) (m : float) : Prop :=
  order_stat (length window / 2 - 1) window m.

(** The last [n] elements of a list. *)
Definition last_n {A} (n : nat) (l : list A) : list A :=
  drop (length l - n) l.

(** Pushing a list of values in order; the result of each push. *)
Fixpoint push_all (vs : list float) (mf : MedianFilter)
  : option (list (option float) * MedianFilter) :=
  match vs with
  | [] => Some ([], mf)
  | v :: vs' =>
      '(r, mf') ← push v mf;
      '(rs, mf'') ← push_all vs' mf';
      Some (r :: rs, mf'')
  end.

(** Feeding a list of edges to a tracker in order; the result of each call. *)
Fixpoint on_edges (ess : list EdgeStamp) (pt : PulseTracker)
  : list (option Pulse) * PulseTracker :=
  match ess with
  | [] => ([], pt)
  | es :: ess' =>
      let '(r, pt') := on_edge es pt in
      let '(rs, pt'') := on_edges ess' pt' in
      (r :: rs, pt'')
  end.

(** The events of one channel among those of a run, in order. *)
Definition channel_events (idx : nat) (evs : list (nat * EdgeStamp))
  : list EdgeStamp :=
  snd <$> filter (λ p, p.1 = idx) evs.

(** The distances of the pulses a fresh tracker (343 m/s) completes on a
    list of edges. *)
Definition pulse_distances (ess : list EdgeStamp) : list float :=
  distance_m <$> omap id (on_edges ess (PulseTracker_new 343)).1.

(** The exact value of a finite [double], as a rational. *)
Definition Q_of_double (d : float) : option Q :=
  match Prim2SF d with
  | S754_zero _ => Some 0%Q
  | S754_finite sg m e =>
      let n := if sg then Z.neg m else Z.pos m in
      Some (if (0 <=? e)%Z then inject_Z (n * 2 ^ e)
            else (n # Z.to_pos (2 ^ (- e))))%Q
  | _ => None
  end.

(** The exact distance, in metres, of [343 * width_ns * 1e-9 / 2]. *)
Definition exact_distance_m (width_ns : Z) : Q :=
  (343 * inject_Z width_ns * (1 # 1000000000) / 2)%Q.

(** Largest width whose distance in micrometres fits 32 bits (about 25 s). *)
Definition WIDTH_NS_MAX_U32 : Z := 25043541084.

(** Two sends of ranger-can at [t1] and [t2] are in order and not closer
    than the interval, as the test of line 150 measures it. *)
Definition not_closer (rate_hz : float) (t1 t2 : Z) : Prop :=
  t1 <= t2
  /\ (double_of_int (t2 - t1) <? RangerCan.min_interval_ns rate_hz)%float
     = false.



(** What the state of [main] holds for channel [idx] after the events
    [evs]: the tracker and the filter the channel's own events lead to, and
    in the frame the most recent median of the filter, 0 before the
    first. *)
Definition channel_ok (evs : list (nat * EdgeStamp)) (st : loop_state)
    (idx : nat) : Prop :=
  let ess := channel_events idx evs in
  let ds := pulse_distances ess in
  ∃ rs,
    sensors st !! idx
    = Some (mkSensorCtx (on_edges ess (PulseTracker_new 343)).2
                        (mkMedianFilter 5 (last_n 5 ds)))
    /\ push_all ds (MedianFilter_new 5)
       = Some (rs, mkMedianFilter 5 (last_n 5 ds))
    /\ tf st !! idx = Some (from_option to_float 0%float (last (omap id rs))).


End Props.

(** ** Further code of the three programs *)

(** *** ranger_k.c: what [distances_read] prints, runs of the handler *)

Module RangerKRuns.

Import RangerK.

(** [M_INT(u)] and [M_FRAC3(u)], the two arguments of each ["%u.%03u"] of
    [distances_read]: whole metres and the three decimals. *)
Definition M_INT (u : Z) : Z := to_u32 (u / 1000000).
Definition M_FRAC3 (u : Z) : Z := to_u32 (to_u32 (u / 1000) mod 1000).

(** The millimetres a printed field ["m.fff"] stands for. *)
Definition shown_mm (u : Z) : Z := M_INT u * 1000 + M_FRAC3 u.

(** An edge as the handler sees it: the index of the line, the level read
    and the time. *)
Definition irq_run (evs : list (nat * (Z * Z))) (g : module_state)
  : module_state :=
  foldl (λ g e, echo_irq_thread e.1 e.2.1 e.2.2 g) g evs.

(** The handler's critical section on one sensor, edge after edge. *)
Definition sensor_run (evs : list (Z * Z)) (st : sensor_state)
  : sensor_state :=
  foldl (λ st e, echo_irq_sensor e.1 e.2 st) st evs.

(** The edges of one line among those of a run, in order. *)
Definition irq_channel (idx : nat) (evs : list (nat * (Z * Z)))
  : list (Z * Z) :=
  snd <$> filter (λ e, e.1 = idx) evs.

(** The handler takes a level other than 0 for a rising edge. *)
Definition is_rising (e : Z * Z) : bool := negb (e.1 =? 0).

(** The falling edges of a list that come right after a rising one
    ([measured]) and the others ([unmatched]); [before] tells whether a
    rising edge precedes the list. *)
Fixpoint measured (before : bool) (evs : list (Z * Z)) : nat :=
  match evs with
  | [] => 0
  | e :: evs' =>
      (if before && negb (is_rising e) then 1 else 0)%nat
      + measured (is_rising e) evs'
  end.

Fixpoint unmatched (before : bool) (evs : list (Z * Z)) : nat :=
  match evs with
  | [] => 0
  | e :: evs' =>
      (if negb before && negb (is_rising e) then 1 else 0)%nat
      + unmatched (is_rising e) evs'
  end.

End RangerKRuns.

(** *** main.cpp: [edge_from] *)

Module RangerUEvents.

Import RangerU.

Record timespec := mkTimespec {
  tv_sec : Z;
  tv_nsec : Z
}.

(** [gpiod_line_event] of libgpiod v1. *)
Record gpiod_line_event := mkLineEvent {
  ev_ts : timespec;
  event_type : Z
}.

(** [edge_from]; [RISING_EDGE] is libgpiod's
    [GPIOD_LINE_EVENT_RISING_EDGE].  The seconds are turned into an int64
    count of nanoseconds and the nanoseconds added. *)
Definition edge_from (RISING_EDGE : Z) (ev : gpiod_line_event) : EdgeStamp :=
  let e := if event_type ev =? RISING_EDGE then Rising else Falling in
  let ns := to_s64 (to_s64 (tv_sec (ev_ts ev) * 1000000000)
                    + tv_nsec (ev_ts ev)) in
  mkEdgeStamp e ns.

(** A [timespec] as the kernel stamps events: normalised, and early enough
    for its nanoseconds to fit an int64 (until the year 2262 from the
    epoch of the clock). *)
Definition timespec_ok (t : timespec) : Prop :=
  0 <= tv_sec t <= 9223372035 /\ 0 <= tv_nsec t < 1000000000.

(** Earlier, as [timespec]s compare. *)
Definition timespec_lt (a b : timespec) : Prop :=
  tv_sec a < tv_sec b \/ (tv_sec a = tv_sec b /\ tv_nsec a < tv_nsec b).

End RangerUEvents.

(** *** Vocabulary of the further properties *)

Module Props2.

Import RangerU Props.

(** A [double] that is not negative: a zero, a positive number or plus
    infinity. *)
Definition sf_nonneg (x : spec_float) : Prop :=
  match x with
  | S754_zero _ | S754_infinity false | S754_finite false _ _ => True
  | _ => False
  end.

(** A [double] that is finite and greater than 0. *)
Definition finite_pos (x : float) : Prop :=
  ∃ m e, Prim2SF x = S754_finite false m e.

(** [x] lies between [lo] and [hi]. *)
Definition within (lo hi x : float) : bool :=
  ((lo <=? x) && (x <=? hi))%float.

(** How many values of a window lie between [lo] and [hi]. *)
Definition count_within (lo hi : float) (window : list float) : nat :=
  length (filter (λ x, within lo hi x = true) window).

(** Consecutive passes of the loop of [main] are at most [d] apart. *)
Definition gaps_at_most (d : Z) (nows : list Z) : Prop :=
  ∀ j a b, nows !! j = Some a -> nows !! S j = Some b -> b - a <= d.

(** The edge a tracker sees as a line level and a time for the kernel
    handler. *)
Definition irq_of_edge (es : EdgeStamp) : Z * Z :=
  (match edge es with Rising => 1 | Falling => 0 end, ts es).

(** The pulses among the results of a tracker. *)
Definition pulses_of (rs : list (option Pulse)) : list Pulse := omap id rs.

(** The lines of the bridge's input that parse, with the time each was
    read at. *)
Definition parsed_lines (lines : list (option (list float) * Z))
  : list (Z * list float) :=
  omap (λ l, (λ arr, (l.2, arr)) <$> l.1) lines.

(** The time and the distances of a frame sent. *)
Definition sent_payload (o : Z * RangerCan.RangerMsg) : Z * list float :=
  (o.1, RangerCan.dist_m o.2).

End Props2.

(** *** telemetry.cpp: [to_json]; ranger_can.cpp: [parse_jsonl_line] *)

Module RangerJson.

Import Ascii.

#[local] Open Scope char_scope.

(** A [std::string]: its characters. *)
Abbreviation str := (list ascii) (only parsing).

(** The character [0x22], the double quote. *)
Definition dquote : ascii := ascii_of_nat 34.

(** [pat] starts [s]. *)
Fixpoint is_prefix (pat s : str) : bool :=
  match pat, s with
  | [], _ => true
  | _ :: _, [] => false
  | p :: pat', c :: s' => (p =? c) && is_prefix pat' s'
  end.

(** The first position of [s] at which [pat] starts. *)
Fixpoint find_first (pat s : str) : option nat :=
  if is_prefix pat s then Some 0%nat
  else match s with
       | [] => None
       | _ :: s' => S <$> find_first pat s'
       end.

(** [s.find(pat, pos)]; [None] is [std::string::npos]. *)
Definition find (pat s : str) (pos : nat) : option nat :=
  if (pos <=? length s)%nat
  then Nat.add pos <$> find_first pat (drop pos s)
  else None.

(** [s.substr(pos, n)] for [pos <= s.size()]. *)
Definition substr (s : str) (pos n : nat) : str := take n (drop pos s).

(** The characters [std::getline(ss, tok, delim)] extracts from a stream
    with [s] left to read: the token up to the delimiter or the end, and
    what is left after the delimiter. *)
Fixpoint read_until (delim : ascii) (s : str) : str * str :=
  match s with
  | [] => ([], [])
  | c :: s' =>
      if c =? delim then ([], s')
      else let '(tok, rest) := read_until delim s' in (c :: tok, rest)
  end.

(** [std::getline(ss, tok, delim)] as a condition: it fails ([None]) when
    nothing is left to read, and otherwise gives the token and the rest of
    the stream. *)
Definition getline (delim : ascii) (s : str) : option (str * str) :=
  match s with
  | [] => None
  | _ => Some (read_until delim s)
  end.

(** The tokens that successive calls of [getline] give until it fails: the
    pieces of [s] between delimiters, without the piece after the last
    delimiter when that piece is empty. *)
Fixpoint getlines (delim : ascii) (s : str) : list str :=
  match s with
  | [] => []
  | c :: s' =>
      if c =? delim then [] :: getlines delim s'
      else match getlines delim s' with
           | [] => [[c]]
           | tok :: toks => (c :: tok) :: toks
           end
  end.

Section Conversions.

(** [os << x] for a [float], and [std::stof], [None] when it throws. *)
Variable show : float -> str.
Variable stof : str -> option float.

(** The loop of [to_json], from index [i] on. *)
Fixpoint to_json_items (i : nat) (d : list float) : str :=
  match d with
  | [] => []
  | x :: d' =>
      (if (i =? 0)%nat then [] else [","]) ++ show x
      ++ to_json_items (S i) d'
  end.

(** [to_json] *)
Definition to_json (tf : list float) : str :=
  ["{"] ++ [dquote; "d"; dquote; ":"; "["] ++ to_json_items 0 tf
  ++ ["]"; "}"].

(** The [while] loop of [parse_jsonl_line] on the tokens [getline] gives:
    the index and the array when the loop ends, [None] when [stof] throws
    and the function returns [std::nullopt]. *)
Fixpoint fill (toks : list str) (idx : nat) (out : list float)
  : option (nat * list float) :=
  match toks with
  | [] => Some (idx, out)
  | tok :: toks' =>
      if (idx <? 5)%nat then
        match stof tok with
        | Some v => fill toks' (S idx) (<[idx := v]> out)
        | None => None
        end
      else Some (idx, out)
  end.

(** [parse_jsonl_line] *)
Definition parse_jsonl_line (line : str) : option (list float) :=
  pos ← find [dquote; "d"; dquote] line 0;
  pos ← find ["["] line pos;
  end_ ← find ["]"] line pos;
  let arr := substr line (pos + 1) (end_ - pos - 1) in
  '(idx, out) ← fill (getlines "," arr) 0 (replicate 5 0%float);
  if (idx =? 5)%nat then Some out else None.

End Conversions.

(** The pieces joined by commas. *)
Fixpoint join (toks : list str) : str :=
  match toks with
  | [] => []
  | [tok] => tok
  | tok :: toks' => tok ++ ("," :: join toks')
  end.

(** A token that holds neither a comma nor a closing bracket. *)
Definition plain (tok : str) : Prop :=
  Forall (λ c, c ≠ "," /\ c ≠ "]") tok.

(** What [to_json] writes before the first distance. *)
Definition opening : str := ["{"; dquote; "d"; dquote; ":"; "["].

(** [show], [stof] and the value read back agree on [x], and what [show]
    writes for [x] is a token. *)
Definition reads_back (show : float -> str) (stof : str -> option float)
    (rd : float -> float) (x : float) : Prop :=
  show x ≠ [] /\ plain (show x) /\ stof (show x) = Some (rd x).

(** A printer and a reader of one digit, to try the statements on: 0 is
    written as [0] and every other value as [1]. *)
Definition show01 (x : float) : str :=
  if (x =? 0)%float then ["0"] else ["1"].
Definition stof01 (tok : str) : option float :=
  match tok with
  | [c] => if c =? "0" then Some 0%float
           else if c =? "1" then Some 1%float else None
  | _ => None
  end.
Definition rd01 (x : float) : float :=
  if (x =? 0)%float then 0%float else 1%float.

End RangerJson.

(** *** ranger_k.c: the sequence number under concurrency *)

Module ConcProps.
Import RangerK RangerKConc.

(** A handler that has returned. *)
Definition is_done (p : prog) : bool :=
  match p with Ret RDone => true | _ => false end.

(** How many handlers of a pool have returned. *)
Definition done_count (pool : list prog) : nat :=
  length (List.filter is_done pool).

(** The sequence number accounts for the handlers that have returned;
    while a context holds the lock, it does once that context has finished
    on its own. *)
Definition seq_inv (seq0 : Z) (c : config) : Prop :=
  match owner c with
  | None => seq (shared c) = to_u32 (seq0 + Z.of_nat (done_count (pool c)))
  | Some o =>
      ∃ p_o, pool c !! o = Some p_o
        /\ seq (run_alone p_o (shared c)).1
           = to_u32 (seq0
                     + Z.of_nat (done_count
                         (<[o := Ret (run_alone p_o (shared c)).2]>
                            (pool c))))
  end.
End ConcProps.

(** * Properties *)

Import RangerU Props.

(** ** Machine integers *)

Lemma to_u32_small x : in_u32 x -> to_u32 x = x.
Proof. unfold in_u32, to_u32. intros H. apply Z.mod_small. lia. Qed.

Lemma to_u64_small x : 0 <= x < 2 ^ 64 -> to_u64 x = x.
Proof. unfold to_u64. intros H. apply Z.mod_small. lia. Qed.

Lemma to_s64_small x : in_s64 x -> to_s64 x = x.
Proof.
  unfold in_s64, to_s64. intros H.
  rewrite Z.mod_small by lia. lia.
Qed.

Lemma to_u32_range x : in_u32 (to_u32 x).
Proof. unfold in_u32, to_u32. apply Z.mod_pos_bound. lia. Qed.

Lemma to_u32_succ_max : to_u32 (4294967295 + 1) = 0.
Proof. reflexivity. Qed.

Lemma timestamp_diff_s64 (a b : Z) :
  is_timestamp a -> is_timestamp b -> to_s64 (b - a) = b - a.
Proof.
  unfold is_timestamp. intros Ha Hb.
  apply to_s64_small. unfold in_s64. lia.
Qed.

(** ** The fixed-point conversion *)

Lemma width_ns_max_u32_tight :
  WIDTH_NS_MAX_U32 * 171500 / 1000000 = 2 ^ 32 - 1
  /\ (WIDTH_NS_MAX_U32 + 1) * 171500 / 1000000 = 2 ^ 32.
Proof. split; reflexivity. Qed.

Lemma width_ns_to_um_in_range (w : Z) :
  0 <= w <= WIDTH_NS_MAX_U32 ->
  RangerK.width_ns_to_um w = w * 171500 / 1000000.
Proof.
  unfold WIDTH_NS_MAX_U32, RangerK.width_ns_to_um. intros Hw.
  rewrite (to_u64_small w) by lia.
  rewrite to_u64_small by lia.
  apply to_u32_small. unfold in_u32. split.
  - apply Z.div_pos; lia.
  - apply Z.div_lt_upper_bound; lia.
Qed.

(** The quotient of the integer form is the floor of the exact distance in
    micrometres. *)
Lemma fixed_point_truncation (w : Z) :
  (0 <= exact_distance_m w * 1000000 - inject_Z (w * 171500 / 1000000) < 1)%Q.
Proof.
  pose proof (Z.div_mod (w * 171500) 1000000 ltac:(lia)) as Hdm.
  pose proof (Z.mod_pos_bound (w * 171500) 1000000 ltac:(lia)) as Hm.
  set (q := w * 171500 / 1000000) in *.
  set (r := (w * 171500) mod 1000000) in *.
  assert (E : (exact_distance_m w * 1000000 - inject_Z q == r # 1000000)%Q).
  { unfold exact_distance_m, Qeq, Qminus, Qplus, Qmult, Qdiv, Qinv, Qopp,
      inject_Z. simpl. lia. }
  rewrite E. unfold Qle, Qlt. simpl. lia.
Qed.

(** The double that [on_edge] computes for a width of 2 ms at 343 m/s is the
    one nearest to 0.343; its exact value is within 1e-16 of 0.343. *)
Lemma distance_2ms :
  (343 * (double_of_int 2000000 * 1e-9) / 2 = 0.343)%float
  /\ Q_of_double 0.343 = Some (6178938688752321 # 18014398509481984)%Q
  /\ (Qabs ((6178938688752321 # 18014398509481984) - (343 # 1000))
      < 1 # 10000000000000000)%Q.
Proof.
  split; [reflexivity|]. split; [reflexivity|].
  vm_compute. reflexivity.
Qed.

(** C3 as stated fails: a width of 25043541085 ns (25 s) has a distance of
    2^32 um, which the [u32] result cannot hold; the function returns 0. *)
Lemma width_ns_to_um_wraps :
  0 <= 25043541085
  /\ RangerK.width_ns_to_um 25043541085 = 0
  /\ 25043541085 * 171500 / 1000000 = 4294967296
  /\ ~ (forall w, 0 <= w ->
          RangerK.width_ns_to_um w = w * 171500 / 1000000).
Proof.
  split; [lia|]. split; [reflexivity|]. split; [reflexivity|].
  intros H. specialize (H 25043541085 ltac:(lia)).
  vm_compute in H. discriminate.
Qed.

(** C3 (amended): for every width from 0 to 25043541084 ns, the largest
    whose result fits the 32-bit return type, [width_ns_to_um] is
    [width_ns * 171500 / 1000000] with integer division; that value is
    less than 1 um below, and never above, the exact value of
    [343 * width_ns * 1e-9 / 2] metres; a width of 2_000_000 ns gives exactly
    343_000 um, and the double form gives the double nearest to 0.343 m
    there. *)
Theorem width_ns_to_um_spec (w : Z) :
  0 <= w <= WIDTH_NS_MAX_U32 ->
  RangerK.width_ns_to_um w = w * 171500 / 1000000
  /\ (0 <= exact_distance_m w * 1000000
           - inject_Z (RangerK.width_ns_to_um w) < 1)%Q
  /\ RangerK.width_ns_to_um 2000000 = 343000
  /\ (343 * (double_of_int 2000000 * 1e-9) / 2 = 0.343)%float.
Proof.
  intros Hw. split; [|split; [|split]].
  - apply width_ns_to_um_in_range, Hw.
  - rewrite width_ns_to_um_in_range by exact Hw.
    apply fixed_point_truncation.
  - reflexivity.
  - apply distance_2ms.
Qed.

Lemma width_ns_to_um_spec_witness :
  0 <= 5830 <= WIDTH_NS_MAX_U32
  /\ RangerK.width_ns_to_um 5830 = 999.
Proof.
  assert (H : 0 <= 5830 <= WIDTH_NS_MAX_U32) by (unfold WIDTH_NS_MAX_U32; lia).
  split; [exact H|].
  destruct (width_ns_to_um_spec 5830 H) as [E _].
  rewrite E. reflexivity.
Defined.

(** ** The pulse tracker and the IRQ handler *)

Lemma on_edge_rising (ts0 : Z) (pt : PulseTracker) :
  on_edge (mkEdgeStamp Rising ts0) pt
  = (None, mkPulseTracker (Some ts0) (c_ pt)).
Proof. reflexivity. Qed.

Lemma on_edge_falling_unarmed (ts0 : Z) (pt : PulseTracker) :
  armed pt = false ->
  on_edge (mkEdgeStamp Falling ts0) pt = (None, pt).
Proof.
  unfold armed, on_edge. simpl. destruct (t_rise_ pt); [discriminate|]. done.
Qed.

Lemma on_edge_falling_armed_raw (c : float) (t_rise ts0 : Z) :
  on_edge (mkEdgeStamp Falling ts0) (mkPulseTracker (Some t_rise) c)
  = (Some (mkPulse (to_s64 (ts0 - t_rise))
             (c * (double_of_int (to_s64 (ts0 - t_rise)) * 1e-9) / 2)%float),
     mkPulseTracker None c).
Proof. reflexivity. Qed.

(** The kernel handler on a falling edge after a rising one: the width, the
    distance in micrometres and the pulse counter. *)
Lemma echo_irq_falling_armed (now : Z) (st : RangerK.sensor_state) :
  RangerK.have_rise st = true ->
  is_timestamp (RangerK.rise_ts st) -> is_timestamp now ->
  RangerK.echo_irq_sensor 0 now st
  = RangerK.SensorState false (RangerK.rise_ts st)
      (RangerK.width_ns_to_um (now - RangerK.rise_ts st))
      (to_u32 (RangerK.pulses st + 1)) (RangerK.overruns st).
Proof.
  intros Hr Ht Hn. unfold RangerK.echo_irq_sensor. simpl. rewrite Hr.
  rewrite timestamp_diff_s64 by assumption. reflexivity.
Qed.

(** C1: on a falling edge, an armed tracker (rising timestamp [t_rise]
    recorded) returns a pulse whose width is [ts - t_rise] and whose
    distance is [speed_of_sound * width * 1e-9 / 2], the product taken in
    doubles as [c * (width * 1e-9)] and then halved, and the tracker is left
    unarmed; with 343 m/s and a width of 2_000_000 ns the distance is the
    double nearest to 0.343, whose exact value is within 1e-16 of 0.343. *)
Theorem on_edge_falling_armed (c : float) (t_rise ts0 : Z) :
  is_timestamp t_rise -> is_timestamp ts0 ->
  let pt := mkPulseTracker (Some t_rise) c in
  let width_ns := ts0 - t_rise in
  armed pt = true
  /\ on_edge (mkEdgeStamp Falling ts0) pt
     = (Some (mkPulse width_ns
                (c * (double_of_int width_ns * 1e-9) / 2)%float),
        mkPulseTracker None c)
  /\ armed (on_edge (mkEdgeStamp Falling ts0) pt).2 = false
  /\ (c = 343%float -> width_ns = 2000000 ->
      ∃ p q, (on_edge (mkEdgeStamp Falling ts0) pt).1 = Some p
             /\ distance_m p = 0.343%float
             /\ Q_of_double (distance_m p) = Some q
             /\ (Qabs (q - (343 # 1000)) < 1 # 10000000000000000)%Q).
Proof.
  intros Hr Ht pt width_ns. subst pt width_ns.
  rewrite on_edge_falling_armed_raw.
  rewrite timestamp_diff_s64 by assumption.
  split; [reflexivity|]. split; [reflexivity|]. split; [reflexivity|].
  intros -> Hw. rewrite Hw.
  destruct distance_2ms as (Hd & Hq & Hlt).
  eexists _, _. split; [reflexivity|].
  cbn [distance_m]. rewrite Hd.
  split; [reflexivity|]. split; [exact Hq|exact Hlt].
Qed.

Lemma on_edge_falling_armed_witness :
  is_timestamp 1000 /\ is_timestamp 2001000
  /\ on_edge (mkEdgeStamp Falling 2001000) (mkPulseTracker (Some 1000) 343)
     = (Some (mkPulse 2000000 0.343), mkPulseTracker None 343).
Proof.
  assert (H1 : is_timestamp 1000) by (unfold is_timestamp; lia).
  assert (H2 : is_timestamp 2001000) by (unfold is_timestamp; lia).
  split; [exact H1|]. split; [exact H2|].
  destruct (on_edge_falling_armed 343 1000 2001000 H1 H2) as (_ & E & _).
  rewrite E. reflexivity.
Defined.

Lemma echo_irq_thread_lookup (idx : nat) (level now : Z)
    (g : RangerK.module_state) :
  RangerK.s (RangerK.echo_irq_thread idx level now g) !! idx
  = RangerK.echo_irq_sensor level now <$> RangerK.s g !! idx.
Proof. unfold RangerK.echo_irq_thread. simpl. apply list_lookup_alter_eq. Qed.

Lemma echo_irq_thread_lookup_ne (idx j : nat) (level now : Z)
    (g : RangerK.module_state) :
  idx ≠ j ->
  RangerK.s (RangerK.echo_irq_thread idx level now g) !! j
  = RangerK.s g !! j.
Proof.
  intros Hne. unfold RangerK.echo_irq_thread. simpl.
  apply list_lookup_alter_ne, Hne.
Qed.

(** C2 as stated fails at the top of the 32-bit counter: an overrun with
    [overruns = 4294967295] leaves the counter at 0, not one higher. *)
Lemma overrun_count_wraps :
  let st := RangerK.SensorState false 0 0 0 4294967295 in
  RangerK.sensor_wf st
  /\ RangerK.have_rise st = false
  /\ RangerK.overruns (RangerK.echo_irq_sensor 0 7 st) = 0
  /\ RangerK.overruns (RangerK.echo_irq_sensor 0 7 st)
     <> RangerK.overruns st + 1.
Proof.
  cbv zeta. split; [|split; [reflexivity|split; [reflexivity|]]].
  - unfold RangerK.sensor_wf, in_u32. simpl. lia.
  - vm_compute. discriminate.
Qed.

(** C2 (amended): a falling edge on a channel that is not armed produces no
    pulse and adds 1 to that channel's [overruns] modulo 2^32: exactly 1
    below the counter's maximum 4294967295, from which it wraps to 0.  The
    channel's [pulses] and [dist_um] are unchanged, it stays unarmed, and
    the other channels are untouched. *)
Theorem falling_unarmed_overrun (g : RangerK.module_state) (idx : nat)
    (st : RangerK.sensor_state) (now : Z) :
  RangerK.s g !! idx = Some st ->
  RangerK.have_rise st = false ->
  in_u32 (RangerK.overruns st) ->
  let g' := RangerK.echo_irq_thread idx 0 now g in
  (∃ st', RangerK.s g' !! idx = Some st'
     /\ RangerK.overruns st' = to_u32 (RangerK.overruns st + 1)
     /\ (RangerK.overruns st < 4294967295 ->
         RangerK.overruns st' = RangerK.overruns st + 1)
     /\ (RangerK.overruns st = 4294967295 -> RangerK.overruns st' = 0)
     /\ RangerK.pulses st' = RangerK.pulses st
     /\ RangerK.dist_um st' = RangerK.dist_um st
     /\ RangerK.have_rise st' = false)
  /\ (∀ j, idx ≠ j -> RangerK.s g' !! j = RangerK.s g !! j)
  /\ (∀ ts0 pt, armed pt = false ->
        on_edge (mkEdgeStamp Falling ts0) pt = (None, pt)).
Proof.
  intros Hlk Hr Hov g'. subst g'. split; [|split].
  - exists (RangerK.echo_irq_sensor 0 now st).
    rewrite echo_irq_thread_lookup, Hlk.
    unfold RangerK.echo_irq_sensor. simpl. rewrite Hr. simpl.
    split; [reflexivity|]. split; [reflexivity|].
    split; [|split; [|done]].
    + intros Hlt. apply to_u32_small. unfold in_u32 in *. lia.
    + intros ->. reflexivity.
  - intros j Hne. apply echo_irq_thread_lookup_ne, Hne.
  - intros ts0 pt. apply on_edge_falling_unarmed.
Qed.

Lemma falling_unarmed_overrun_witness :
  ∃ st',
    RangerK.s (RangerK.echo_irq_thread 2 0 5000 RangerK.module_init) !! 2%nat
    = Some st'
    /\ RangerK.overruns st' = 1 /\ RangerK.pulses st' = 0.
Proof.
  destruct (falling_unarmed_overrun RangerK.module_init 2
              RangerK.sensor_init 5000)
    as [(st' & Hlk & _ & Hinc & _ & Hp & _) _].
  - reflexivity.
  - reflexivity.
  - unfold in_u32. simpl. lia.
  - exists st'. split; [exact Hlk|]. split; [|exact Hp].
    apply Hinc. simpl. lia.
Defined.

(** C9: on a rising edge the tracker records the timestamp, is armed and
    returns nothing, whatever its state: a rising timestamp already stored
    is overwritten.  The kernel handler does the same on a line that reads
    non-zero, and counts neither a pulse nor an overrun. *)
Theorem rising_edge_arms :
  (∀ (ts0 : Z) (pt : PulseTracker),
     let r := on_edge (mkEdgeStamp Rising ts0) pt in
     r.1 = None /\ t_rise_ r.2 = Some ts0 /\ armed r.2 = true
     /\ c_ r.2 = c_ pt)
  /\ (∀ (level now : Z) (st : RangerK.sensor_state),
        level ≠ 0 ->
        RangerK.echo_irq_sensor level now st
        = RangerK.SensorState true now (RangerK.dist_um st)
            (RangerK.pulses st) (RangerK.overruns st)).
Proof.
  split.
  - intros ts0 pt. cbv zeta. rewrite on_edge_rising. done.
  - intros level now st Hl. unfold RangerK.echo_irq_sensor.
    destruct (Z.eqb_spec level 0) as [E|_]; [contradiction|]. reflexivity.
Qed.

Lemma rising_edge_arms_witness :
  on_edge (mkEdgeStamp Rising 900) (mkPulseTracker (Some 100) 343)
  = (None, mkPulseTracker (Some 900) 343)
  /\ RangerK.echo_irq_sensor 1 900 (RangerK.SensorState true 100 0 3 2)
     = RangerK.SensorState true 900 0 3 2.
Proof.
  destruct rising_edge_arms as [Hu Hk]. split.
  - reflexivity.
  - rewrite Hk by lia. reflexivity.
Defined.

(** ** The order of doubles *)

(** [SFcompare] orders sign, exponent and mantissa lexicographically. *)
Ltac compare_cases :=
  repeat match goal with
  | |- context [(?a ?= ?b)%Z] => destruct (Z.compare_spec a b); simpl
  | H : context [(?a ?= ?b)%Z] |- _ =>
      destruct (Z.compare_spec a b); simpl in H
  | |- context [(?a ?= ?b)%positive] =>
      destruct (Pos.compare_spec a b); simpl
  | H : context [(?a ?= ?b)%positive] |- _ =>
      destruct (Pos.compare_spec a b); simpl in H
  end.

Ltac by_compare :=
  simpl; try (intros; congruence);
  change PosDef.Pos.compare_cont with Pos.compare_cont;
  repeat match goal with
  | |- context [Pos.compare_cont Eq ?a ?b] => fold (Pos.compare a b)
  end;
  intros; compare_cases; subst; try congruence; try lia.

Lemma SFleb_trans (x y z : spec_float) :
  SFleb x y = true -> SFleb y z = true -> SFleb x z = true.
Proof.
  unfold SFleb, SFcompare.
  destruct x as [[]|[]| |[] mx ex], y as [[]|[]| |[] my ey],
           z as [[]|[]| |[] mz ez]; by_compare.
Qed.

Lemma SFleb_of_not_ltb (x y : spec_float) :
  x <> S754_nan -> y <> S754_nan ->
  SFltb y x = false -> SFleb x y = true.
Proof.
  unfold SFleb, SFltb, SFcompare.
  destruct x as [[]|[]| |[] mx ex], y as [[]|[]| |[] my ey]; by_compare.
Qed.

Lemma SFleb_of_ltb (x y : spec_float) : SFltb x y = true -> SFleb x y = true.
Proof.
  unfold SFleb, SFltb. destruct (SFcompare x y) as [[]|]; congruence.
Qed.

Lemma SFeqb_refl (x : spec_float) : x <> S754_nan -> SFeqb x x = true.
Proof.
  unfold SFeqb, SFcompare.
  destruct x as [[]|[]| |[] mx ex]; simpl; try congruence;
    change PosDef.Pos.compare_cont with Pos.compare_cont;
    fold (Pos.compare mx mx); intros _;
    rewrite Z.compare_refl, Pos.compare_refl; reflexivity.
Qed.

Lemma not_nan_spec (x : float) : not_nan x <-> Prim2SF x <> S754_nan.
Proof.
  unfold not_nan, is_nan. rewrite FloatAxioms.eqb_spec. split.
  - intros H E. rewrite E in H. discriminate.
  - intros H. rewrite SFeqb_refl by assumption. reflexivity.
Qed.

Lemma fle_trans (x y z : float) : fle x y -> fle y z -> fle x z.
Proof. unfold fle. rewrite !leb_spec. apply SFleb_trans. Qed.

Lemma fle_of_ltb (x y : float) : (x <? y)%float = true -> fle x y.
Proof. unfold fle. rewrite ltb_spec, leb_spec. apply SFleb_of_ltb. Qed.

Lemma fle_of_not_ltb (x y : float) :
  not_nan x -> not_nan y -> (y <? x)%float = false -> fle x y.
Proof.
  unfold fle. rewrite !not_nan_spec, ltb_spec, leb_spec.
  apply SFleb_of_not_ltb.
Qed.

(** ** [std_sort] sorts *)

Lemma sort_insert_perm (x : float) (l : list float) :
  sort_insert x l ≡ₚ x :: l.
Proof.
  induction l as [|y l IH]; simpl; [done|].
  destruct (x <? y)%float; [done|].
  rewrite IH. apply Permutation_swap.
Qed.

Lemma std_sort_perm (l : list float) : std_sort l ≡ₚ l.
Proof.
  induction l as [|x l IH]; simpl; [done|].
  rewrite sort_insert_perm. by f_equiv.
Qed.

Lemma std_sort_length (l : list float) : length (std_sort l) = length l.
Proof. apply Permutation_length, std_sort_perm. Qed.

Lemma sort_insert_sorted (x : float) (l : list float) :
  not_nan x -> Forall not_nan l ->
  StronglySorted fle l -> StronglySorted fle (sort_insert x l).
Proof.
  intros Hx Hl Hs. induction Hs as [|y l Hs IH Hy]; simpl.
  - repeat constructor.
  - apply Forall_cons in Hl as [Hny Hl].
    destruct (x <? y)%float eqn:E.
    + constructor; [by constructor|].
      constructor; [by apply fle_of_ltb|].
      eapply Forall_impl; [exact Hy|].
      intros z Hz. eapply fle_trans; [|exact Hz]. by apply fle_of_ltb.
    + constructor; [by apply IH|].
      rewrite sort_insert_perm. constructor; [|done].
      by apply fle_of_not_ltb.
Qed.

Lemma std_sort_sorted (l : list float) :
  Forall not_nan l -> StronglySorted fle (std_sort l).
Proof.
  induction 1 as [|x l Hx Hl IH]; simpl; [constructor|].
  apply sort_insert_sorted; [done| |done].
  by rewrite std_sort_perm.
Qed.

(** The element the filter returns is an order statistic of the window. *)
Lemma sorted_mid_order_stat (w : list float) (m : float) :
  Forall not_nan w -> sorted_mid w = Some m ->
  order_stat (length w / 2) w m.
Proof.
  unfold sorted_mid, order_stat. intros Hw Hm.
  rewrite std_sort_length in Hm.
  exists (std_sort w). split; [apply std_sort_perm|].
  split; [by apply std_sort_sorted|done].
Qed.

Lemma sorted_mid_defined (w : list float) :
  w ≠ [] -> is_Some (sorted_mid w).
Proof.
  intros Hne. unfold sorted_mid. apply lookup_lt_is_Some.
  rewrite std_sort_length.
  destruct w as [|x w]; [done|]. cbn [length].
  apply Nat.div_lt; lia.
Qed.

(** ** The median filter *)

Lemma last_n_length {A} (n : nat) (l : list A) :
  length (last_n n l) = (n `min` length l)%nat.
Proof. unfold last_n. rewrite length_drop. lia. Qed.

Lemma last_n_all {A} (n : nat) (l : list A) :
  (length l <= n)%nat -> last_n n l = l.
Proof.
  unfold last_n. intros H.
  replace (length l - n)%nat with 0%nat by lia. done.
Qed.

Lemma last_n_snoc_full {A} (n : nat) (l : list A) (v : A) :
  (n <= length l)%nat ->
  drop 1 (last_n n l ++ [v]) = last_n n (l ++ [v]).
Proof.
  unfold last_n. intros H.
  rewrite length_app. simpl.
  replace (length l + 1 - n)%nat with ((length l - n) + 1)%nat by lia.
  rewrite <- drop_drop. f_equal.
  rewrite drop_app_le by lia. done.
Qed.

(** The buffer holds the last [win_] values pushed; a push with fewer than
    [win_] values seen returns nothing. *)
Lemma push_cold (W : nat) (vs : list float) (v : float) :
  (S (length vs) < W)%nat ->
  push v (mkMedianFilter W (last_n W vs))
  = Some (None, mkMedianFilter W (last_n W (vs ++ [v]))).
Proof.
  intros Hc. unfold push. simpl.
  rewrite (last_n_all W vs) by lia.
  rewrite (last_n_all W (vs ++ [v])) by (rewrite length_app; simpl; lia).
  rewrite length_app. simpl.
  destruct (Nat.ltb_spec W (length vs + 1)); [lia|].
  rewrite length_app. simpl.
  destruct (Nat.ltb_spec (length vs + 1) W); [done|lia].
Qed.

(** With [win_] values or more seen, a push returns the middle element of
    the sorted last [win_] values. *)
Lemma push_warm (W : nat) (vs : list float) (v : float) :
  (0 < W <= S (length vs))%nat ->
  ∃ m, sorted_mid (last_n W (vs ++ [v])) = Some m
       /\ push v (mkMedianFilter W (last_n W vs))
          = Some (Some m, mkMedianFilter W (last_n W (vs ++ [v]))).
Proof.
  intros [HW Hw].
  assert (Hb : (if (W <? length (last_n W vs ++ [v]))%nat
                then drop 1 (last_n W vs ++ [v]) else last_n W vs ++ [v])
               = last_n W (vs ++ [v])).
  { rewrite length_app, last_n_length. simpl.
    destruct (Nat.ltb_spec W (W `min` length vs + 1)%nat).
    - apply last_n_snoc_full. lia.
    - rewrite (last_n_all W vs) by lia.
      rewrite last_n_all; [done|]. rewrite length_app. simpl. lia. }
  assert (Hlen : length (last_n W (vs ++ [v])) = W).
  { rewrite last_n_length, length_app. simpl. lia. }
  destruct (sorted_mid_defined (last_n W (vs ++ [v]))) as [m Hm].
  { intros E. rewrite E in Hlen. simpl in Hlen. lia. }
  exists m. split; [exact Hm|].
  unfold push. cbn [win_ buf_]. rewrite Hb, Hlen.
  rewrite Nat.ltb_irrefl. rewrite Hm. done.
Qed.

(** A filter of window 0 cannot be pushed to: the buffer is emptied again
    and the read of [tmp[0]] is past the end of the empty vector. *)
Lemma push_window_zero (v : float) (buf : list float) :
  push v (mkMedianFilter 0 buf)
  = (if decide (buf = []) then None
     else m ← sorted_mid (drop 1 (buf ++ [v]));
          Some (Some m, mkMedianFilter 0 (drop 1 (buf ++ [v])))).
Proof.
  unfold push. cbn [win_ buf_]. rewrite length_app. simpl.
  destruct (Nat.ltb_spec 0 (length buf + 1)); [|lia].
  destruct buf as [|x buf]; simpl; done.
Qed.

(** All pushes of a run, from a filter that has seen [pre]. *)
Lemma push_all_from (W : nat) (vs pre : list float) :
  (0 < W)%nat ->
  ∃ rs, push_all vs (mkMedianFilter W (last_n W pre))
        = Some (rs, mkMedianFilter W (last_n W (pre ++ vs)))
    /\ length rs = length vs
    /\ ∀ i, (i < length vs)%nat ->
         let seen := pre ++ take (S i) vs in
         ((length seen < W)%nat -> rs !! i = Some None)
         /\ ((W <= length seen)%nat ->
             ∃ m, rs !! i = Some (Some m)
                  /\ sorted_mid (last_n W seen) = Some m).
Proof.
  intros HW. revert pre.
  induction vs as [|v vs IH]; intros pre.
  - exists []. rewrite app_nil_r. simpl. split; [done|]. split; [done|].
    intros i Hi. lia.
  - destruct (IH (pre ++ [v])) as (rs & Hrun & Hlen & Hrs).
    rewrite <- app_assoc in Hrun. simpl in Hrun.
    assert (Htail : ∀ i, (i < length vs)%nat ->
              (pre ++ [v]) ++ take (S i) vs = pre ++ v :: take (S i) vs).
    { intros i _. rewrite <- app_assoc. done. }
    destruct (Nat.lt_ge_cases (S (length pre)) W) as [Hc|Hw].
    + exists (None :: rs). cbn [push_all].
      rewrite push_cold by exact Hc. simpl. rewrite Hrun. simpl.
      split; [done|]. split; [by rewrite Hlen|].
      intros [|i] Hi; cbn zeta.
      * simpl. rewrite length_app. simpl. split; [done|lia].
      * rewrite <- Htail by (simpl in Hi; lia).
        apply Hrs. simpl in Hi. lia.
    + destruct (push_warm W pre v) as (m & Hm & Hp); [lia|].
      exists (Some m :: rs). cbn [push_all].
      rewrite Hp. simpl. rewrite Hrun. simpl.
      split; [done|]. split; [by rewrite Hlen|].
      intros [|i] Hi; cbn zeta.
      * simpl. rewrite length_app. simpl. split; [lia|].
        intros _. exists m. done.
      * rewrite <- Htail by (simpl in Hi; lia).
        apply Hrs. simpl in Hi. lia.
Qed.

Lemma StronglySorted_lookup_lt {A} (R : relation A) (l : list A)
    (i j : nat) (a b : A) :
  StronglySorted R l -> l !! i = Some a -> l !! j = Some b ->
  (i < j)%nat -> R a b.
Proof.
  intros Hs. revert i j.
  induction Hs as [|x l Hs IH Hx]; intros i j Hi Hj Hlt; [done|].
  destruct j as [|j]; [lia|]. simpl in Hj.
  destruct i as [|i]; simpl in Hi.
  - injection Hi as ->. rewrite Forall_forall in Hx.
    apply Hx. eapply list_elem_of_lookup_2, Hj.
  - eapply IH; [exact Hi|exact Hj|lia].
Qed.

Lemma not_nan_last_n_take (n k : nat) (vs : list float) :
  Forall not_nan vs -> Forall not_nan (last_n n (take k vs)).
Proof. intros H. unfold last_n. by apply Forall_drop, Forall_take. Qed.

Lemma last_n_take_length (W i : nat) (vs : list float) :
  (i < length vs)%nat -> (W <= S i)%nat ->
  length (last_n W (take (S i) vs)) = W.
Proof. intros Hi Hw. rewrite last_n_length, length_take. lia. Qed.

(** Every window size but 0: the results of all pushes of a run. *)
Lemma push_all_order_stat (W : nat) (vs : list float) :
  (0 < W)%nat -> Forall not_nan vs ->
  ∃ rs, push_all vs (MedianFilter_new W)
        = Some (rs, mkMedianFilter W (last_n W vs))
    /\ length rs = length vs
    /\ (∀ i, (i < length vs)%nat -> (S i < W)%nat -> rs !! i = Some None)
    /\ (∀ i, (i < length vs)%nat -> (W <= S i)%nat ->
          ∃ m, rs !! i = Some (Some m)
               /\ sorted_mid (last_n W (take (S i) vs)) = Some m
               /\ order_stat (W / 2) (last_n W (take (S i) vs)) m).
Proof.
  intros HW Hnan.
  destruct (push_all_from W vs [] HW) as (rs & Hrun & Hlen & Hrs).
  exists rs. split; [exact Hrun|]. split; [exact Hlen|]. split.
  - intros i Hi Hc. apply (Hrs i Hi). simpl. rewrite length_take. lia.
  - intros i Hi Hw. destruct (Hrs i Hi) as [_ Hwarm].
    destruct Hwarm as (m & Hr & Hm).
    { simpl. rewrite length_take. lia. }
    simpl in Hm. exists m. split; [exact Hr|]. split; [exact Hm|].
    apply sorted_mid_order_stat in Hm; [|by apply not_nan_last_n_take].
    by rewrite last_n_take_length in Hm.
Qed.

Lemma not_fle_nan_l (y : float) : ~ fle nan y.
Proof.
  unfold fle. rewrite leb_spec. change (Prim2SF nan) with S754_nan.
  by destruct (Prim2SF y).
Qed.

Lemma not_fle_nan_r (x : float) : ~ fle x nan.
Proof.
  unfold fle. rewrite leb_spec. change (Prim2SF nan) with S754_nan.
  by destruct (Prim2SF x).
Qed.

(** A list in ascending order that holds a NaN holds nothing else. *)
Lemma sorted_with_nan (srt : list float) :
  StronglySorted fle srt -> nan ∈ srt -> srt = [nan].
Proof.
  intros Hs Hin. destruct Hs as [|x l Hl Hx]; [by apply elem_of_nil in Hin|].
  apply elem_of_cons in Hin as [<-|Hin].
  - destruct l as [|y l]; [done|].
    apply Forall_cons in Hx as [Hx _]. by apply not_fle_nan_l in Hx.
  - rewrite Forall_forall in Hx. by apply Hx, not_fle_nan_r in Hin.
Qed.

(** C4 as stated fails on a sequence that holds a NaN.  After the pushes
    3, 3, NaN, 3, 3 the window is these five values; [operator<] holds
    between no two of them, so the sort has nothing to move (here
    [std_sort] leaves the window as it is, as the insertion sort that
    [std::sort] runs on a short range does) and the middle element is the
    NaN.  The filter returns the NaN: a value that is neither below nor
    above any value of the window, four of which are 3, and the window has
    no median, as no order of it is ascending. *)
Lemma nan_window_returns_nan :
  push_all [3; 3; nan; 3; 3]%float (MedianFilter_new 5)
  = Some ([None; None; None; None; Some nan],
          mkMedianFilter 5 [3; 3; nan; 3; 3]%float)
  /\ std_sort [3; 3; nan; 3; 3]%float = [3; 3; nan; 3; 3]%float
  /\ Forall (λ x, (x <=? nan)%float = false /\ (nan <=? x)%float = false)
            [3; 3; nan; 3; 3]%float
  /\ ~ is_median [3; 3; nan; 3; 3]%float nan.
Proof.
  split; [reflexivity|]. split; [reflexivity|].
  split; [by repeat constructor|].
  intros (srt & Hp & Hs & Hk).
  apply list_elem_of_lookup_2 in Hk.
  apply Permutation_length in Hp.
  rewrite (sorted_with_nan srt Hs Hk) in Hp. discriminate.
Qed.

(** C4 (amended): on every sequence of doubles none of which is a NaN, a
    filter of window 5 returns nothing for each of the first 4 pushes and,
    from the 5th on, the median of the last 5 values pushed, the window
    holding them in arrival order with the oldest dropped first; pushing
    1, 2, 3, 4, 5 gives 3 on the 5th push. *)
Theorem median_filter_window5 (vs : list float) :
  Forall not_nan vs ->
  ∃ rs mf',
    push_all vs (MedianFilter_new 5) = Some (rs, mf')
    /\ length rs = length vs
    /\ buf_ mf' = last_n 5 vs
    /\ (∀ i, (i < length vs)%nat -> (i < 4)%nat -> rs !! i = Some None)
    /\ (∀ i, (i < length vs)%nat -> (4 <= i)%nat ->
          ∃ m, rs !! i = Some (Some m)
               /\ is_median (last_n 5 (take (S i) vs)) m)
    /\ push_all [1; 2; 3; 4; 5]%float (MedianFilter_new 5)
       = Some ([None; None; None; None; Some 3%float],
               mkMedianFilter 5 [1; 2; 3; 4; 5]%float).
Proof.
  intros Hnan.
  destruct (push_all_order_stat 5 vs ltac:(lia) Hnan)
    as (rs & Hrun & Hlen & Hcold & Hwarm).
  exists rs, (mkMedianFilter 5 (last_n 5 vs)).
  split; [exact Hrun|]. split; [exact Hlen|]. split; [done|].
  split; [|split].
  - intros i Hi H4. apply Hcold; lia.
  - intros i Hi H4. destruct (Hwarm i Hi ltac:(lia)) as (m & Hr & _ & Hm).
    exists m. split; [exact Hr|]. unfold is_median.
    by rewrite last_n_take_length by lia.
  - reflexivity.
Qed.

Lemma median_filter_window5_witness :
  ∃ m, is_median [7; 1; 9; 3; 5]%float m /\ m = 5%float.
Proof.
  assert (Hnan : Forall not_nan [2; 7; 1; 9; 3; 5]%float)
    by (repeat constructor).
  destruct (median_filter_window5 [2; 7; 1; 9; 3; 5]%float Hnan)
    as (rs & mf' & Hrun & _ & _ & _ & Hwarm & _).
  destruct (Hwarm 5%nat) as (m & Hr & Hm); [simpl; lia|lia|].
  exists m. split; [exact Hm|].
  vm_compute in Hrun. injection Hrun as <- _.
  simpl in Hr. by injection Hr.
Defined.

Lemma float_1_neq_2 : (1 <> 2)%float.
Proof.
  intros E. assert (H : Prim2SF 1 = Prim2SF 2) by (by rewrite E).
  vm_compute in H. discriminate.
Qed.

(** C7 as stated fails: a warm filter of window 2 holding 1 and 2 returns
    2, the upper of the two middle values; the lower one is 1. *)
Lemma even_window_returns_upper :
  Nat.Even 2
  /\ push_all [1; 2]%float (MedianFilter_new 2)
     = Some ([None; Some 2%float], mkMedianFilter 2 [1; 2]%float)
  /\ is_lower_middle [1; 2]%float 1
  /\ ~ is_lower_middle [1; 2]%float 2.
Proof.
  split; [by exists 1%nat|]. split; [reflexivity|]. split.
  - exists [1; 2]%float. split; [done|]. split; [|done].
    repeat constructor.
  - intros (srt & Hp & Hs & Hk). simpl in Hk.
    symmetry in Hp. apply Permutation_length_2_inv in Hp as [-> | ->].
    + apply (f_equal (from_option id 0%float)) in Hk.
      exact (float_1_neq_2 Hk).
    + apply StronglySorted_inv in Hs as [_ Hf].
      apply Forall_cons in Hf as [Hf _].
      vm_compute in Hf. discriminate.
Qed.

(** C7 (amended): on every sequence of doubles none of which is a NaN, a
    filter of even window [W >= 2], once warm, returns on every push the
    element of index [W / 2] of the sorted window, which is the upper of
    the two middle values: the lower one, of index [W / 2 - 1], is not
    above it. *)
Theorem median_filter_even_window (W : nat) (vs : list float) :
  (0 < W)%nat -> Nat.Even W -> Forall not_nan vs ->
  ∃ rs mf',
    push_all vs (MedianFilter_new W) = Some (rs, mf')
    /\ ∀ i, (i < length vs)%nat -> (W <= S i)%nat ->
         let window := last_n W (take (S i) vs) in
         ∃ m lo, rs !! i = Some (Some m)
                 /\ is_median window m
                 /\ is_lower_middle window lo
                 /\ fle lo m.
Proof.
  intros HW [k Hk] Hnan.
  destruct (push_all_order_stat W vs HW Hnan)
    as (rs & Hrun & Hlen & _ & Hwarm).
  exists rs, (mkMedianFilter W (last_n W vs)). split; [exact Hrun|].
  intros i Hi Hw window.
  destruct (Hwarm i Hi Hw) as (m & Hr & _ & srt & Hp & Hs & Hm).
  assert (Hwl : length window = W) by (by apply last_n_take_length).
  assert (Hsl : length srt = W) by (by rewrite Hp).
  destruct (lookup_lt_is_Some_2 srt (W / 2 - 1)) as [lo Hlo].
  { rewrite Hsl. pose proof (Nat.div_lt W 2 HW). lia. }
  exists m, lo. split; [exact Hr|].
  unfold is_median, is_lower_middle. rewrite Hwl.
  split; [by exists srt|]. split; [by exists srt|].
  eapply StronglySorted_lookup_lt; [exact Hs|exact Hlo|exact Hm|].
  subst W. replace (2 * k / 2)%nat with k.
  - lia.
  - symmetry. rewrite Nat.mul_comm. apply Nat.div_mul. lia.
Qed.

Lemma median_filter_even_window_witness :
  ∃ rs mf', push_all [4; 1; 3; 2]%float (MedianFilter_new 4)
            = Some (rs, mf')
            /\ rs !! 3%nat = Some (Some 3%float).
Proof.
  assert (Hnan : Forall not_nan [4; 1; 3; 2]%float)
    by (repeat constructor).
  assert (Hev : Nat.Even 4) by (by exists 2%nat).
  destruct (median_filter_even_window 4 [4; 1; 3; 2]%float
              ltac:(lia) Hev Hnan) as (rs & mf' & Hrun & _).
  exists rs, mf'. split; [exact Hrun|].
  vm_compute in Hrun. by injection Hrun as <- _.
Defined.

(** ** Pacing of the exports *)

Lemma print_tick_due (I now np : Z) (frame : TelemetryFrame) :
  np <= now ->
  print_tick I now frame np = (Some (now, frame), to_s64 (np + I)).
Proof.
  intros H. unfold print_tick.
  destruct (Z.leb_spec np now); [done|lia].
Qed.

Lemma print_tick_not_due (I now np : Z) (frame : TelemetryFrame) :
  now < np -> print_tick I now frame np = (None, np).
Proof.
  intros H. unfold print_tick.
  destruct (Z.leb_spec np now); [lia|done].
Qed.

(** The deadlines of ranger-u advance by one interval per frame printed:
    the [k]-th frame is printed at its deadline [np + k * I] or later. *)
Lemma run_deadlines (I : Z) (passes : list (list (nat * EdgeStamp) * Z)) :
  0 <= I ->
  ∀ (st : loop_state) (np : Z) outs st' np',
    - 2 ^ 63 <= np ->
    np + Z.of_nat (length passes) * I < 2 ^ 63 ->
    run I passes (st, np) = Some (outs, (st', np')) ->
    np' = np + Z.of_nat (length outs) * I
    /\ (length outs <= length passes)%nat
    /\ ∀ k t fr, outs !! k = Some (t, fr) -> np + Z.of_nat k * I <= t.
Proof.
  intros HI. induction passes as [|[evs now] rest IH];
    intros st np outs st' np' Hlo Hhi Hrun.
  - simpl in Hrun. injection Hrun as <- <- <-. simpl.
    split; [lia|]. split; [lia|]. intros k t fr Hk. done.
  - cbn [run] in Hrun. unfold loop_pass in Hrun. simpl in Hrun.
    destruct (drain evs st) as [st1|]; simpl in Hrun; [|done].
    cbn [length] in Hhi.
    unfold print_tick in Hrun.
    destruct (Z.leb_spec np now) as [Hdue|Hnot]; simpl in Hrun.
    + rewrite to_s64_small in Hrun by (unfold in_s64; nia).
      destruct (run I rest (st1, np + I)) as [[outs1 [st2 np2]]|] eqn:E;
        simpl in Hrun; [|done].
      injection Hrun as <- <- <-.
      destruct (IH st1 (np + I) outs1 st2 np2) as (Hnp & Hlen & Hk);
        [lia|nia|exact E|].
      split; [simpl; lia|]. split; [simpl; lia|].
      intros [|k] t fr Hlk; simpl in Hlk.
      * injection Hlk as <- <-. lia.
      * specialize (Hk k t fr Hlk). lia.
    + destruct (run I rest (st1, np)) as [[outs1 [st2 np2]]|] eqn:E;
        simpl in Hrun; [|done].
      injection Hrun as <- <- <-.
      destruct (IH st1 np outs1 st2 np2) as (Hnp & Hlen & Hk);
        [lia|nia|exact E|].
      split; [exact Hnp|]. split; [simpl; lia|exact Hk].
Qed.

(** A run without events is defined. *)
Lemma run_no_events (I : Z) (nows : list Z) (st : loop_state) (np : Z) :
  is_Some (run I ((λ now, ([], now)) <$> nows) (st, np)).
Proof.
  revert np. induction nows as [|now nows IH]; intros np; [by eexists|].
  cbn [fmap list_fmap run]. unfold loop_pass. simpl.
  destruct (print_tick I now (tf st) np) as [out np1].
  simpl. destruct (IH np1) as [[outs st2] E]. rewrite E. by eexists.
Qed.

Lemma too_soon_false (rate_hz : float) (now last : Z) :
  RangerCan.rate_limit rate_hz = true ->
  last ≠ 0 -> 0 <= now - last < 2 ^ 64 ->
  RangerCan.too_soon rate_hz now last = false ->
  (double_of_int (now - last) <? RangerCan.min_interval_ns rate_hz)%float
  = false.
Proof.
  intros Hrl Hl Hd. unfold RangerCan.too_soon. rewrite Hrl. simpl.
  destruct (Z.eqb_spec last 0) as [E|_]; [done|]. simpl.
  by rewrite to_u64_small.
Qed.

(** The sends of ranger-can from a state whose last send was at [L] (0: no
    send yet), on lines read at non-decreasing positive times from [L] on:
    the first send and every pair of consecutive sends are not closer, as
    line 150 measures it, than the interval. *)
Lemma bridge_run_paced (rate_hz : float)
    (lines : list (option (list float) * Z)) :
  RangerCan.rate_limit rate_hz = true ->
  ∀ (st : RangerCan.bridge_state) outs st',
    0 <= RangerCan.last_sent_ns st ->
    Forall (λ t, RangerCan.last_sent_ns st <= t /\ 0 < t < 2 ^ 64)
           (snd <$> lines) ->
    StronglySorted Z.le (snd <$> lines) ->
    RangerCan.bridge_run rate_hz lines st = (outs, st') ->
    (∀ t m, outs !! 0%nat = Some (t, m) ->
       0 < t /\ (RangerCan.last_sent_ns st ≠ 0 ->
                 not_closer rate_hz (RangerCan.last_sent_ns st) t))
    /\ (∀ i t1 m1 t2 m2,
          outs !! i = Some (t1, m1) -> outs !! S i = Some (t2, m2) ->
          not_closer rate_hz t1 t2).
Proof.
  intros Hrl. induction lines as [|[arr now] rest IH];
    intros st outs st' HL Hall Hsorted Hrun.
  - simpl in Hrun. injection Hrun as <- <-. split; intros; done.
  - cbn [fmap list_fmap] in Hall, Hsorted. simpl in Hall, Hsorted.
    apply Forall_cons in Hall as [[HLnow Hnow] Hall].
    apply StronglySorted_inv in Hsorted as [Hsorted Hle].
    cbn [RangerCan.bridge_run] in Hrun.
    unfold RangerCan.bridge_line in Hrun. simpl in Hrun.
    destruct arr as [arr|].
    + destruct (RangerCan.too_soon rate_hz now (RangerCan.last_sent_ns st))
        eqn:Esoon.
      * destruct (RangerCan.bridge_run rate_hz rest _) as [outs1 st1] eqn:E.
        injection Hrun as <- <-. simpl.
        apply IH in E; [exact E|exact HL|exact Hall|exact Hsorted].
      * destruct (RangerCan.bridge_run rate_hz rest _) as [outs1 st1] eqn:E.
        injection Hrun as <- <-.
        apply IH in E as [Hfirst Hpairs]; [|simpl; lia| |exact Hsorted].
        2:{ simpl. rewrite Forall_forall in Hle, Hall |- *.
            intros t Ht. split; [by apply Hle|by apply Hall]. }
        simpl in Hfirst. split.
        -- intros t m Hlk. simpl in Hlk. injection Hlk as <- <-.
           split; [lia|]. intros HLne. split; [exact HLnow|].
           apply too_soon_false in Esoon; [done|done|done|lia].
        -- intros [|i] t1 m1 t2 m2 H1 H2; simpl in H1, H2.
           ++ injection H1 as <- <-.
              destruct (Hfirst t2 m2 H2) as [_ Hnc]. apply Hnc. lia.
           ++ eapply Hpairs; [exact H1|exact H2].
    + destruct (RangerCan.bridge_run rate_hz rest st) as [outs1 st1] eqn:E.
      injection Hrun as <- <-. simpl.
      apply IH in E; [exact E|exact HL|exact Hall|exact Hsorted].
Qed.

Lemma bridge_line_sent (rate_hz : float) (line : option (list float) * Z)
    (st : RangerCan.bridge_state) (t : Z) (m : RangerCan.RangerMsg) :
  (RangerCan.bridge_line rate_hz line st).1 = Some (t, m) ->
  t = line.2
  /\ RangerCan.too_soon rate_hz t (RangerCan.last_sent_ns st) = false
  /\ RangerCan.last_sent_ns (RangerCan.bridge_line rate_hz line st).2 = t.
Proof.
  unfold RangerCan.bridge_line. destruct line as [[arr|] now]; simpl.
  - destruct (RangerCan.too_soon rate_hz now (RangerCan.last_sent_ns st))
      eqn:E; simpl; [done|].
    intros H. injection H as <- _. done.
  - done.
Qed.

(** C5 as stated fails in ranger-u: the deadline starts at the start time
    and moves by one interval per frame, wherever the frame fell.  At 10 Hz
    (an interval of 100 ms), with passes of the loop at 10, 50 and 100 ms
    after the start, frames are printed at 10 ms and at 100 ms: 90 ms
    apart, and 90 ms after the last export. *)
Lemma prints_closer_than_interval :
  let zero := TelemetryFrame_zero in
  StronglySorted Z.le [10000000; 50000000; 100000000]
  /\ run 100000000 [([], 10000000); ([], 50000000); ([], 100000000)]
         (loop_init 5, 0)
     = Some ([(10000000, zero); (100000000, zero)],
             (loop_init 5, 200000000))
  /\ 100000000 - 10000000 < 100000000.
Proof.
  cbv zeta. split; [|split; [reflexivity|lia]].
  repeat constructor; lia.
Qed.

(** C5 (amended): ranger-u prints when [now >= next_print] and then moves
    [next_print] one interval on, whatever [now] is: the [k]-th frame
    (from 0) of a run started with the deadline [t0] is never printed
    before [t0 + k * interval], but two frames can follow each other
    within less than the interval.  ranger-can sends a frame
    only when no frame was sent before or [now - last_sent_ns] is not below
    the interval, and then sets [last_sent_ns] to [now]: with a positive
    rate, on a clock that is positive and does not go back, two
    consecutive sends are never closer than the interval. *)
Theorem export_pacing :
  (∀ (I : Z) passes (st : loop_state) (t0 : Z) outs st' np',
     0 <= I -> - 2 ^ 63 <= t0 ->
     t0 + Z.of_nat (length passes) * I < 2 ^ 63 ->
     run I passes (st, t0) = Some (outs, (st', np')) ->
     np' = t0 + Z.of_nat (length outs) * I
     /\ ∀ k t fr, outs !! k = Some (t, fr) -> t0 + Z.of_nat k * I <= t)
  /\ (∀ (rate_hz : float) lines outs st',
        RangerCan.rate_limit rate_hz = true ->
        Forall (λ t, 0 < t < 2 ^ 64) (snd <$> lines) ->
        StronglySorted Z.le (snd <$> lines) ->
        RangerCan.bridge_run rate_hz lines RangerCan.bridge_init
        = (outs, st') ->
        ∀ i t1 m1 t2 m2,
          outs !! i = Some (t1, m1) -> outs !! S i = Some (t2, m2) ->
          not_closer rate_hz t1 t2)
  /\ (∀ (rate_hz : float) line st t m,
        (RangerCan.bridge_line rate_hz line st).1 = Some (t, m) ->
        t = line.2
        /\ RangerCan.too_soon rate_hz t (RangerCan.last_sent_ns st) = false
        /\ RangerCan.last_sent_ns (RangerCan.bridge_line rate_hz line st).2
           = t).
Proof.
  split; [|split].
  - intros I passes st t0 outs st' np' HI Hlo Hhi Hrun.
    destruct (run_deadlines I passes HI st t0 outs st' np' Hlo Hhi Hrun)
      as (Hnp & _ & Hk).
    split; [exact Hnp|exact Hk].
  - intros rate_hz lines outs st' Hrl Hpos Hsorted Hrun.
    destruct (bridge_run_paced rate_hz lines Hrl RangerCan.bridge_init
                outs st') as [_ Hpairs]; [done| |done|done|exact Hpairs].
    simpl. eapply Forall_impl; [exact Hpos|]. simpl. lia.
  - intros rate_hz line st t m. apply bridge_line_sent.
Qed.

Lemma export_pacing_witness :
  (∀ t fr,
     run 100000000 [([], 0); ([], 350000000); ([], 360000000)]
         (loop_init 5, 0)
     ≫= (λ r, r.1 !! 2%nat) = Some (t, fr) ->
     0 + 2 * 100000000 <= t)
  /\ (∀ t1 m1 t2 m2,
        let z := replicate 5 0%float in
        let outs :=
          (RangerCan.bridge_run 20
             [(Some z, 1000); (Some z, 50000999); (Some z, 50001000)]
             RangerCan.bridge_init).1 in
        outs !! 0%nat = Some (t1, m1) -> outs !! 1%nat = Some (t2, m2) ->
        t1 = 1000 /\ t2 = 50001000 /\ not_closer 20 t1 t2).
Proof.
  destruct export_pacing as (HA & HB & _). split.
  - intros t fr Hrun.
    destruct (run _ _ _) as [[outs [st' np']]|] eqn:E; [|done].
    simpl in Hrun.
    destruct (HA 100000000 [([], 0); ([], 350000000); ([], 360000000)]
                (loop_init 5) 0 outs st' np') as [_ Hk];
      [lia|lia|simpl; lia|exact E|].
    apply (Hk 2%nat t fr Hrun).
  - intros t1 m1 t2 m2 z outs H0 H1.
    assert (Hnc : not_closer 20 t1 t2).
    { eapply (HB 20%float
                [(Some z, 1000); (Some z, 50000999); (Some z, 50001000)]
                outs); [reflexivity| | | |exact H0|exact H1].
      - simpl. repeat constructor; lia.
      - simpl. repeat constructor; lia.
      - subst outs. apply surjective_pairing. }
    split; [|split; [|exact Hnc]].
    + vm_compute in H0. by injection H0 as <- _.
    + vm_compute in H1. by injection H1 as <- _.
Defined.

(** ** Construction *)

Lemma rise_then_fall (c : float) (t_rise ts0 : Z) :
  is_timestamp t_rise -> is_timestamp ts0 ->
  on_edges [mkEdgeStamp Rising t_rise; mkEdgeStamp Falling ts0]
           (PulseTracker_new c)
  = ([None;
      Some (mkPulse (ts0 - t_rise)
              (c * (double_of_int (ts0 - t_rise) * 1e-9) / 2)%float)],
     mkPulseTracker None c).
Proof.
  intros Hr Ht. cbn [on_edges]. rewrite on_edge_rising.
  cbn [c_ PulseTracker_new].
  rewrite on_edge_falling_armed_raw, timestamp_diff_s64 by assumption.
  reflexivity.
Qed.

(** C8 as stated fails: a tracker constructed with a speed of sound of
    -343 m/s measures pulses (a distance of -0.343 m for 2 ms), a filter
    of window 0 is constructed, and with no channel at all the loop runs
    and prints the frame. *)
Lemma invalid_configuration_accepted :
  ((-343) <=? 0)%float = true
  /\ (on_edges [mkEdgeStamp Rising 0; mkEdgeStamp Falling 2000000]
               (PulseTracker_new (-343))).1
     = [None; Some (mkPulse 2000000 (-0.343))]
  /\ MedianFilter_new 0 = mkMedianFilter 0 []
  /\ run 100000000 [([], 0)] (loop_init 0, 0)
     = Some ([(0, TelemetryFrame_zero)], (loop_init 0, 100000000)).
Proof. repeat split; reflexivity. Qed.

(** C8 (amended): nothing is checked at construction.  The constructors
    store the speed of sound and the window size as given: a tracker of any
    speed of sound, zero and negative ones included, turns a rising and a
    falling edge into a pulse of distance [c * (width * 1e-9) / 2]; a filter
    of window 0 is constructed, and it is its first push that reads past
    the end of an empty vector; with no channel the loop prints the
    all-zero frame when due. *)
Theorem construction_is_unchecked :
  (∀ (c : float) (t_rise ts0 : Z),
     is_timestamp t_rise -> is_timestamp ts0 ->
     c_ (PulseTracker_new c) = c
     /\ (on_edges [mkEdgeStamp Rising t_rise; mkEdgeStamp Falling ts0]
                  (PulseTracker_new c)).1
        = [None;
           Some (mkPulse (ts0 - t_rise)
                   (c * (double_of_int (ts0 - t_rise) * 1e-9) / 2)%float)])
  /\ (∀ W : nat, MedianFilter_new W = mkMedianFilter W [])
  /\ (∀ v : float, push v (MedianFilter_new 0) = None)
  /\ (∀ I now t0 : Z,
        t0 <= now ->
        run I [([], now)] (loop_init 0, t0)
        = Some ([(now, TelemetryFrame_zero)],
                (loop_init 0, to_s64 (t0 + I)))).
Proof.
  split; [|split; [|split]].
  - intros c t_rise ts0 Hr Ht. split; [reflexivity|].
    by rewrite rise_then_fall.
  - reflexivity.
  - intros v. unfold MedianFilter_new. rewrite push_window_zero. done.
  - intros I now t0 Hdue. cbn [run]. unfold loop_pass. simpl.
    rewrite print_tick_due by exact Hdue. reflexivity.
Qed.

Lemma construction_is_unchecked_witness :
  is_timestamp 500 /\ is_timestamp 1000500
  /\ (on_edges [mkEdgeStamp Rising 500; mkEdgeStamp Falling 1000500]
               (PulseTracker_new 0)).1
     = [None; Some (mkPulse 1000000 0)].
Proof.
  assert (H1 : is_timestamp 500) by (unfold is_timestamp; lia).
  assert (H2 : is_timestamp 1000500) by (unfold is_timestamp; lia).
  split; [exact H1|]. split; [exact H2|].
  destruct construction_is_unchecked as [Ht _].
  destruct (Ht 0%float 500 1000500 H1 H2) as [_ E].
  rewrite E. reflexivity.
Defined.

(** ** Distances are never NaN

    Rounding a non-negative mantissa never gives a NaN, so neither do the
    conversion of an integer, a product with a finite factor, or a quotient
    by a finite divisor. *)

Lemma shr_1_nonneg (mrs : shr_record) :
  0 <= shr_m mrs -> 0 <= shr_m (shr_1 mrs).
Proof. destruct mrs as [m r s]. destruct m as [|[p|p|]|p]; simpl; lia. Qed.

Lemma iter_pos_shr_1_nonneg (p : positive) :
  ∀ mrs, 0 <= shr_m mrs -> 0 <= shr_m (SpecFloat.iter_pos shr_1 p mrs).
Proof.
  induction p as [p IH|p IH|]; intros mrs H; simpl.
  - apply IH, IH, shr_1_nonneg, H.
  - apply IH, IH, H.
  - apply shr_1_nonneg, H.
Qed.

Lemma shr_nonneg (mrs : shr_record) (e n : Z) :
  0 <= shr_m mrs -> 0 <= shr_m (shr mrs e n).1.
Proof.
  intros H. unfold shr. destruct n; simpl; try exact H.
  apply iter_pos_shr_1_nonneg, H.
Qed.

Lemma shr_record_of_loc_m (m : Z) (l : location) :
  shr_m (shr_record_of_loc m l) = m.
Proof. destruct l as [|[]]; reflexivity. Qed.

Lemma round_nearest_even_nonneg (m : Z) (l : location) :
  0 <= m -> 0 <= round_nearest_even m l.
Proof.
  intros H. unfold round_nearest_even. destruct l as [|[]]; try lia.
  destruct (IntDef.Z.even m); lia.
Qed.














Lemma on_edge_c (es : EdgeStamp) (pt : PulseTracker) :
  c_ (on_edge es pt).2 = c_ pt.
Proof.
  unfold on_edge. destruct (edge es); [done|]. by destruct (t_rise_ pt).
Qed.

Lemma on_edges_c (ess : list EdgeStamp) (pt : PulseTracker) :
  c_ (on_edges ess pt).2 = c_ pt.
Proof.
  revert pt. induction ess as [|es ess IH]; intros pt; [done|].
  simpl. pose proof (on_edge_c es pt) as Hc.
  destruct (on_edge es pt) as [r pt1]. specialize (IH pt1).
  destruct (on_edges ess pt1) as [rs pt2]. simpl in *. congruence.
Qed.


(** ** The frame of ranger-u *)

Lemma drain_app (evs1 evs2 : list (nat * EdgeStamp)) (st : loop_state) :
  drain (evs1 ++ evs2) st = drain evs1 st ≫= drain evs2.
Proof.
  revert st. induction evs1 as [|[idx es] evs1 IH]; intros st; [done|].
  simpl. destruct (handle_event idx es st) as [st1|]; simpl; [apply IH|done].
Qed.

Lemma on_edges_snoc (ess : list EdgeStamp) (es : EdgeStamp)
    (pt : PulseTracker) :
  on_edges (ess ++ [es]) pt
  = (let r := on_edge es (on_edges ess pt).2 in
     ((on_edges ess pt).1 ++ [r.1], r.2)).
Proof.
  revert pt. induction ess as [|e ess IH]; intros pt; simpl.
  - by destruct (on_edge es pt).
  - destruct (on_edge e pt) as [r pt1]. rewrite IH.
    by destruct (on_edges ess pt1).
Qed.

Lemma push_all_snoc (vs : list float) (v : float) (f0 : MedianFilter) :
  push_all (vs ++ [v]) f0
  = '(rs, f1) ← push_all vs f0; '(r, f2) ← push v f1; Some (rs ++ [r], f2).
Proof.
  revert f0. induction vs as [|x vs IH]; intros f0; simpl.
  - destruct (push v f0) as [[r f2]|]; done.
  - destruct (push x f0) as [[r f1]|]; simpl; [|done].
    rewrite IH. destruct (push_all vs f1) as [[rs f2]|]; simpl; [|done].
    destruct (push v f2) as [[r' f3]|]; done.
Qed.

Lemma channel_events_snoc (idx j : nat) (es : EdgeStamp)
    (evs : list (nat * EdgeStamp)) :
  channel_events idx (evs ++ [(j, es)])
  = channel_events idx evs ++ (if decide (j = idx) then [es] else []).
Proof.
  unfold channel_events. rewrite filter_app, fmap_app. f_equal.
  rewrite filter_cons, filter_nil. simpl.
  destruct (decide (j = idx)); done.
Qed.

Lemma pulse_distances_snoc (ess : list EdgeStamp) (es : EdgeStamp) :
  pulse_distances (ess ++ [es])
  = pulse_distances ess
    ++ from_option (λ p, [distance_m p]) []
         (on_edge es (on_edges ess (PulseTracker_new 343)).2).1.
Proof.
  unfold pulse_distances. rewrite on_edges_snoc. cbn zeta. simpl.
  rewrite omap_app, fmap_app. f_equal.
  by destruct (on_edge es _) as [[p|] pt].
Qed.

(** The filter of a channel after the distances [ds]: its window. *)
Lemma push_all_state (W : nat) (ds : list float) rs (f1 : MedianFilter) :
  (0 < W)%nat ->
  push_all ds (MedianFilter_new W) = Some (rs, f1) ->
  f1 = mkMedianFilter W (last_n W ds).
Proof.
  intros HW Hrun.
  destruct (push_all_from W ds [] HW) as (rs' & Hrun' & _).
  unfold MedianFilter_new in Hrun.
  change (@nil float) with (last_n W (@nil float)) in Hrun at 1.
  rewrite Hrun' in Hrun. by injection Hrun as _ <-.
Qed.

Lemma push_defined (W : nat) (ds : list float) (v : float) :
  (0 < W)%nat ->
  ∃ r, push v (mkMedianFilter W (last_n W ds))
       = Some (r, mkMedianFilter W (last_n W (ds ++ [v]))).
Proof.
  intros HW. destruct (Nat.lt_ge_cases (S (length ds)) W) as [Hc|Hw].
  - exists None. by apply push_cold.
  - destruct (push_warm W ds v) as (m & _ & Hp); [lia|].
    by exists (Some m).
Qed.




Lemma channel_ok_other (evs : list (nat * EdgeStamp)) (st st' : loop_state)
    (idx j : nat) (es : EdgeStamp) :
  idx ≠ j ->
  sensors st' !! idx = sensors st !! idx ->
  tf st' !! idx = tf st !! idx ->
  channel_ok evs st idx -> channel_ok (evs ++ [(j, es)]) st' idx.
Proof.
  intros Hne Hs Ht (rs & Hsen & Hrun & Htf).
  unfold channel_ok. rewrite channel_events_snoc.
  rewrite decide_False by done. rewrite app_nil_r.
  exists rs. by rewrite Hs, Ht.
Qed.

(** One event keeps every channel in step with its own events. *)
Lemma handle_event_channels (n : nat) (evs : list (nat * EdgeStamp))
    (st : loop_state) (j : nat) (es : EdgeStamp) :
  (n <= FRAME_SLOTS)%nat -> (j < n)%nat ->
  length (sensors st) = n -> length (tf st) = FRAME_SLOTS ->
  (∀ idx, (idx < n)%nat -> channel_ok evs st idx) ->
  ∃ st', handle_event j es st = Some st'
         /\ length (sensors st') = n /\ length (tf st') = FRAME_SLOTS
         /\ ∀ idx, (idx < n)%nat -> channel_ok (evs ++ [(j, es)]) st' idx.
Proof.
  intros Hn Hj Hls Hlt Hall.
  destruct (Hall j Hj) as (rs & Hsen & Hrun & Htf).
  set (ess := channel_events j evs) in *.
  set (ds := pulse_distances ess) in *.
  unfold handle_event. rewrite Hsen. cbn [mbind option_bind tracker mf].
  destruct (on_edge es (on_edges ess (PulseTracker_new 343)).2)
    as [[pl|] tr'] eqn:Eon.
  - destruct (push_defined 5 ds (distance_m pl) ltac:(lia)) as [r Hpush].
    rewrite Hpush. cbn [mbind option_bind].
    assert (Hown : ∀ st' : loop_state,
      sensors st' !! j
      = Some (mkSensorCtx tr'
                (mkMedianFilter 5 (last_n 5 (ds ++ [distance_m pl])))) ->
      tf st' !! j
      = Some (from_option to_float 0%float (last (omap id (rs ++ [r])))) ->
      channel_ok (evs ++ [(j, es)]) st' j).
    { intros st' Hs' Ht'. unfold channel_ok.
      rewrite channel_events_snoc, decide_True by done.
      fold ess. rewrite pulse_distances_snoc, on_edges_snoc.
      cbn zeta. rewrite Eon. cbn [fst snd from_option]. fold ds.
      exists (rs ++ [r]). split; [exact Hs'|]. split; [|exact Ht'].
      rewrite push_all_snoc, Hrun. cbn [mbind option_bind].
      by rewrite Hpush. }
    destruct r as [mv|].
    + destruct (Nat.ltb_spec j FRAME_SLOTS) as [_|]; [|lia].
      eexists. split; [reflexivity|]. cbn [sensors tf].
      split; [by rewrite length_insert|]. split; [by rewrite ?length_insert|].
      intros idx Hidx. destruct (decide (idx = j)) as [->|Hne].
      * apply Hown; cbn [sensors tf].
        -- apply list_lookup_insert_eq. lia.
        -- rewrite list_lookup_insert_eq by lia.
           rewrite omap_app. simpl. by rewrite last_snoc.
      * apply (channel_ok_other evs st); [done| | |by apply Hall];
          cbn [sensors tf]; by apply list_lookup_insert_ne.
    + eexists. split; [reflexivity|]. cbn [sensors tf].
      split; [by rewrite length_insert|]. split; [by rewrite ?length_insert|].
      intros idx Hidx. destruct (decide (idx = j)) as [->|Hne].
      * apply Hown; cbn [sensors tf].
        -- apply list_lookup_insert_eq. lia.
        -- rewrite omap_app. simpl. by rewrite app_nil_r.
      * apply (channel_ok_other evs st); [done| |done|by apply Hall];
          cbn [sensors tf]; by apply list_lookup_insert_ne.
  - eexists. split; [reflexivity|]. cbn [sensors tf].
    split; [by rewrite length_insert|]. split; [by rewrite ?length_insert|].
    intros idx Hidx. destruct (decide (idx = j)) as [->|Hne].
    + unfold channel_ok.
      rewrite channel_events_snoc, decide_True by done.
      fold ess. rewrite pulse_distances_snoc, on_edges_snoc.
      cbn zeta. rewrite Eon. cbn [fst snd from_option]. fold ds.
      rewrite app_nil_r. exists rs. cbn [sensors tf].
      split; [|done]. apply list_lookup_insert_eq. lia.
    + apply (channel_ok_other evs st); [done| |done|by apply Hall];
        cbn [sensors tf]; by apply list_lookup_insert_ne.
Qed.

Lemma channel_ok_init (n idx : nat) :
  (n <= FRAME_SLOTS)%nat -> (idx < n)%nat -> channel_ok [] (loop_init n) idx.
Proof.
  intros Hn Hidx. exists []. cbn [channel_events filter list_filter fmap
    list_fmap loop_init sensors tf].
  split; [|split].
  - by rewrite lookup_replicate_2.
  - reflexivity.
  - unfold TelemetryFrame_zero. rewrite lookup_replicate_2 by lia. done.
Qed.

(** All events of a run, on [n] channels (at most 5): the loop does not
    leave its arrays and every channel is in step with its own events. *)
Lemma drain_channels (n : nat) (evs : list (nat * EdgeStamp)) :
  (n <= FRAME_SLOTS)%nat -> Forall (λ p, (p.1 < n)%nat) evs ->
  ∃ st, drain evs (loop_init n) = Some st
        /\ length (sensors st) = n /\ length (tf st) = FRAME_SLOTS
        /\ ∀ idx, (idx < n)%nat -> channel_ok evs st idx.
Proof.
  intros Hn. induction evs as [|[j es] evs IH] using rev_ind; intros Hidx.
  - exists (loop_init n). split; [done|].
    split; [apply length_replicate|]. split; [apply length_replicate|].
    intros idx Hi. by apply channel_ok_init.
  - rewrite Forall_app, Forall_singleton in Hidx.
    destruct Hidx as [Hevs Hj]. simpl in Hj.
    destruct (IH Hevs) as (st & Hdrain & Hls & Hlt & Hall).
    destruct (handle_event_channels n evs st j es Hn Hj Hls Hlt Hall)
      as (st' & Hstep & Hls' & Hlt' & Hall').
    exists st'. rewrite drain_app, Hdrain. simpl. rewrite Hstep. done.
Qed.









(** ** The spinlock of the kernel module *)

Import RangerKConc.

Lemma chain_snoc (R : relation RangerK.module_state)
    (h : list RangerK.module_state) (g g' : RangerK.module_state) :
  chain R h -> last h = Some g -> R g g' -> chain R (h ++ [g']).
Proof.
  induction h as [|a h IH]; intros Hc Hl HR; [done|].
  destruct h as [|b h].
  - simpl in Hl. injection Hl as ->. simpl. done.
  - destruct Hc as [Hab Hc]. split; [exact Hab|].
    apply IH; [exact Hc|exact Hl|exact HR].
Qed.

Lemma chain_impl (R R' : relation RangerK.module_state)
    (P : RangerK.module_state -> Prop) (h : list RangerK.module_state) :
  (∀ g g', P g -> R g g' -> R' g g' /\ P g') ->
  (∀ g, head h = Some g -> P g) ->
  chain R h -> chain R' h /\ Forall P h.
Proof.
  intros HR. induction h as [|a h IH]; intros Hhd Hc; [done|].
  assert (Pa : P a) by (by apply Hhd).
  destruct h as [|b h].
  - split; [done|]. by repeat constructor.
  - destruct Hc as [Hab Hc]. destruct (HR a b Pa Hab) as [Hab' Pb].
    destruct IH as [Hc' HP]; [|exact Hc|].
    { intros g Hg. simpl in Hg. by injection Hg as <-. }
    split; [by split|]. by constructor.
Qed.

Lemma settled_mono (pool0 : list prog) (h : list RangerK.module_state)
    (g : RangerK.module_state) (i : nat) (p : prog) :
  settled pool0 h i p -> settled pool0 (h ++ [g]) i p.
Proof.
  intros [H|(p0 & g1 & Hp0 & Hin & ->)]; [by left|].
  right. exists p0, g1. split; [done|]. split; [|done].
  apply elem_of_app. by left.
Qed.

(** A step of any context keeps the invariant of the lock. *)
Lemma step_context_inv (pool0 : list prog) (i : nat) (c c' : config) :
  Forall atomic_block pool0 ->
  lock_inv pool0 c -> step_context i c = Some c' -> lock_inv pool0 c'.
Proof.
  intros Hblocks (Hchain & g_last & Hlast & Hown) Hstep.
  unfold step_context in Hstep.
  destruct (pool c !! i) as [p|] eqn:Hp; simpl in Hstep; [|done].
  assert (Hlt : (i < length (pool c))%nat) by (by eapply lookup_lt_Some).
  destruct (owner c) as [o|] eqn:Ho.
  - (* the lock is held by [o] *)
    destruct Hown as [(p_o & p0 & Hpo & Hp0 & Hcrit & Hrun) Hothers].
    destruct (decide (i = o)) as [->|Hne].
    + rewrite Hpo in Hp. injection Hp as <-.
      inversion Hcrit as [r E|k Hk E|f k Hk E]; subst p_o;
        injection Hstep as <-; unfold lock_inv; cbn [owner shared pool history].
      * (* unlock *)
        simpl in Hrun.
        split.
        { eapply chain_snoc; [exact Hchain|exact Hlast|].
          exists o, p0. split; [exact Hp0|]. by rewrite <- Hrun. }
        exists (shared c). split; [apply last_snoc|]. split; [done|].
        intros j q Hq. destruct (decide (j = o)) as [->|Hjo].
        -- rewrite list_lookup_insert_eq in Hq by done.
           injection Hq as <-. right. exists p0, g_last.
           split; [exact Hp0|]. split.
           ++ apply elem_of_app. left. by apply last_Some_elem_of.
           ++ by rewrite <- Hrun.
        -- rewrite list_lookup_insert_ne in Hq by done.
           apply settled_mono. by apply Hothers.
      * (* read *)
        split; [exact Hchain|]. exists g_last. split; [exact Hlast|]. split.
        -- exists (k (shared c)), p0.
           rewrite list_lookup_insert_eq by done. done.
        -- intros j q Hjo Hq. rewrite list_lookup_insert_ne in Hq by done.
           by apply Hothers.
      * (* write *)
        split; [exact Hchain|]. exists g_last. split; [exact Hlast|]. split.
        -- exists k, p0. rewrite list_lookup_insert_eq by done. done.
        -- intros j q Hjo Hq. rewrite list_lookup_insert_ne in Hq by done.
           by apply Hothers.
    + (* another context: it is not running *)
      destruct (Hothers i p Hne Hp) as [Hinit|(p0' & g1 & _ & _ & ->)];
        [|done].
      rewrite Forall_forall in Hblocks.
      destruct (Hblocks p) as (body & -> & _);
        [by eapply list_elem_of_lookup_2|].
      done.
  - (* the lock is free *)
    destruct Hown as [Hshared Hall].
    destruct (Hall i p Hp) as [Hinit|(p0' & g1 & _ & _ & ->)]; [|done].
    rewrite Forall_forall in Hblocks.
    destruct (Hblocks p) as (body & -> & Hcrit);
      [by eapply list_elem_of_lookup_2|].
    injection Hstep as <-. unfold lock_inv. cbn [owner shared pool history].
    split; [exact Hchain|]. exists g_last. split; [exact Hlast|]. split.
    + exists body, (SpinLock body).
      rewrite list_lookup_insert_eq by done.
      split; [done|]. split; [done|]. split; [done|].
      by rewrite Hshared.
    + intros j q Hji Hq. rewrite list_lookup_insert_ne in Hq by done.
      by apply Hall.
Qed.

Lemma exec_inv (pool0 : list prog) (sched : list nat) (c : config) :
  Forall atomic_block pool0 ->
  lock_inv pool0 c -> lock_inv pool0 (exec sched c).
Proof.
  intros Hblocks. revert c.
  induction sched as [|i sched IH]; intros c Hinv; [done|].
  simpl. apply IH.
  destruct (step_context i c) as [c'|] eqn:E; simpl; [|done].
  by eapply step_context_inv.
Qed.

Lemma config_init_inv (g0 : RangerK.module_state) (pool0 : list prog) :
  lock_inv pool0 (config_init g0 pool0).
Proof.
  split; [done|]. exists g0. split; [done|]. split; [done|].
  intros i p Hp. by left.
Qed.

Lemma list_alter_none {A} (f : A -> A) (l : list A) (i : nat) :
  l !! i = None -> alter f i l = l.
Proof.
  intros Hn. rewrite (list_alter_ext f id l l i); [|congruence|done].
  by apply list_alter_id.
Qed.

(** The handler run alone is the function [echo_irq_thread]. *)
Lemma run_alone_echo_irq (idx : nat) (level now : Z)
    (g : RangerK.module_state) :
  run_alone (echo_irq_prog idx level now) g
  = (RangerK.echo_irq_thread idx level now g, RDone).
Proof.
  unfold echo_irq_prog, RangerK.echo_irq_thread, RangerK.echo_irq_sensor,
    seq_incr_unlock, sensor_at, set_seq, set_dist_um, set_pulses,
    set_have_rise, set_rise_ts, set_overruns, default.
  destruct g as [l sq]. cbn [run_alone].
  destruct (negb (level =? 0)); cbn [run_alone RangerK.s RangerK.seq].
  - f_equal. f_equal. rewrite list_alter_alter_eq.
    apply list_alter_ext; [|done]. by intros [].
  - destruct (l !! idx) as [st|] eqn:El; cbn [from_option id].
    + destruct (RangerK.have_rise st) eqn:Er;
        cbn [run_alone RangerK.s RangerK.seq].
      * rewrite El. cbn [from_option id].
        rewrite list_lookup_alter_eq, El.
        cbn [fmap option_fmap option_map from_option id RangerK.pulses].
        f_equal. f_equal. rewrite !list_alter_alter_eq.
        apply list_alter_ext; [|done].
        intros st' Hst'. rewrite El in Hst'. injection Hst' as <-.
        by rewrite Er.
      * rewrite El. cbn [from_option id].
        f_equal. f_equal. apply list_alter_ext; [|done].
        intros st' Hst'. rewrite El in Hst'. injection Hst' as <-.
        by rewrite Er.
    + cbn [RangerK.have_rise RangerK.sensor_init run_alone
           RangerK.s RangerK.seq].
      f_equal. f_equal. by rewrite !list_alter_none.
Qed.

Lemma run_alone_copy_distances (n i : nat) (um : list Z)
    (g : RangerK.module_state) :
  run_alone (copy_distances i n um) g
  = (g, RDist (um ++ ((λ j, RangerK.dist_um (sensor_at j g)) <$> seq i n))).
Proof.
  revert i um. induction n as [|n IH]; intros i um; simpl.
  - by rewrite app_nil_r.
  - rewrite IH, <- app_assoc. done.
Qed.

Lemma run_alone_copy_stats (n i : nat) (sq : Z) (ps os : list Z)
    (g : RangerK.module_state) :
  run_alone (copy_stats i n sq ps os) g
  = (g, RStats (sq,
                ps ++ ((λ j, RangerK.pulses (sensor_at j g)) <$> seq i n),
                os ++ ((λ j, RangerK.overruns (sensor_at j g)) <$> seq i n))).
Proof.
  revert i ps os. induction n as [|n IH]; intros i ps os; simpl.
  - by rewrite !app_nil_r.
  - rewrite IH, <- !app_assoc. done.
Qed.

(** The readers run alone return the copies of the whole state. *)
Lemma run_alone_distances_read (g : RangerK.module_state) :
  length (RangerK.s g) = RangerK.MAX_SENSORS ->
  run_alone distances_read_prog g = (g, RDist (RangerK.distances_read g)).
Proof.
  intros Hlen. unfold distances_read_prog. cbn [run_alone].
  rewrite run_alone_copy_distances. unfold RangerK.distances_read, sensor_at.
  destruct g as [l sq]. simpl in *.
  destruct l as [|a [|b [|c [|d [|e [|]]]]]]; try discriminate. done.
Qed.

Lemma run_alone_stats_read (g : RangerK.module_state) :
  length (RangerK.s g) = RangerK.MAX_SENSORS ->
  run_alone stats_read_prog g = (g, RStats (RangerK.stats_read g)).
Proof.
  intros Hlen. unfold stats_read_prog. cbn [run_alone].
  rewrite run_alone_copy_stats. unfold RangerK.stats_read, sensor_at.
  destruct g as [l sq]. simpl in *.
  destruct l as [|a [|b [|c [|d [|e [|]]]]]]; try discriminate. done.
Qed.

Lemma critical_seq_incr_unlock : critical seq_incr_unlock.
Proof. repeat constructor. Qed.

Lemma critical_copy_distances (n i : nat) (um : list Z) :
  critical (copy_distances i n um).
Proof.
  revert i um. induction n as [|n IH]; intros i um; simpl.
  - constructor.
  - constructor. intros g. apply IH.
Qed.

Lemma critical_copy_stats (n i : nat) (sq : Z) (ps os : list Z) :
  critical (copy_stats i n sq ps os).
Proof.
  revert i ps os. induction n as [|n IH]; intros i ps os; simpl.
  - constructor.
  - constructor. intros g. constructor. intros g'. apply IH.
Qed.

(** Every context of the module is one critical section. *)
Lemma context_atomic_block (p : prog) : context p -> atomic_block p.
Proof.
  pose proof critical_seq_incr_unlock as Hs.
  intros [idx level now| |]; eexists; (split; [reflexivity|]).
  - destruct (negb (level =? 0)).
    + by repeat constructor.
    + constructor. intros g. destruct (RangerK.have_rise _).
      * constructor. intros g1. constructor. constructor. intros g2.
        by repeat constructor.
      * constructor. intros g1. by constructor.
  - apply critical_copy_distances.
  - constructor. intros g. apply critical_copy_stats.
Qed.

Lemma echo_irq_thread_length (idx : nat) (level now : Z)
    (g : RangerK.module_state) :
  length (RangerK.s (RangerK.echo_irq_thread idx level now g))
  = length (RangerK.s g).
Proof. unfold RangerK.echo_irq_thread. simpl. apply length_alter. Qed.

(** What a context does to the shared state when run alone: a reader
    nothing, the handler one call of [echo_irq_thread]. *)
Lemma context_effect (pool0 : list prog) (g g' : RangerK.module_state) :
  Forall context pool0 ->
  length (RangerK.s g) = RangerK.MAX_SENSORS ->
  effect_of pool0 g g' ->
  history_step g g' /\ length (RangerK.s g') = RangerK.MAX_SENSORS.
Proof.
  intros Hctx Hlen (i & p0 & Hp0 & ->).
  rewrite Forall_forall in Hctx.
  destruct (Hctx p0) as [idx level now| |];
    [by eapply list_elem_of_lookup_2| | |].
  - rewrite run_alone_echo_irq. cbn [fst]. split.
    + right. by exists idx, level, now.
    + by rewrite echo_irq_thread_length.
  - rewrite run_alone_distances_read by done. split; [by left|done].
  - rewrite run_alone_stats_read by done. split; [by left|done].
Qed.

Lemma step_context_history_head (i : nat) (c c' : config) :
  step_context i c = Some c' ->
  head (history c') = head (history c) \/ history c = [].
Proof.
  unfold step_context. destruct (pool c !! i) as [p|]; simpl; [|done].
  destruct p as [r|k|k|k|f k]; [done| | | |].
  - destruct (owner c); [done|]. intros H. injection H as <-. by left.
  - intros H. injection H as <-. simpl.
    destruct (history c); [by right|by left].
  - intros H. injection H as <-. by left.
  - intros H. injection H as <-. by left.
Qed.

Lemma exec_history_head (sched : list nat) (c : config)
    (g0 : RangerK.module_state) :
  head (history c) = Some g0 -> head (history (exec sched c)) = Some g0.
Proof.
  revert c. induction sched as [|i sched IH]; intros c Hh; [done|].
  simpl. apply IH.
  destruct (step_context i c) as [c'|] eqn:E; simpl; [|done].
  destruct (step_context_history_head i c c' E) as [->|Hnil]; [done|].
  by rewrite Hnil in Hh.
Qed.

(** C6 as stated fails: the distance and the counters of a channel are
    copied by two reads.  With a rising edge, a read of the distances, the
    falling edge 2 ms later and a read of the counters, taking turns, the
    reads give distance 0 and pulse count 1 for channel 0: the pulse is
    counted and its distance is not there, and the channel never was in
    that state. *)
Lemma distance_and_counters_torn :
  let pool0 := [echo_irq_prog 0 1 1000; distances_read_prog;
                echo_irq_prog 0 0 2001000; stats_read_prog] in
  let sched := concat (replicate 40 [0; 1; 2; 3]%nat) in
  let c := exec sched (config_init RangerK.module_init pool0) in
  pool c !! 1%nat = Some (Ret (RDist [0; 0; 0; 0; 0]))
  /\ pool c !! 3%nat
     = Some (Ret (RStats (2, [1; 0; 0; 0; 0], [0; 0; 0; 0; 0])))
  /\ Forall (λ g, ~ (RangerK.dist_um (sensor_at 0 g) = 0
                     /\ RangerK.pulses (sensor_at 0 g) = 1)) (history c).
Proof.
  cbv zeta. split; [reflexivity|]. split; [reflexivity|].
  vm_compute history.
  repeat constructor; intros [H1 H2]; vm_compute in H1, H2; discriminate.
Qed.

(** C6 (amended): in every interleaving of IRQ handlers and debugfs reads,
    the shared state passes from one value to the next by whole calls of
    the handler only (the pulse count and the distance of a pulse change
    together), and each read returns the copy of one of these values:
    [distances_read] the five distances of one point of the history,
    [stats_read] the sequence number and the five pulse and overrun
    counters of one point.  There is no copy that holds the distance and
    the counters of a channel together. *)
Theorem debugfs_reads_atomic (g0 : RangerK.module_state)
    (pool0 : list prog) (sched : list nat) :
  Forall context pool0 ->
  length (RangerK.s g0) = RangerK.MAX_SENSORS ->
  let c := exec sched (config_init g0 pool0) in
  head (history c) = Some g0
  /\ history_chain (history c)
  /\ ∀ i p0 r,
       pool0 !! i = Some p0 -> pool c !! i = Some (Ret r) ->
       ∃ g, g ∈ history c /\ returned_from p0 g r.
Proof.
  intros Hctx Hlen c.
  assert (Hblocks : Forall atomic_block pool0).
  { eapply Forall_impl; [exact Hctx|]. apply context_atomic_block. }
  pose proof (exec_inv pool0 sched _ Hblocks (config_init_inv g0 pool0))
    as (Hchain & g_last & Hlast & Hown).
  fold c in Hchain, Hlast, Hown.
  assert (Hhead : head (history c) = Some g0)
    by (by apply exec_history_head).
  destruct (chain_impl (effect_of pool0) history_step
              (λ g, length (RangerK.s g) = RangerK.MAX_SENSORS)
              (history c)) as [Hhist Hlens]; [| |exact Hchain|].
  { intros g g' Hg Heff. by apply (context_effect pool0). }
  { intros g Hg. rewrite Hhead in Hg. by injection Hg as <-. }
  split; [exact Hhead|]. split; [exact Hhist|].
  intros i p0 r Hp0 Hr.
  assert (Hset : settled pool0 (history c) i (Ret r)).
  { destruct (owner c) as [o|].
    - destruct Hown as [(p_o & p0' & Hpo & _ & Hcrit & _) Hothers].
      destruct (decide (i = o)) as [->|Hne]; [|by apply Hothers].
      rewrite Hpo in Hr. injection Hr as ->. inversion Hcrit.
    - destruct Hown as [_ Hall]. by apply Hall. }
  rewrite Forall_forall in Hctx. rewrite Forall_forall in Hlens.
  assert (Hc0 : context p0) by (by eapply Hctx, list_elem_of_lookup_2).
  destruct Hset as [Hinit|(p0' & g & Hp0' & Hin & Hret)].
  { rewrite Hp0 in Hinit. injection Hinit as ->. inversion Hc0. }
  rewrite Hp0 in Hp0'. injection Hp0' as <-.
  exists g. split; [exact Hin|].
  injection Hret as ->. specialize (Hlens g Hin).
  destruct Hc0 as [idx level now| |].
  - rewrite run_alone_echo_irq. simpl. by exists idx, level, now.
  - by rewrite run_alone_distances_read.
  - by rewrite run_alone_stats_read.
Qed.

Lemma debugfs_reads_atomic_witness :
  let pool0 := [echo_irq_prog 0 1 1000; distances_read_prog;
                echo_irq_prog 0 0 2001000; stats_read_prog] in
  let sched := concat (replicate 40 [0; 1; 2; 3]%nat) in
  let c := exec sched (config_init RangerK.module_init pool0) in
  ∃ g, g ∈ history c
       /\ RangerK.stats_read g = (2, [1; 0; 0; 0; 0], [0; 0; 0; 0; 0])
       /\ RangerK.distances_read g = [343000; 0; 0; 0; 0].
Proof.
  intros pool0 sched c.
  destruct (debugfs_reads_atomic RangerK.module_init pool0 sched)
    as (_ & _ & Hret).
  - subst pool0. repeat constructor.
  - reflexivity.
  - destruct (Hret 3%nat stats_read_prog
                (RStats (2, [1; 0; 0; 0; 0], [0; 0; 0; 0; 0])))
      as (g & Hin & _ & Hcopy); [reflexivity|reflexivity|].
    exists g. split; [exact Hin|]. split; [done|].
    clear Hret. vm_compute history in Hin.
    repeat (apply elem_of_cons in Hin as [->|Hin]);
      try (vm_compute in Hcopy; discriminate); try reflexivity.
    by apply elem_of_nil in Hin.
Defined.

(** * Further properties *)

Import RangerKRuns RangerUEvents Props2.

(** ** What [distances_read] prints *)

Lemma shown_mm_in_range (u : Z) :
  in_u32 u ->
  shown_mm u = u / 1000
  /\ 0 <= M_FRAC3 u <= 999 /\ 0 <= M_INT u <= 4294.
Proof.
  unfold in_u32, shown_mm, M_INT, M_FRAC3. intros Hu.
  assert (H1 : 0 <= u / 1000000 <= 4294).
  { split; [apply Z.div_pos; lia|].
    enough (u / 1000000 < 4295) by lia.
    apply Z.div_lt_upper_bound; lia. }
  assert (H2 : 0 <= u / 1000 < 2 ^ 32).
  { split; [apply Z.div_pos; lia|]. apply Z.div_lt_upper_bound; lia. }
  pose proof (Z.mod_pos_bound (u / 1000) 1000 ltac:(lia)) as H3.
  rewrite (to_u32_small (u / 1000000)) by (unfold in_u32; lia).
  rewrite (to_u32_small (u / 1000)) by (unfold in_u32; lia).
  rewrite (to_u32_small (_ mod _)) by (unfold in_u32; lia).
  split; [|lia].
  replace (u / 1000000) with (u / 1000 / 1000)
    by (rewrite Z.div_div by lia; reflexivity).
  pose proof (Z.div_mod (u / 1000) 1000 ltac:(lia)). lia.
Qed.

(** X1: the field ["%u.%03u"] that [distances_read] prints for a pulse is
    its distance cut off (not rounded) to whole millimetres: for a width
    whose distance fits 32 bits it stands for [width_ns * 1715 / 10^7] mm,
    less than 1 mm below and never above the exact distance; the decimals
    are below 1000 and the metres at most 4294. *)
Theorem distances_shown_truncated (w : Z) :
  0 <= w <= WIDTH_NS_MAX_U32 ->
  let u := RangerK.width_ns_to_um w in
  shown_mm u = w * 1715 / 10000000
  /\ (0 <= exact_distance_m w * 1000 - inject_Z (shown_mm u) < 1)%Q
  /\ 0 <= M_FRAC3 u <= 999 /\ 0 <= M_INT u <= 4294.
Proof.
  intros Hw u.
  assert (Hu : in_u32 u) by apply to_u32_range.
  destruct (shown_mm_in_range u Hu) as (Hs & Hf & Hm).
  assert (Hmm : shown_mm u = w * 1715 / 10000000).
  { rewrite Hs. subst u. rewrite width_ns_to_um_in_range by exact Hw.
    rewrite Z.div_div by lia.
    replace (w * 171500) with (w * 1715 * 100) by lia.
    replace (1000000 * 1000) with (10000000 * 100) by lia.
    apply Z.div_mul_cancel_r; lia. }
  split; [exact Hmm|]. split; [|done].
  rewrite Hmm.
  pose proof (Z.div_mod (w * 1715) 10000000 ltac:(lia)) as Hdm.
  pose proof (Z.mod_pos_bound (w * 1715) 10000000 ltac:(lia)) as Hmod.
  set (q := w * 1715 / 10000000) in *.
  set (r := (w * 1715) mod 10000000) in *.
  assert (E : (exact_distance_m w * 1000 - inject_Z q == r # 10000000)%Q).
  { unfold exact_distance_m, Qeq, Qminus, Qplus, Qmult, Qdiv, Qinv, Qopp,
      inject_Z. simpl. lia. }
  rewrite E. unfold Qle, Qlt. simpl. lia.
Qed.

Lemma distances_shown_truncated_witness :
  0 <= 5830000 <= WIDTH_NS_MAX_U32
  /\ shown_mm (RangerK.width_ns_to_um 5830000) = 999.
Proof.
  assert (H : 0 <= 5830000 <= WIDTH_NS_MAX_U32)
    by (unfold WIDTH_NS_MAX_U32; lia).
  split; [exact H|].
  destruct (distances_shown_truncated 5830000 H) as (Hmm & _).
  rewrite Hmm. reflexivity.
Defined.

(** X21: within the widths whose distance fits 32 bits the conversion is
    monotone, and so is what [distances_read] shows: a longer echo never
    reads as a shorter distance; and two widths [d] ns apart read at most
    [d * 171500 / 10^6 + 1] um apart. *)
Theorem width_ns_to_um_monotone (w1 w2 : Z) :
  0 <= w1 <= w2 -> w2 <= WIDTH_NS_MAX_U32 ->
  RangerK.width_ns_to_um w1 <= RangerK.width_ns_to_um w2
  /\ shown_mm (RangerK.width_ns_to_um w1)
     <= shown_mm (RangerK.width_ns_to_um w2)
  /\ RangerK.width_ns_to_um w2 - RangerK.width_ns_to_um w1
     <= (w2 - w1) * 171500 / 1000000 + 1.
Proof.
  intros H1 H2.
  destruct (shown_mm_in_range (RangerK.width_ns_to_um w1)) as [-> _];
    [apply to_u32_range|].
  destruct (shown_mm_in_range (RangerK.width_ns_to_um w2)) as [-> _];
    [apply to_u32_range|].
  rewrite !width_ns_to_um_in_range by lia.
  assert (Hm : w1 * 171500 / 1000000 <= w2 * 171500 / 1000000)
    by (apply Z.div_le_mono; lia).
  split; [exact Hm|]. split; [apply Z.div_le_mono; lia|].
  pose proof (Z.div_mod (w1 * 171500) 1000000 ltac:(lia)).
  pose proof (Z.div_mod (w2 * 171500) 1000000 ltac:(lia)).
  pose proof (Z.div_mod ((w2 - w1) * 171500) 1000000 ltac:(lia)).
  pose proof (Z.mod_pos_bound (w1 * 171500) 1000000 ltac:(lia)).
  pose proof (Z.mod_pos_bound (w2 * 171500) 1000000 ltac:(lia)).
  pose proof (Z.mod_pos_bound ((w2 - w1) * 171500) 1000000 ltac:(lia)).
  lia.
Qed.

Lemma width_ns_to_um_monotone_witness :
  RangerK.width_ns_to_um 2000000 <= RangerK.width_ns_to_um 2000005
  /\ RangerK.width_ns_to_um 2000005 - RangerK.width_ns_to_um 2000000 <= 1.
Proof.
  destruct (width_ns_to_um_monotone 2000000 2000005) as (Hm & _ & Hd).
  - lia.
  - unfold WIDTH_NS_MAX_U32. lia.
  - split; [exact Hm|]. etransitivity; [exact Hd|]. by vm_compute.
Defined.

(** ** Runs of the IRQ handler *)

Lemma to_u32_add_l (x y : Z) : to_u32 (to_u32 x + y) = to_u32 (x + y).
Proof. unfold to_u32. apply Z.add_mod_idemp_l. lia. Qed.

Lemma irq_channel_cons (idx : nat) (e : nat * (Z * Z))
    (evs : list (nat * (Z * Z))) :
  irq_channel idx (e :: evs)
  = (if decide (e.1 = idx) then [e.2] else []) ++ irq_channel idx evs.
Proof.
  unfold irq_channel. rewrite filter_cons.
  destruct (decide (e.1 = idx)); done.
Qed.

Lemma irq_channel_app (idx : nat) (evs1 evs2 : list (nat * (Z * Z))) :
  irq_channel idx (evs1 ++ evs2)
  = irq_channel idx evs1 ++ irq_channel idx evs2.
Proof. unfold irq_channel. by rewrite filter_app, fmap_app. Qed.

Lemma irq_run_cons (e : nat * (Z * Z)) (evs : list (nat * (Z * Z)))
    (g : RangerK.module_state) :
  irq_run (e :: evs) g
  = irq_run evs (RangerK.echo_irq_thread e.1 e.2.1 e.2.2 g).
Proof. reflexivity. Qed.

Lemma irq_run_sensor (evs : list (nat * (Z * Z)))
    (g : RangerK.module_state) (idx : nat) :
  RangerK.s (irq_run evs g) !! idx
  = sensor_run (irq_channel idx evs) <$> RangerK.s g !! idx.
Proof.
  revert g. induction evs as [|[j [level now]] evs IH]; intros g.
  - simpl. by destruct (RangerK.s g !! idx).
  - rewrite irq_run_cons, IH, irq_channel_cons. cbn [fst snd].
    destruct (decide (j = idx)) as [->|Hne].
    + rewrite echo_irq_thread_lookup.
      by destruct (RangerK.s g !! idx).
    + by rewrite echo_irq_thread_lookup_ne.
Qed.

Lemma irq_run_seq (evs : list (nat * (Z * Z))) (g : RangerK.module_state) :
  in_u32 (RangerK.seq g) ->
  RangerK.seq (irq_run evs g)
  = to_u32 (RangerK.seq g + Z.of_nat (length evs)).
Proof.
  revert g. induction evs as [|[j [level now]] evs IH]; intros g Hseq.
  - simpl. rewrite Z.add_0_r. symmetry. by apply to_u32_small.
  - rewrite irq_run_cons, IH by apply to_u32_range.
    cbn [fst snd RangerK.echo_irq_thread RangerK.seq length].
    rewrite to_u32_add_l. f_equal. lia.
Qed.

Lemma irq_run_length (evs : list (nat * (Z * Z)))
    (g : RangerK.module_state) :
  length (RangerK.s (irq_run evs g)) = length (RangerK.s g).
Proof.
  revert g. induction evs as [|[j [level now]] evs IH]; intros g; [done|].
  rewrite irq_run_cons, IH. apply echo_irq_thread_length.
Qed.

(** X2: the lines do not interfere.  After any run of the handler the
    state of a line is what the edges of that line alone lead to, whatever
    came in on the other lines in between; the sequence number has
    advanced by the number of edges, modulo 2^32, and the array keeps its
    size. *)
Theorem irq_run_channels (evs : list (nat * (Z * Z)))
    (g : RangerK.module_state) (idx : nat) :
  in_u32 (RangerK.seq g) ->
  RangerK.s (irq_run evs g) !! idx
  = sensor_run (irq_channel idx evs) <$> RangerK.s g !! idx
  /\ RangerK.seq (irq_run evs g)
     = to_u32 (RangerK.seq g + Z.of_nat (length evs))
  /\ length (RangerK.s (irq_run evs g)) = length (RangerK.s g).
Proof.
  intros Hseq. split; [apply irq_run_sensor|].
  split; [by apply irq_run_seq|apply irq_run_length].
Qed.

Lemma irq_run_channels_witness :
  RangerK.s (irq_run [(0%nat, (1, 1000)); (3%nat, (0, 1500));
                      (0%nat, (0, 2001000))] RangerK.module_init)
  !! 0%nat
  = Some (RangerK.SensorState false 1000 343000 1 0).
Proof.
  destruct (irq_run_channels
              [(0%nat, (1, 1000)); (3%nat, (0, 1500)); (0%nat, (0, 2001000))]
              RangerK.module_init 0) as (Hs & _).
  - unfold in_u32. simpl. lia.
  - rewrite Hs. reflexivity.
Defined.

Lemma sensor_run_cons (e : Z * Z) (evs : list (Z * Z))
    (st : RangerK.sensor_state) :
  sensor_run (e :: evs) st
  = sensor_run evs (RangerK.echo_irq_sensor e.1 e.2 st).
Proof. reflexivity. Qed.

Lemma echo_irq_sensor_have_rise (e : Z * Z) (st : RangerK.sensor_state) :
  RangerK.have_rise (RangerK.echo_irq_sensor e.1 e.2 st) = is_rising e.
Proof.
  unfold RangerK.echo_irq_sensor, is_rising.
  destruct (negb (e.1 =? 0)); [done|].
  by destruct (RangerK.have_rise st) eqn:E.
Qed.

Lemma echo_irq_sensor_wf (level now : Z) (st : RangerK.sensor_state) :
  RangerK.sensor_wf st ->
  RangerK.sensor_wf (RangerK.echo_irq_sensor level now st).
Proof.
  unfold RangerK.echo_irq_sensor, RangerK.sensor_wf. intros Hwf.
  destruct (negb _); [done|].
  destruct (RangerK.have_rise st); simpl;
    repeat split; try apply to_u32_range; apply Hwf.
Qed.

Lemma measured_unmatched (before : bool) (evs : list (Z * Z)) :
  (measured before evs + unmatched before evs)%nat
  = length (filter (λ e, is_rising e = false) evs).
Proof.
  revert before. induction evs as [|e evs IH]; intros before; [done|].
  cbn [measured unmatched]. specialize (IH (is_rising e)).
  destruct (is_rising e) eqn:E.
  - rewrite filter_cons_False by (rewrite E; done).
    rewrite !andb_false_r. simpl. exact IH.
  - rewrite filter_cons_True by exact E.
    destruct before; simpl; lia.
Qed.

Lemma sensor_run_wf (evs : list (Z * Z)) (st : RangerK.sensor_state) :
  RangerK.sensor_wf st -> RangerK.sensor_wf (sensor_run evs st).
Proof.
  revert st. induction evs as [|e evs IH]; intros st Hwf; [done|].
  rewrite sensor_run_cons. by apply IH, echo_irq_sensor_wf.
Qed.

Lemma sensor_run_pulses (evs : list (Z * Z)) (st : RangerK.sensor_state) :
  RangerK.sensor_wf st ->
  RangerK.pulses (sensor_run evs st)
  = to_u32 (RangerK.pulses st
            + Z.of_nat (measured (RangerK.have_rise st) evs)).
Proof.
  revert st. induction evs as [|e evs IH]; intros st Hwf.
  - simpl. rewrite Z.add_0_r. symmetry. apply to_u32_small, Hwf.
  - rewrite sensor_run_cons, IH by apply echo_irq_sensor_wf, Hwf.
    rewrite echo_irq_sensor_have_rise. cbn [measured].
    unfold RangerK.echo_irq_sensor, is_rising.
    destruct (negb (e.1 =? 0)); simpl.
    + rewrite andb_false_r. done.
    + destruct (RangerK.have_rise st); simpl.
      * rewrite to_u32_add_l. f_equal. lia.
      * done.
Qed.

Lemma sensor_run_overruns (evs : list (Z * Z)) (st : RangerK.sensor_state) :
  RangerK.sensor_wf st ->
  RangerK.overruns (sensor_run evs st)
  = to_u32 (RangerK.overruns st
            + Z.of_nat (unmatched (RangerK.have_rise st) evs)).
Proof.
  revert st. induction evs as [|e evs IH]; intros st Hwf.
  - simpl. rewrite Z.add_0_r. symmetry. apply to_u32_small, Hwf.
  - rewrite sensor_run_cons, IH by apply echo_irq_sensor_wf, Hwf.
    rewrite echo_irq_sensor_have_rise. cbn [unmatched].
    unfold RangerK.echo_irq_sensor, is_rising.
    destruct (negb (e.1 =? 0)); simpl.
    + rewrite andb_false_r. done.
    + destruct (RangerK.have_rise st); simpl.
      * done.
      * rewrite to_u32_add_l. f_equal. lia.
Qed.

Lemma sensor_run_have_rise (evs : list (Z * Z)) (st : RangerK.sensor_state) :
  RangerK.have_rise (sensor_run evs st)
  = from_option is_rising (RangerK.have_rise st) (last evs).
Proof.
  revert st. induction evs as [|e evs IH]; intros st; [done|].
  rewrite sensor_run_cons, IH, echo_irq_sensor_have_rise.
  destruct evs as [|e' evs]; [done|].
  rewrite last_cons_cons, (last_cons e'). by destruct (last evs).
Qed.

(** X3: on every line, [pulses] counts the falling edges that come right
    after a rising edge, [overruns] counts all the other falling edges,
    both modulo 2^32, so together they account for every falling edge; the
    line is armed exactly when its last edge was a rising one, and the
    counters stay 32-bit values. *)
Theorem sensor_run_accounting (evs : list (Z * Z))
    (st : RangerK.sensor_state) :
  RangerK.sensor_wf st ->
  let r := sensor_run evs st in
  RangerK.pulses r
  = to_u32 (RangerK.pulses st + Z.of_nat (measured (RangerK.have_rise st) evs))
  /\ RangerK.overruns r
     = to_u32 (RangerK.overruns st
               + Z.of_nat (unmatched (RangerK.have_rise st) evs))
  /\ (measured (RangerK.have_rise st) evs
      + unmatched (RangerK.have_rise st) evs)%nat
     = length (filter (λ e, is_rising e = false) evs)
  /\ RangerK.have_rise r
     = from_option is_rising (RangerK.have_rise st) (last evs)
  /\ RangerK.sensor_wf r.
Proof.
  intros Hwf r. subst r.
  split; [by apply sensor_run_pulses|].
  split; [by apply sensor_run_overruns|].
  split; [apply measured_unmatched|].
  split; [apply sensor_run_have_rise|by apply sensor_run_wf].
Qed.

Lemma sensor_run_accounting_witness :
  RangerK.sensor_wf RangerK.sensor_init
  /\ RangerK.pulses
       (sensor_run [(0, 5); (1, 10); (0, 20); (0, 30); (1, 40)]
                   RangerK.sensor_init) = 1
  /\ RangerK.overruns
       (sensor_run [(0, 5); (1, 10); (0, 20); (0, 30); (1, 40)]
                   RangerK.sensor_init) = 2.
Proof.
  assert (Hwf : RangerK.sensor_wf RangerK.sensor_init)
    by (unfold RangerK.sensor_wf, in_u32; simpl; lia).
  split; [exact Hwf|].
  destruct (sensor_run_accounting
              [(0, 5); (1, 10); (0, 20); (0, 30); (1, 40)]
              RangerK.sensor_init Hwf) as (Hp & Ho & _).
  split; [rewrite Hp|rewrite Ho]; reflexivity.
Defined.

Lemma sensor_run_app (evs1 evs2 : list (Z * Z))
    (st : RangerK.sensor_state) :
  sensor_run (evs1 ++ evs2) st = sensor_run evs2 (sensor_run evs1 st).
Proof. unfold sensor_run. by rewrite foldl_app. Qed.

Lemma irq_channel_none (idx : nat) (evs : list (nat * (Z * Z))) :
  Forall (λ e, e.1 ≠ idx) evs -> irq_channel idx evs = [].
Proof.
  induction 1 as [|e evs He Hevs IH]; [done|].
  rewrite irq_channel_cons, decide_False by done. exact IH.
Qed.

(** X4: a rising edge and the next falling edge of a line measure a
    pulse, whatever the other lines do in between: the line's distance
    becomes [(t2 - t1) * 171500 / 1000000] um for a width that fits, its
    pulse counter advances by 1 modulo 2^32, its overrun counter stays,
    and the line is left unarmed. *)
Theorem rise_fall_measured (evs1 mid : list (nat * (Z * Z)))
    (g : RangerK.module_state) (idx : nat) (level t1 t2 : Z)
    (st : RangerK.sensor_state) :
  level ≠ 0 ->
  Forall (λ e, e.1 ≠ idx) mid ->
  0 <= t2 - t1 <= WIDTH_NS_MAX_U32 ->
  RangerK.s (irq_run evs1 g) !! idx = Some st ->
  ∃ st',
    RangerK.s (irq_run (evs1 ++ (idx, (level, t1)) :: mid
                        ++ [(idx, (0, t2))]) g) !! idx = Some st'
    /\ RangerK.dist_um st' = (t2 - t1) * 171500 / 1000000
    /\ RangerK.pulses st' = to_u32 (RangerK.pulses st + 1)
    /\ RangerK.overruns st' = RangerK.overruns st
    /\ RangerK.have_rise st' = false.
Proof.
  intros Hlevel Hmid Hw Hst.
  rewrite irq_run_sensor in Hst. rewrite irq_run_sensor.
  destruct (RangerK.s g !! idx) as [st0|]; [|done].
  simpl in Hst. injection Hst as <-. simpl.
  eexists. split; [reflexivity|].
  rewrite irq_channel_app, irq_channel_cons, irq_channel_app.
  rewrite (irq_channel_none idx mid Hmid), irq_channel_cons.
  cbn [fst snd]. rewrite !decide_True by done.
  change (irq_channel idx []) with (@nil (Z * Z)). cbn [app].
  rewrite sensor_run_app.
  generalize (sensor_run (irq_channel idx evs1) st0). intros st.
  rewrite !sensor_run_cons. cbn [sensor_run foldl fst snd].
  assert (Hrise : RangerK.echo_irq_sensor level t1 st
                  = RangerK.SensorState true t1 (RangerK.dist_um st)
                      (RangerK.pulses st) (RangerK.overruns st)).
  { unfold RangerK.echo_irq_sensor.
    destruct (Z.eqb_spec level 0); [done|]. done. }
  rewrite Hrise. unfold RangerK.echo_irq_sensor. simpl.
  rewrite to_s64_small by (unfold in_s64, WIDTH_NS_MAX_U32 in *; lia).
  rewrite width_ns_to_um_in_range by exact Hw. done.
Qed.

Lemma rise_fall_measured_witness :
  ∃ st',
    RangerK.s (irq_run ([] ++ (2%nat, (1, 1000))
                          :: [(0%nat, (1, 1200)); (4%nat, (0, 1300))]
                          ++ [(2%nat, (0, 2001000))])
                 RangerK.module_init) !! 2%nat = Some st'
    /\ RangerK.dist_um st' = 343000
    /\ RangerK.pulses st' = 1.
Proof.
  destruct (rise_fall_measured [] [(0%nat, (1, 1200)); (4%nat, (0, 1300))]
              RangerK.module_init 2 1 1000 2001000 RangerK.sensor_init)
    as (st' & Hlk & Hd & Hp & _).
  - lia.
  - repeat constructor; simpl; lia.
  - unfold WIDTH_NS_MAX_U32. lia.
  - reflexivity.
  - exists st'. split; [exact Hlk|]. split; [exact Hd|exact Hp].
Defined.

(** ** What [stats_read] shows after a run *)

Lemma irq_run_init_sensors (evs : list (nat * (Z * Z))) :
  RangerK.s (irq_run evs RangerK.module_init)
  = (λ i, sensor_run (irq_channel i evs) RangerK.sensor_init)
    <$> seq 0 RangerK.MAX_SENSORS.
Proof.
  apply list_eq. intros i. rewrite irq_run_sensor, list_lookup_fmap.
  unfold RangerK.module_init. cbn [RangerK.s].
  destruct (decide (i < RangerK.MAX_SENSORS)%nat) as [Hi|Hi].
  - rewrite lookup_replicate_2 by exact Hi.
    by rewrite lookup_seq_lt by exact Hi.
  - rewrite (proj1 (lookup_replicate_None _ _ _)) by lia.
    by rewrite lookup_seq_ge by lia.
Qed.

Lemma sensor_init_wf : RangerK.sensor_wf RangerK.sensor_init.
Proof. unfold RangerK.sensor_wf, in_u32. simpl. lia. Qed.

Lemma falling_count_cons (j : nat) (e : Z * Z)
    (evs : list (nat * (Z * Z))) :
  (j < RangerK.MAX_SENSORS)%nat ->
  sum_list ((λ i, length (filter (λ e, is_rising e = false)
                            (irq_channel i ((j, e) :: evs))))
            <$> seq 0 RangerK.MAX_SENSORS)
  = ((if is_rising e then 0 else 1)
     + sum_list ((λ i, length (filter (λ e, is_rising e = false)
                                 (irq_channel i evs)))
                 <$> seq 0 RangerK.MAX_SENSORS))%nat.
Proof.
  intros Hj. unfold RangerK.MAX_SENSORS in *.
  cbn [seq fmap list_fmap sum_list sum_list_with].
  rewrite !irq_channel_cons. cbn [fst snd].
  destruct (is_rising e) eqn:E.
  - destruct j as [|[|[|[|[|j]]]]]; [| | | | |lia];
      repeat first [rewrite decide_True by lia
                   |rewrite decide_False by lia]; cbn [app];
      rewrite filter_cons_False by (by rewrite E); unfold id; lia.
  - destruct j as [|[|[|[|[|j]]]]]; [| | | | |lia];
      repeat first [rewrite decide_True by lia
                   |rewrite decide_False by lia]; cbn [app];
      rewrite filter_cons_True by exact E; cbn [length]; unfold id; lia.
Qed.

(** X20: what [stats_read] copies after any run of the handler on the
    five lines, from the state the module is loaded with: [seq] is the
    number of IRQs handled, and for each line [pulses] is the number of its
    falling edges that came right after a rising one and [overruns] the
    number of its other falling edges, all modulo 2^32; over the five
    lines these numbers add up to the number of falling edges handled. *)
Theorem stats_after_run (evs : list (nat * (Z * Z))) :
  Forall (λ e, (e.1 < RangerK.MAX_SENSORS)%nat) evs ->
  RangerK.stats_read (irq_run evs RangerK.module_init)
  = (to_u32 (Z.of_nat (length evs)),
     (λ i, to_u32 (Z.of_nat (measured false (irq_channel i evs))))
       <$> seq 0 RangerK.MAX_SENSORS,
     (λ i, to_u32 (Z.of_nat (unmatched false (irq_channel i evs))))
       <$> seq 0 RangerK.MAX_SENSORS)
  /\ sum_list ((λ i, (measured false (irq_channel i evs)
                      + unmatched false (irq_channel i evs))%nat)
               <$> seq 0 RangerK.MAX_SENSORS)
     = length (filter (λ e, is_rising e.2 = false) evs).
Proof.
  intros Hidx. split.
  - unfold RangerK.stats_read.
    rewrite irq_run_seq by (unfold in_u32; simpl; lia).
    rewrite irq_run_init_sensors, <- !list_fmap_compose.
    cbn [RangerK.seq RangerK.module_init]. rewrite Z.add_0_l.
    f_equal; [f_equal|]; apply list_fmap_ext; intros i k _; cbn [compose].
    + by rewrite sensor_run_pulses by apply sensor_init_wf.
    + by rewrite sensor_run_overruns by apply sensor_init_wf.
  - rewrite (list_fmap_ext _ (λ i, length (filter (λ e, is_rising e = false)
                                            (irq_channel i evs))))
      by (intros i k _; apply measured_unmatched).
    induction Hidx as [|[j e] evs Hj Hevs IH]; [done|].
    rewrite falling_count_cons by exact Hj. rewrite IH.
    cbn [snd]. destruct (is_rising e) eqn:E.
    + by rewrite filter_cons_False by (cbn [snd]; by rewrite E).
    + by rewrite filter_cons_True by exact E.
Qed.

Lemma stats_after_run_witness :
  RangerK.stats_read
    (irq_run [(0%nat, (1, 100)); (1%nat, (0, 150)); (0%nat, (0, 2000100));
              (4%nat, (1, 5))] RangerK.module_init)
  = (4, [1; 0; 0; 0; 0], [0; 1; 0; 0; 0]).
Proof.
  destruct (stats_after_run
              [(0%nat, (1, 100)); (1%nat, (0, 150)); (0%nat, (0, 2000100));
               (4%nat, (1, 5))]) as [H _].
  - repeat constructor; simpl; lia.
  - rewrite H. reflexivity.
Defined.

(** ** ranger-u mirrors the kernel module *)

Lemma sensor_run_snoc (evs : list (Z * Z)) (e : Z * Z)
    (st : RangerK.sensor_state) :
  sensor_run (evs ++ [e]) st
  = RangerK.echo_irq_sensor e.1 e.2 (sensor_run evs st).
Proof. unfold sensor_run. by rewrite foldl_snoc. Qed.

(** X5: the tracker of ranger-u and the handler of the kernel module, fed
    the same edges of a line, stay in step: one is armed when the other
    is and they hold the same rising time, the kernel's pulse counter is
    the number of pulses the tracker has returned, modulo 2^32, and the
    kernel's distance is the fixed-point distance of the width of the
    tracker's latest pulse (0 before the first). *)
Theorem tracker_mirrors_handler (ess : list EdgeStamp) (c : float) :
  let r := sensor_run (irq_of_edge <$> ess) RangerK.sensor_init in
  let u := on_edges ess (PulseTracker_new c) in
  RangerK.have_rise r = armed u.2
  /\ (∀ t, t_rise_ u.2 = Some t -> RangerK.rise_ts r = t)
  /\ RangerK.pulses r = to_u32 (Z.of_nat (length (pulses_of u.1)))
  /\ RangerK.dist_um r
     = from_option (λ p, RangerK.width_ns_to_um (width p)) 0
                   (last (pulses_of u.1)).
Proof.
  induction ess as [|es ess IH] using rev_ind; [done|].
  cbv zeta in *. rewrite fmap_app, on_edges_snoc. simpl.
  rewrite sensor_run_snoc.
  set (r := sensor_run (irq_of_edge <$> ess) RangerK.sensor_init) in *.
  destruct (on_edges ess (PulseTracker_new c)) as [rs pt].
  simpl in *. destruct IH as (Harm & Hts & Hp & Hd).
  unfold RangerK.echo_irq_sensor, on_edge, irq_of_edge, armed in *.
  unfold pulses_of in *.
  destruct (edge es); simpl.
  - (* rising *)
    rewrite omap_app. simpl. rewrite app_nil_r.
    split; [done|]. split; [|done]. by intros t [= ->].
  - (* falling *)
    rewrite Harm. destruct (t_rise_ pt) as [t_rise|] eqn:Et; simpl.
    + rewrite omap_app. simpl. rewrite length_app, last_snoc. simpl.
      rewrite (Hts t_rise eq_refl).
      split; [done|]. split; [done|]. split; [|done].
      rewrite Hp, to_u32_add_l. f_equal. lia.
    + rewrite omap_app. simpl. rewrite app_nil_r, Et.
      split; [done|]. split; [|done]. by intros t.
Qed.

(** ** Event timestamps of ranger-u *)

Lemma edge_from_ts (R : Z) (ev : gpiod_line_event) :
  timespec_ok (ev_ts ev) ->
  ts (edge_from R ev)
  = tv_sec (ev_ts ev) * 1000000000 + tv_nsec (ev_ts ev).
Proof.
  intros [Hs Hn]. unfold edge_from. cbn [ts].
  rewrite (to_s64_small (tv_sec (ev_ts ev) * 1000000000))
    by (unfold in_s64; lia).
  apply to_s64_small. unfold in_s64. lia.
Qed.

(** X6: [edge_from] on a normalised [timespec] whose nanoseconds fit an
    int64 computes [tv_sec * 10^9 + tv_nsec] without overflow, the result
    is a timestamp, an earlier [timespec] gives a smaller count and a later
    one a larger, and the edge is rising exactly for the event type
    [GPIOD_LINE_EVENT_RISING_EDGE]: any other type reads as falling. *)
Theorem edge_from_faithful (R : Z) (a b : gpiod_line_event) :
  timespec_ok (ev_ts a) -> timespec_ok (ev_ts b) ->
  ts (edge_from R a) = tv_sec (ev_ts a) * 1000000000 + tv_nsec (ev_ts a)
  /\ is_timestamp (ts (edge_from R a))
  /\ (timespec_lt (ev_ts a) (ev_ts b)
      <-> ts (edge_from R a) < ts (edge_from R b))
  /\ (edge (edge_from R a) = Rising <-> event_type a = R)
  /\ (edge (edge_from R a) = Falling <-> event_type a ≠ R).
Proof.
  intros Ha Hb.
  rewrite (edge_from_ts R a Ha), (edge_from_ts R b Hb).
  destruct Ha as [Has Han], Hb as [Hbs Hbn].
  split; [done|]. split; [unfold is_timestamp; lia|].
  split; [unfold timespec_lt; split; [nia|]|].
  - intros Hlt.
    destruct (Z.lt_trichotomy (tv_sec (ev_ts a)) (tv_sec (ev_ts b)))
      as [H|[H|H]]; [by left|right; split; [done|lia]|nia].
  - unfold edge_from. cbn [edge].
    destruct (Z.eqb_spec (event_type a) R); split; split; done.
Qed.

Lemma edge_from_faithful_witness :
  ts (edge_from 1 (mkLineEvent (mkTimespec 12 999999000) 1)) = 12999999000
  /\ ts (edge_from 1 (mkLineEvent (mkTimespec 12 999999000) 1))
     < ts (edge_from 1 (mkLineEvent (mkTimespec 13 1000) 2))
  /\ edge (edge_from 1 (mkLineEvent (mkTimespec 13 1000) 2)) = Falling.
Proof.
  destruct (edge_from_faithful 1
              (mkLineEvent (mkTimespec 12 999999000) 1)
              (mkLineEvent (mkTimespec 13 1000) 2))
    as (Hts & _ & Hlt & _ & _).
  - unfold timespec_ok. simpl. lia.
  - unfold timespec_ok. simpl. lia.
  - split; [exact Hts|]. split; [|reflexivity].
    apply Hlt. left. simpl. lia.
Defined.

(** X7: a rising event and a later falling event of a line, read through
    [edge_from] and fed to a tracker, give a pulse whose width is the
    difference of the two [timespec]s in nanoseconds, and leave the tracker
    unarmed. *)
Theorem event_pair_width (R : Z) (a b : gpiod_line_event)
    (pt : PulseTracker) :
  timespec_ok (ev_ts a) -> timespec_ok (ev_ts b) ->
  event_type a = R -> event_type b ≠ R ->
  let r := on_edge (edge_from R b) (on_edge (edge_from R a) pt).2 in
  (∃ p, r.1 = Some p
        /\ width p
           = (tv_sec (ev_ts b) - tv_sec (ev_ts a)) * 1000000000
             + (tv_nsec (ev_ts b) - tv_nsec (ev_ts a)))
  /\ armed r.2 = false.
Proof.
  intros Ha Hb Hra Hfb. cbv zeta.
  pose proof (edge_from_ts R a Ha) as Hta.
  pose proof (edge_from_ts R b Hb) as Htb.
  unfold on_edge.
  assert (Ea : edge (edge_from R a) = Rising).
  { unfold edge_from. cbn [edge]. by rewrite Hra, Z.eqb_refl. }
  assert (Eb : edge (edge_from R b) = Falling).
  { unfold edge_from. cbn [edge]. by destruct (Z.eqb_spec (event_type b) R). }
  rewrite Ea, Eb. cbn [snd fst t_rise_ c_ width]. split; [|done].
  eexists. split; [reflexivity|]. cbn [width].
  rewrite Hta, Htb.
  destruct Ha as [Has Han], Hb as [Hbs Hbn].
  rewrite to_s64_small by (unfold in_s64; lia). lia.
Qed.

Lemma event_pair_width_witness :
  ∃ p, (on_edge (edge_from 1 (mkLineEvent (mkTimespec 13 1000) 2))
          (on_edge (edge_from 1 (mkLineEvent (mkTimespec 12 999999000) 1))
             (PulseTracker_new 343)).2).1 = Some p
       /\ width p = 2000.
Proof.
  destruct (event_pair_width 1
              (mkLineEvent (mkTimespec 12 999999000) 1)
              (mkLineEvent (mkTimespec 13 1000) 2)
              (PulseTracker_new 343))
    as [(p & Hp & Hw) _].
  - unfold timespec_ok. simpl. lia.
  - unfold timespec_ok. simpl. lia.
  - reflexivity.
  - simpl. lia.
  - exists p. split; [exact Hp|]. rewrite Hw. reflexivity.
Defined.

(** ** Runs of the pulse tracker *)

Lemma on_edges_lookup (ess : list EdgeStamp) (pt : PulseTracker) (i : nat) :
  (on_edges ess pt).1 !! i
  = (λ e, (on_edge e (on_edges (take i ess) pt).2).1) <$> ess !! i.
Proof.
  revert pt i. induction ess as [|es ess IH]; intros pt i; [done|].
  simpl. destruct (on_edge es pt) as [r pt1] eqn:E.
  specialize (IH pt1).
  destruct i as [|i]; simpl.
  - destruct (on_edges ess pt1). simpl. by rewrite E.
  - rewrite E. specialize (IH i).
    destruct (on_edges ess pt1) as [rs pt2].
    destruct (on_edges (take i ess) pt1) as [rs' pt2']. exact IH.
Qed.

Lemma on_edges_t_rise (ess : list EdgeStamp) (pt : PulseTracker) :
  t_rise_ (on_edges ess pt).2
  = match last ess with
    | None => t_rise_ pt
    | Some e => match edge e with Rising => Some (ts e) | Falling => None end
    end.
Proof.
  induction ess as [|es ess IH] using rev_ind; [done|].
  rewrite on_edges_snoc, last_snoc. cbn zeta. cbn [snd].
  unfold on_edge. destruct (edge es); [done|].
  by destruct (t_rise_ (on_edges ess pt).2) eqn:E; [|simpl].
Qed.

(** X8: a tracker returns a pulse at an edge exactly when that edge is
    falling and the edge right before it is rising; the width is the
    difference of the two times and the distance is [c * (width * 1e-9) /
    2].  So no pulse comes from the first edge, from a rising edge, or from
    the second of two falling edges. *)
Theorem tracker_pulse_iff (ess : list EdgeStamp) (c : float) (i : nat)
    (p : Pulse) :
  (on_edges ess (PulseTracker_new c)).1 !! i = Some (Some p)
  <-> ∃ j e1 e2,
        i = S j /\ ess !! j = Some e1 /\ ess !! i = Some e2
        /\ edge e1 = Rising /\ edge e2 = Falling
        /\ p = mkPulse (to_s64 (ts e2 - ts e1))
                 (c * (double_of_int (to_s64 (ts e2 - ts e1)) * 1e-9) / 2).
Proof.
  rewrite on_edges_lookup.
  pose proof (on_edges_t_rise (take i ess) (PulseTracker_new c)) as Ht.
  pose proof (on_edges_c (take i ess) (PulseTracker_new c)) as Hc.
  cbn [c_ t_rise_ PulseTracker_new] in Ht, Hc.
  destruct (on_edges (take i ess) (PulseTracker_new c)) as [rs pt].
  cbn [snd] in *.
  destruct (ess !! i) as [e2|] eqn:E2; cbn [fmap option_fmap option_map].
  2:{ split; [done|]. by intros (j & e1 & e2 & _ & _ & ? & _). }
  assert (Hi : (i < length ess)%nat) by (eapply lookup_lt_Some, E2).
  unfold on_edge. rewrite Ht, Hc.
  destruct i as [|j].
  - cbn [take last]. cbn [t_rise_ PulseTracker_new].
    split; [by destruct (edge e2)|].
    by intros (j & e1 & e2' & ? & _).
  - rewrite last_lookup, length_take, Nat.min_l by lia. cbn [pred].
    rewrite lookup_take_lt by lia.
    destruct (ess !! j) as [e1|] eqn:E1.
    2:{ apply lookup_ge_None in E1. lia. }
    split.
    + destruct (edge e2) eqn:Ee2; [done|].
      destruct (edge e1) eqn:Ee1; [|done].
      cbn [fst]. intros [= <-]. by exists j, e1, e2.
    + intros (j' & e1' & e2' & Hj & H1 & H2 & Hr & Hf & ->).
      injection Hj as <-. rewrite E1 in H1.
      injection H1 as <-. injection H2 as <-.
      by rewrite Hf, Hr.
Qed.

(** ** Distances are not negative *)

Lemma binary_round_aux_nonneg (prec emax : Z) (mx ex : Z) (lx : location) :
  0 <= mx -> sf_nonneg (binary_round_aux prec emax false mx ex lx).
Proof.
  intros H. unfold binary_round_aux, shr_fexp.
  set (n1 := fexp prec emax (Zdigits2 mx + ex) - ex).
  pose proof (shr_nonneg (shr_record_of_loc mx lx) ex n1) as H1.
  rewrite shr_record_of_loc_m in H1. specialize (H1 H).
  destruct (shr (shr_record_of_loc mx lx) ex n1) as [mrs' e'].
  simpl in H1.
  set (m2 := round_nearest_even (shr_m mrs') (loc_of_shr_record mrs')).
  assert (H2 : 0 <= m2) by (apply round_nearest_even_nonneg, H1).
  set (n2 := fexp prec emax (Zdigits2 m2 + e') - e').
  pose proof (shr_nonneg (shr_record_of_loc m2 loc_Exact) e' n2) as H3.
  rewrite shr_record_of_loc_m in H3. specialize (H3 H2).
  destruct (shr (shr_record_of_loc m2 loc_Exact) e' n2) as [mrs'' e''].
  simpl in H3.
  destruct (shr_m mrs'') as [|p|p]; [done| |lia].
  by destruct (e'' <=? emax - prec).
Qed.

Lemma binary_round_nonneg (prec emax : Z) (mx : positive) (ex : Z) :
  sf_nonneg (binary_round prec emax false mx ex).
Proof.
  unfold binary_round. destruct (shl_align mx ex _) as [mz ez].
  apply binary_round_aux_nonneg. lia.
Qed.

Lemma binary_normalize_nonneg (prec emax m e : Z) (szero : bool) :
  0 <= m -> sf_nonneg (binary_normalize prec emax m e szero).
Proof.
  intros H. unfold binary_normalize. destruct m; [done| |lia].
  apply binary_round_nonneg.
Qed.

Lemma SFldexp_nonneg (x : spec_float) (e : Z) :
  sf_nonneg x -> sf_nonneg (SFldexp prec emax x e).
Proof.
  destruct x as [s|s| |s m ex]; simpl; try done.
  destruct s; [done|]. intros _. apply binary_round_nonneg.
Qed.

Lemma Prim2SF_SF2Prim_nonneg (x : spec_float) :
  sf_nonneg x -> sf_nonneg (Prim2SF (SF2Prim x)).
Proof.
  destruct x as [[]|[]| |[] m e]; try done; try (intros _; by vm_compute).
  intros _. unfold SF2Prim.
  rewrite Z_ldexp_spec. apply SFldexp_nonneg.
  rewrite of_uint63_spec. apply binary_normalize_nonneg.
  apply Uint63.to_Z_bounded.
Qed.

Lemma SFmul_nonneg (x y : spec_float) (m : positive) (e : Z) :
  x = S754_finite false m e -> sf_nonneg y ->
  sf_nonneg (SFmul prec emax x y).
Proof.
  intros -> Hy.
  destruct y as [sy|sy| |sy my ey]; simpl in *; try done.
  destruct sy; [done|]. apply binary_round_aux_nonneg. lia.
Qed.

Lemma SFmul_nonneg_r (x y : spec_float) (m : positive) (e : Z) :
  sf_nonneg x -> y = S754_finite false m e ->
  sf_nonneg (SFmul prec emax x y).
Proof.
  intros Hx ->.
  destruct x as [sx|sx| |sx mx ex]; simpl in *; try done.
  - by destruct sx.
  - destruct sx; [done|]. apply binary_round_aux_nonneg. lia.
Qed.

Lemma SFdiv_nonneg (x y : spec_float) (m : positive) (e : Z) :
  sf_nonneg x -> y = S754_finite false m e ->
  sf_nonneg (SFdiv prec emax x y).
Proof.
  intros Hx ->.
  destruct x as [sx|sx| |sx mx ex]; simpl in *; try done.
  - by destruct sx.
  - destruct sx; [done|]. simpl.
    unfold SFdiv_core_binary.
    set (e' := IntDef.Z.min _ _). set (sh := ex - e - e').
    set (m' := match sh with
               | 0 => Z.pos mx
               | Z.pos _ => IntDef.Z.shiftl (Z.pos mx) sh
               | Z.neg _ => 0
               end).
    assert (Hm' : 0 <= m').
    { subst m'. destruct sh; try lia. apply Z.shiftl_nonneg. lia. }
    pose proof (Z.div_pos m' (Z.pos m) Hm' ltac:(lia)) as Hq.
    unfold Z.div in Hq.
    change IntDef.Z.div_eucl with Z.div_eucl.
    destruct (Z.div_eucl m' (Z.pos m)) as [q r]. simpl in Hq.
    apply binary_round_aux_nonneg, Hq.
Qed.

Lemma sf_nonneg_leb (x : float) :
  sf_nonneg (Prim2SF x) -> (0 <=? x)%float = true.
Proof.
  rewrite leb_spec. change (Prim2SF 0) with (S754_zero false).
  by destruct (Prim2SF x) as [s|[]| |[] m e].
Qed.

(** X9: at a falling edge that is not earlier than the rising edge the
    tracker holds, a tracker whose speed of sound is finite and positive
    returns a pulse whose width is the exact difference of the two
    timestamps and is not negative, and whose distance is not negative
    (and so is no NaN). *)
Theorem pulse_not_negative (es : EdgeStamp) (pt : PulseTracker) (t : Z) :
  edge es = Falling -> t_rise_ pt = Some t ->
  is_timestamp t -> is_timestamp (ts es) -> t <= ts es ->
  finite_pos (c_ pt) ->
  ∃ p, (on_edge es pt).1 = Some p
       /\ width p = ts es - t
       /\ 0 <= width p
       /\ (0 <=? distance_m p)%float = true.
Proof.
  intros He Ht Hit Hie Hle (m & e & Hc).
  unfold on_edge. rewrite He, Ht. eexists. split; [reflexivity|].
  cbn [width distance_m].
  rewrite to_s64_small by (unfold is_timestamp, in_s64 in *; lia).
  split; [done|]. split; [lia|].
  apply sf_nonneg_leb. rewrite div_spec.
  eapply SFdiv_nonneg; [|by vm_compute].
  rewrite mul_spec. eapply SFmul_nonneg; [exact Hc|].
  rewrite mul_spec.
  assert (Hd : sf_nonneg (Prim2SF (double_of_int (ts es - t)))).
  { apply Prim2SF_SF2Prim_nonneg, binary_normalize_nonneg. lia. }
  eapply SFmul_nonneg_r; [exact Hd|by vm_compute].
Qed.

Lemma pulse_not_negative_witness :
  ∃ p, (on_edge (mkEdgeStamp Falling 2001000)
          (mkPulseTracker (Some 1000) 343)).1 = Some p
       /\ width p = 2000000
       /\ (0 <=? distance_m p)%float = true.
Proof.
  destruct (pulse_not_negative (mkEdgeStamp Falling 2001000)
              (mkPulseTracker (Some 1000) 343) 1000)
    as (p & Hp & Hw & _ & Hd).
  - reflexivity.
  - reflexivity.
  - unfold is_timestamp. lia.
  - unfold is_timestamp. simpl. lia.
  - simpl. lia.
  - by vm_compute; eexists _, _.
  - exists p. split; [exact Hp|]. split; [exact Hw|exact Hd].
Defined.

(** ** The median filter on any input *)

Lemma sorted_mid_elem (w : list float) (m : float) :
  sorted_mid w = Some m -> m ∈ w.
Proof.
  unfold sorted_mid. intros H. apply list_elem_of_lookup_2 in H.
  by rewrite std_sort_perm in H.
Qed.

(** X10: on every sequence of doubles none of which is a NaN, a filter of
    any window [W >= 1] reads nothing out of bounds, its buffer ends as the
    last [W] values pushed, it returns nothing before the [W]-th push, and
    every value it returns is the element of index [W / 2] of the last [W]
    values pushed up to then, put in ascending order, and so one of
    them. *)
Theorem median_output_member (W : nat) (vs : list float) :
  (0 < W)%nat -> Forall not_nan vs ->
  ∃ rs, push_all vs (MedianFilter_new W)
        = Some (rs, mkMedianFilter W (last_n W vs))
    /\ length rs = length vs
    /\ ∀ i m, rs !! i = Some (Some m) ->
          (W <= S i)%nat
          /\ order_stat (W / 2) (last_n W (take (S i) vs)) m
          /\ m ∈ last_n W (take (S i) vs).
Proof.
  intros HW Hnan.
  destruct (push_all_order_stat W vs HW Hnan)
    as (rs & Hrun & Hlen & Hcold & Hwarm).
  exists rs. split; [exact Hrun|]. split; [exact Hlen|].
  intros i m Hi.
  assert (Hlt : (i < length vs)%nat).
  { rewrite <- Hlen. eapply lookup_lt_Some, Hi. }
  destruct (Nat.lt_ge_cases (S i) W) as [Hc|Hw].
  - rewrite (Hcold i Hlt Hc) in Hi. done.
  - split; [exact Hw|].
    destruct (Hwarm i Hlt Hw) as (m' & Hr & Hm & Hos).
    rewrite Hr in Hi. injection Hi as <-.
    split; [exact Hos|by apply sorted_mid_elem].
Qed.

Lemma median_output_member_witness :
  push_all [1; 5; 3; 2]%float (MedianFilter_new 3)
  = Some ([None; None; Some 3; Some 3]%float,
          mkMedianFilter 3 [5; 3; 2]%float)
  /\ order_stat 1 [5; 3; 2]%float 3
  /\ 3%float ∈ [5; 3; 2]%float.
Proof.
  destruct (median_output_member 3 [1; 5; 3; 2]%float)
    as (rs & Hrun & _ & Hmem).
  - lia.
  - by repeat constructor.
  - assert (Hrs : rs = [None; None; Some 3; Some 3]%float).
    { vm_compute in Hrun. by injection Hrun as <-. }
    subst rs. split; [exact Hrun|].
    destruct (Hmem 3%nat 3%float eq_refl) as (_ & Hos & Hin).
    split; [exact Hos|exact Hin].
Defined.

(** X11: a filter of window 1 returns every value it is given. *)
Theorem median_window_one (vs : list float) :
  push_all vs (MedianFilter_new 1)
  = Some (Some <$> vs, mkMedianFilter 1 (last_n 1 vs)).
Proof.
  destruct (push_all_from 1 vs [] ltac:(lia)) as (rs & Hrun & Hlen & Hrs).
  unfold MedianFilter_new. change (@nil float) with (last_n 1 (@nil float)).
  rewrite Hrun. cbn [app]. do 2 f_equal.
  apply list_eq. intros i. rewrite list_lookup_fmap.
  destruct (vs !! i) as [v|] eqn:Ev.
  - assert (Hlt : (i < length vs)%nat) by (eapply lookup_lt_Some, Ev).
    destruct (Hrs i Hlt) as [_ Hwarm]. cbn [app] in Hwarm.
    destruct Hwarm as (m & -> & Hm); [rewrite length_take; lia|].
    simpl. do 2 f_equal.
    unfold last_n in Hm. rewrite length_take, Nat.min_l in Hm by lia.
    replace (S i - 1)%nat with i in Hm by lia.
    rewrite (take_S_r _ _ _ Ev), drop_app_length' in Hm
      by (rewrite length_take; lia).
    vm_compute in Hm. by injection Hm.
  - apply lookup_ge_None in Ev. apply lookup_ge_None. lia.
Qed.

(** ** The median rejects outliers *)

Lemma filter_none {A} (P : A -> Prop) `{∀ x, Decision (P x)} (l : list A) :
  Forall (λ x, ¬ P x) l -> filter P l = [].
Proof.
  induction 1 as [|x l Hx Hl IH]; [done|].
  by rewrite filter_cons_False.
Qed.

Lemma within_below (lo hi x m : float) :
  fle x m -> (lo <=? m)%float = false -> within lo hi x ≠ true.
Proof.
  unfold within. intros Hxm Hm Hx.
  apply andb_true_iff in Hx as [Hx _].
  pose proof (fle_trans lo x m Hx Hxm) as Hlm. unfold fle in Hlm. congruence.
Qed.

Lemma within_above (lo hi x m : float) :
  fle m x -> (m <=? hi)%float = false -> within lo hi x ≠ true.
Proof.
  unfold within. intros Hmx Hm Hx.
  apply andb_true_iff in Hx as [_ Hx].
  pose proof (fle_trans m x hi Hmx Hx) as Hlm. unfold fle in Hlm. congruence.
Qed.

Lemma sorted_mid_majority (w : list float) (lo hi m : float) :
  Forall not_nan w -> sorted_mid w = Some m ->
  (length w < 2 * count_within lo hi w)%nat ->
  within lo hi m = true.
Proof.
  intros Hnan Hm Hmaj.
  pose proof (std_sort_perm w) as Hp.
  pose proof (std_sort_sorted w Hnan) as Hs.
  unfold sorted_mid in Hm. cbv zeta in Hm.
  unfold count_within in Hmaj. rewrite <- Hp in Hmaj.
  set (srt := std_sort w) in *.
  set (n := length srt) in *.
  set (k := (n / 2)%nat) in *.
  assert (Hk : (k < n)%nat) by (eapply lookup_lt_Some, Hm).
  pose proof (Nat.div_mod_eq n 2) as Hd.
  pose proof (Nat.mod_upper_bound n 2 ltac:(lia)) as Hr.
  fold k in Hd.
  destruct (within lo hi m) eqn:Em; [done|exfalso].
  unfold within in Em. apply andb_false_iff in Em as [Em|Em].
  - (* the middle and all below it are under [lo] *)
    rewrite <- (take_drop (S k) srt), filter_app, length_app in Hmaj.
    rewrite filter_none in Hmaj.
    + pose proof (length_filter (λ x, within lo hi x = true)
                    (drop (S k) srt)) as Hle.
      rewrite length_drop in Hle. cbn [length] in Hmaj.
      fold n in Hle. lia.
    + apply Forall_lookup. intros j x Hj.
      assert (Hjk : (j < S k)%nat).
      { apply lookup_lt_Some in Hj. rewrite length_take in Hj. lia. }
      rewrite lookup_take_lt in Hj by lia.
      destruct (decide (j = k)) as [->|Hne].
      * rewrite Hm in Hj. injection Hj as <-.
        unfold within. rewrite Em. done.
      * eapply within_below; [|exact Em].
        eapply (StronglySorted_lookup_lt fle srt j k);
          [exact Hs|exact Hj|exact Hm|lia].
  - (* the middle and all above it are over [hi] *)
    rewrite <- (take_drop k srt), filter_app, length_app in Hmaj.
    rewrite (filter_none _ (drop k srt)) in Hmaj.
    + pose proof (length_filter (λ x, within lo hi x = true)
                    (take k srt)) as Hle.
      rewrite length_take in Hle. cbn [length] in Hmaj. lia.
    + apply Forall_lookup. intros j x Hj.
      rewrite lookup_drop in Hj.
      destruct j as [|j].
      * rewrite Nat.add_0_r, Hm in Hj. injection Hj as <-.
        unfold within. rewrite Em. by rewrite andb_false_r.
      * eapply within_above; [|exact Em].
        eapply (StronglySorted_lookup_lt fle srt k (k + S j));
          [exact Hs|exact Hm|exact Hj|lia].
Qed.

(** X12: when more than half of the last [W] values pushed lie between two
    bounds, so does the value the filter returns, whatever the other values
    of the window are: up to two outliers among five readings never reach
    the output.  The values are doubles other than NaN. *)
Theorem median_rejects_outliers (W : nat) (vs : list float)
    (lo hi : float) (i : nat) :
  (0 < W)%nat -> Forall not_nan vs ->
  (i < length vs)%nat -> (W <= S i)%nat ->
  (W < 2 * count_within lo hi (last_n W (take (S i) vs)))%nat ->
  ∃ rs f m,
    push_all vs (MedianFilter_new W) = Some (rs, f)
    /\ rs !! i = Some (Some m)
    /\ within lo hi m = true.
Proof.
  intros HW Hnan Hi Hw Hmaj.
  destruct (push_all_order_stat W vs HW Hnan)
    as (rs & Hrun & _ & _ & Hwarm).
  destruct (Hwarm i Hi Hw) as (m & Hr & Hm & _).
  exists rs, (mkMedianFilter W (last_n W vs)), m.
  split; [exact Hrun|]. split; [exact Hr|].
  eapply sorted_mid_majority; [|exact Hm|].
  - by apply not_nan_last_n_take.
  - by rewrite last_n_take_length.
Qed.

Lemma median_rejects_outliers_witness :
  ∃ rs f m,
    push_all [1; 1.25; 40; 1.5; 0; 1.25]%float (MedianFilter_new 5)
    = Some (rs, f)
    /\ rs !! 5%nat = Some (Some m)
    /\ within 1 2 m = true.
Proof.
  apply (median_rejects_outliers 5 [1; 1.25; 40; 1.5; 0; 1.25]%float
           1 2 5).
  - lia.
  - repeat constructor.
  - simpl. lia.
  - lia.
  - vm_compute. lia.
Defined.

(** ** A loop that keeps up prints on schedule *)

Lemma gaps_at_most_tail (d a : Z) (nows : list Z) :
  gaps_at_most d (a :: nows) -> gaps_at_most d nows.
Proof. intros H j x y Hx Hy. apply (H (S j) x y); done. Qed.

Lemma run_on_schedule (I : Z) (passes : list (list (nat * EdgeStamp) * Z)) :
  0 < I -> gaps_at_most I (snd <$> passes) ->
  ∀ (st : loop_state) (np : Z) outs st' np',
    - 2 ^ 63 <= np ->
    np + Z.of_nat (length passes) * I < 2 ^ 63 ->
    (∀ a, head (snd <$> passes) = Some a -> a < np + I) ->
    run I passes (st, np) = Some (outs, (st', np')) ->
    (∀ k t fr, outs !! k = Some (t, fr) ->
       np + Z.of_nat k * I <= t < np + (Z.of_nat k + 1) * I)
    /\ (∀ a, last (snd <$> passes) = Some a -> a < np').
Proof.
  intros HI. induction passes as [|[evs now] rest IH];
    intros Hgap st np outs st' np' Hlo Hhi Hfirst Hrun.
  - simpl in Hrun. injection Hrun as <- <- <-. done.
  - cbn [run] in Hrun. unfold loop_pass in Hrun. simpl in Hrun.
    destruct (drain evs st) as [st1|]; simpl in Hrun; [|done].
    cbn [length] in Hhi. cbn [fmap list_fmap snd] in Hgap, Hfirst.
    pose proof (Hfirst now eq_refl) as Hnow.
    pose proof (gaps_at_most_tail I now _ Hgap) as Hgap'.
    assert (Hnext : ∀ a, head (snd <$> rest) = Some a -> a - now <= I).
    { intros a Ha. apply (Hgap 0%nat now a); [done|].
      simpl. by destruct rest. }
    unfold print_tick in Hrun.
    destruct (Z.leb_spec np now) as [Hdue|Hnot]; simpl in Hrun.
    + rewrite to_s64_small in Hrun by (unfold in_s64; nia).
      destruct (run I rest (st1, np + I)) as [[outs1 [st2 np2]]|] eqn:E;
        simpl in Hrun; [|done].
      injection Hrun as <- <- <-.
      destruct (IH Hgap' st1 (np + I) outs1 st2 np2) as [Hk Hl];
        [lia|nia| |exact E|].
      { intros a Ha. specialize (Hnext a Ha). lia. }
      split.
      * intros [|k] t fr Hlk; simpl in Hlk.
        -- injection Hlk as <- <-. lia.
        -- specialize (Hk k t fr Hlk). lia.
      * intros a Ha. cbn [fmap list_fmap snd] in Ha.
        destruct (rest) as [|p rest'] eqn:Er.
        -- simpl in Ha, E. injection Ha as <-. injection E as _ _ <-. lia.
        -- apply Hl. simpl in Ha |- *. exact Ha.
    + destruct (run I rest (st1, np)) as [[outs1 [st2 np2]]|] eqn:E;
        simpl in Hrun; [|done].
      injection Hrun as <- <- <-.
      destruct (IH Hgap' st1 np outs1 st2 np2) as [Hk Hl];
        [lia|nia| |exact E|].
      { intros a Ha. specialize (Hnext a Ha). lia. }
      split; [exact Hk|].
      intros a Ha. cbn [fmap list_fmap snd] in Ha.
      destruct (rest) as [|p rest'] eqn:Er.
      * simpl in Ha, E. injection Ha as <-. injection E as _ _ <-. lia.
      * apply Hl. simpl in Ha |- *. exact Ha.
Qed.

(** X13: when the first pass of the loop of [main] comes less than one
    interval after the start and consecutive passes are at most one
    interval apart, every deadline is met within the interval: the [k]-th
    frame (from 0) is printed at a time in [[t0 + k * I, t0 + (k + 1) *
    I)], and after the last pass the next deadline lies ahead. *)
Theorem run_keeps_up (I : Z) (passes : list (list (nat * EdgeStamp) * Z))
    (st : loop_state) (t0 : Z) outs st' np' :
  0 < I -> - 2 ^ 63 <= t0 ->
  t0 + Z.of_nat (length passes) * I < 2 ^ 63 ->
  gaps_at_most I (snd <$> passes) ->
  (∀ a, head (snd <$> passes) = Some a -> a < t0 + I) ->
  run I passes (st, t0) = Some (outs, (st', np')) ->
  (∀ k t fr, outs !! k = Some (t, fr) ->
     t0 + Z.of_nat k * I <= t < t0 + (Z.of_nat k + 1) * I)
  /\ (∀ a, last (snd <$> passes) = Some a -> a < np').
Proof.
  intros HI Hlo Hhi Hgap Hfirst Hrun.
  by apply (run_on_schedule I passes HI Hgap st t0 outs st' np').
Qed.

Lemma run_keeps_up_witness :
  ∃ outs st' np',
    run 100 [([], 10); ([], 90); ([], 180); ([], 270)] (loop_init 5, 0)
    = Some (outs, (st', np'))
    /\ (fst <$> outs) = [10; 180; 270]
    /\ ∀ k t fr, outs !! k = Some (t, fr) ->
          0 + Z.of_nat k * 100 <= t < 0 + (Z.of_nat k + 1) * 100.
Proof.
  eexists _, _, _. split; [by vm_compute|]. split; [reflexivity|].
  eapply proj1.
  eapply (run_keeps_up 100 [([], 10); ([], 90); ([], 180); ([], 270)]
           (loop_init 5) 0).
  - lia.
  - lia.
  - simpl. lia.
  - intros [|[|[|[|j]]]] a b Ha Hb; simpl in Ha, Hb;
      try discriminate; injection Ha as <-; injection Hb as <-; lia.
  - intros a Ha. simpl in Ha. injection Ha as <-. lia.
  - by vm_compute.
Defined.

(** ** The frames of ranger-can *)

Lemma parsed_lines_cons (l : option (list float) * Z)
    (lines : list (option (list float) * Z)) :
  parsed_lines (l :: lines)
  = from_option (λ arr, [(l.2, arr)]) [] l.1 ++ parsed_lines lines.
Proof. unfold parsed_lines. simpl. by destruct l as [[arr|] t]. Qed.

Lemma bridge_run_cons (rate_hz : float) (l : option (list float) * Z)
    (lines : list (option (list float) * Z)) (st : RangerCan.bridge_state) :
  RangerCan.bridge_run rate_hz (l :: lines) st
  = (from_option (λ o, [o]) [] (RangerCan.bridge_line rate_hz l st).1
     ++ (RangerCan.bridge_run rate_hz lines
           (RangerCan.bridge_line rate_hz l st).2).1,
     (RangerCan.bridge_run rate_hz lines
        (RangerCan.bridge_line rate_hz l st).2).2).
Proof.
  cbn [RangerCan.bridge_run].
  destruct (RangerCan.bridge_line rate_hz l st) as [out st1]. cbn [fst snd].
  by destruct (RangerCan.bridge_run rate_hz lines st1).
Qed.

(** X14: whatever the rate, ranger-can sends frames in the order of its
    input: each frame sent carries the five distances of a line that
    parsed, is stamped with the time that line was read at, has status 0,
    and its sequence number counts the lines that parsed up to and
    including its own, modulo 2^32, so that lines skipped by the rate limit
    leave gaps in the numbering.  Lines that do not parse change
    nothing. *)
Theorem bridge_frames (rate_hz : float)
    (lines : list (option (list float) * Z)) (st : RangerCan.bridge_state) :
  let r := RangerCan.bridge_run rate_hz lines st in
  (sent_payload <$> r.1) `sublist_of` parsed_lines lines
  /\ (∀ k t m, r.1 !! k = Some (t, m) ->
        RangerCan.status m = 0
        /\ ∃ j, lines !! j = Some (Some (RangerCan.dist_m m), t)
             /\ RangerCan.seq m
                = to_u32 (RangerCan.seq (RangerCan.msg st)
                          + Z.of_nat (length (parsed_lines
                                                (take (S j) lines)))))
  /\ (parsed_lines lines = [] -> r = ([], st))
  /\ (parsed_lines lines ≠ [] ->
      RangerCan.seq (RangerCan.msg r.2)
      = to_u32 (RangerCan.seq (RangerCan.msg st)
                + Z.of_nat (length (parsed_lines lines)))).
Proof.
  cbv zeta. revert st.
  induction lines as [|[arr now] lines IH]; intros st.
  - simpl. split; [constructor|]. split; [done|]. split; done.
  - rewrite bridge_run_cons, parsed_lines_cons. cbn [fst snd].
    unfold RangerCan.bridge_line. cbn [fst snd].
    destruct arr as [arr|]; cbn [fst snd from_option].
    2:{ (* the line does not parse *)
        destruct (IH st) as (Hsub & Hk & Hnil & Hseq). cbn [app].
        split; [exact Hsub|]. split; [|split].
        - intros k t m Hlk. destruct (Hk k t m Hlk) as (Hs & j & Hj & Hq).
          split; [exact Hs|]. exists (S j). split; [exact Hj|].
          rewrite Hq. cbn [take]. by rewrite parsed_lines_cons.
        - intros Hp. specialize (Hnil Hp). cbn [fst snd].
          by rewrite Hnil.
        - exact Hseq. }
    set (m1 := RangerCan.mkRangerMsg
                 (to_u32 (RangerCan.seq (RangerCan.msg st) + 1)) arr 0).
    assert (Hshift : ∀ st1 k t m,
              RangerCan.msg st1 = m1 ->
              (RangerCan.bridge_run rate_hz lines st1).1 !! k = Some (t, m) ->
              RangerCan.status m = 0
              /\ ∃ j, ((Some arr, now) :: lines) !! j
                      = Some (Some (RangerCan.dist_m m), t)
                   /\ RangerCan.seq m
                      = to_u32 (RangerCan.seq (RangerCan.msg st)
                                + Z.of_nat (length (parsed_lines
                                     (take (S j) ((Some arr, now) :: lines)))))).
    { intros st1 k t m Hm Hlk.
      destruct (IH st1) as (_ & Hk & _).
      destruct (Hk k t m Hlk) as (Hs & j & Hj & Hq).
      split; [exact Hs|]. exists (S j). split; [exact Hj|].
      rewrite Hq, Hm. cbn [take RangerCan.seq m1].
      rewrite parsed_lines_cons. cbn [fst from_option].
      rewrite length_app. cbn [length].
      rewrite to_u32_add_l. f_equal. lia. }
    assert (Hlast : ∀ st1,
              RangerCan.msg st1 = m1 ->
              RangerCan.seq
                (RangerCan.msg (RangerCan.bridge_run rate_hz lines st1).2)
              = to_u32 (RangerCan.seq (RangerCan.msg st)
                        + Z.of_nat (length ([(now, arr)]
                                            ++ parsed_lines lines)))).
    { intros st1 Hm. destruct (IH st1) as (_ & _ & Hnil & Hseq).
      destruct (parsed_lines lines) as [|p ps] eqn:Ep.
      - rewrite (Hnil eq_refl). cbn [snd]. by rewrite Hm.
      - rewrite Hseq by done. rewrite Hm. cbn [RangerCan.seq m1].
        rewrite to_u32_add_l, length_app. f_equal. cbn [length]. lia. }
    destruct (RangerCan.too_soon rate_hz now (RangerCan.last_sent_ns st)).
    + (* skipped by the rate limit *)
      cbn [fst snd from_option app].
      set (st1 := RangerCan.mkBridge m1 (RangerCan.last_sent_ns st)).
      destruct (IH st1) as (Hsub & _).
      split; [by apply sublist_cons|].
      split; [intros k t m; by apply Hshift|].
      split; [done|]. intros _. by apply Hlast.
    + (* sent *)
      cbn [fst snd from_option app].
      set (st1 := RangerCan.mkBridge m1 now).
      destruct (IH st1) as (Hsub & _).
      split; [rewrite fmap_cons; by apply sublist_skip|].
      split; [|split; [done|intros _; by apply Hlast]].
      intros [|k] t m Hlk.
      * simpl in Hlk. injection Hlk as <- <-. split; [done|].
        exists 0%nat. split; [done|]. cbn [take RangerCan.seq m1].
        by rewrite parsed_lines_cons.
      * simpl in Hlk. by apply (Hshift st1 k).
Qed.

Lemma bridge_run_unlimited (rate_hz : float)
    (lines : list (option (list float) * Z)) :
  RangerCan.rate_limit rate_hz = false ->
  ∀ st, sent_payload <$> (RangerCan.bridge_run rate_hz lines st).1
        = parsed_lines lines.
Proof.
  intros Hrl. induction lines as [|[arr now] lines IH]; intros st; [done|].
  rewrite bridge_run_cons, parsed_lines_cons. cbn [fst snd].
  unfold RangerCan.bridge_line, RangerCan.too_soon.
  rewrite Hrl. cbn [fst snd andb].
  destruct arr as [arr|]; cbn [fst snd from_option app].
  - rewrite fmap_cons. f_equal. apply IH.
  - apply IH.
Qed.

(** X15: without a rate limit ([--rate-hz] not above 0, or NaN) ranger-can
    sends every line that parses, in order; with any rate, the first line
    that parses is always sent. *)
Theorem bridge_sends (rate_hz : float)
    (lines : list (option (list float) * Z)) :
  (RangerCan.rate_limit rate_hz = false ->
   ∀ st, sent_payload <$> (RangerCan.bridge_run rate_hz lines st).1
         = parsed_lines lines)
  /\ head (sent_payload
            <$> (RangerCan.bridge_run rate_hz lines RangerCan.bridge_init).1)
     = head (parsed_lines lines).
Proof.
  split; [apply bridge_run_unlimited|].
  induction lines as [|[arr now] lines IH]; [done|].
  rewrite bridge_run_cons, parsed_lines_cons. cbn [fst snd].
  unfold RangerCan.bridge_line, RangerCan.too_soon.
  cbn [fst snd RangerCan.last_sent_ns RangerCan.bridge_init].
  rewrite Z.eqb_refl, andb_false_r. cbn [andb negb].
  destruct arr as [arr|]; cbn [fst snd from_option app]; [done|].
  exact IH.
Qed.

Lemma bridge_sends_witness :
  sent_payload
    <$> (RangerCan.bridge_run 0
           [(Some [1; 2; 3; 4; 5]%float, 1000); (None, 1001);
            (Some [5; 4; 3; 2; 1]%float, 1002)]
           RangerCan.bridge_init).1
  = [(1000, [1; 2; 3; 4; 5]%float); (1002, [5; 4; 3; 2; 1]%float)].
Proof.
  destruct (bridge_sends 0
              [(Some [1; 2; 3; 4; 5]%float, 1000); (None, 1001);
               (Some [5; 4; 3; 2; 1]%float, 1002)]) as [Hall _].
  rewrite Hall; [reflexivity|]. by vm_compute.
Defined.

Import ConcProps.

(** ** No IRQ is lost *)

Lemma done_count_insert (pool : list prog) (i : nat) (p q : prog) :
  pool !! i = Some p ->
  (done_count (<[i := q]> pool) + (if is_done p then 1 else 0)
   = done_count pool + (if is_done q then 1 else 0))%nat.
Proof.
  unfold done_count. revert i.
  induction pool as [|x pool IH]; intros i Hi; [done|].
  destruct i as [|i]; cbn in Hi.
  - injection Hi as ->.
    change (<[0%nat := q]> (p :: pool)) with (q :: pool).
    cbn [List.filter].
    destruct (is_done q), (is_done p); cbn [length]; lia.
  - change (<[S i := q]> (x :: pool)) with (x :: <[i := q]> pool).
    cbn [List.filter]. specialize (IH i Hi).
    destruct (is_done x); cbn [length]; lia.
Qed.

Lemma context_seq (p : prog) (g : RangerK.module_state) :
  context p ->
  (RangerK.seq (run_alone p g).1 = to_u32 (RangerK.seq g + 1)
   /\ (run_alone p g).2 = RDone)
  \/ ((run_alone p g).1 = g /\ is_done (Ret (run_alone p g).2) = false).
Proof.
  intros [idx level now| |].
  - left. by rewrite run_alone_echo_irq.
  - right. unfold distances_read_prog. cbn [run_alone].
    by rewrite run_alone_copy_distances.
  - right. unfold stats_read_prog. cbn [run_alone].
    by rewrite run_alone_copy_stats.
Qed.

Lemma context_not_done (p : prog) : context p -> is_done p = false.
Proof. by intros [idx level now| |]. Qed.

Lemma step_context_seq_inv (pool0 : list prog) (seq0 : Z) (i : nat)
    (c c' : config) :
  Forall context pool0 ->
  lock_inv pool0 c -> seq_inv seq0 c ->
  step_context i c = Some c' -> seq_inv seq0 c'.
Proof.
  intros Hctx (_ & g_last & _ & Hown) Hseq Hstep.
  rewrite Forall_forall in Hctx.
  unfold step_context in Hstep.
  destruct (pool c !! i) as [p|] eqn:Hp; cbn [mbind option_bind] in Hstep;
    [|done].
  assert (Hlt : (i < length (pool c))%nat) by (by eapply lookup_lt_Some).
  unfold seq_inv in *.
  destruct (owner c) as [o|] eqn:Ho.
  - destruct Hown as [(p_o & p0 & Hpo & Hp0 & Hcrit & _) Hothers].
    destruct (decide (i = o)) as [->|Hne].
    + destruct Hseq as (p_o' & Hpo' & Heq).
      rewrite Hpo in Hpo'. injection Hpo' as <-.
      rewrite Hpo in Hp. injection Hp as <-.
      destruct Hcrit as [r|k Hk|f k Hk]; injection Hstep as <-;
        cbn [owner shared pool].
      * exact Heq.
      * exists (k (shared c)).
        split; [by apply list_lookup_insert_eq|].
        cbn [run_alone] in Heq. by rewrite list_insert_insert_eq.
      * exists k.
        split; [by apply list_lookup_insert_eq|].
        cbn [run_alone] in Heq. by rewrite list_insert_insert_eq.
    + destruct (Hothers i p Hne Hp) as [Hinit|(p0' & g & _ & _ & ->)];
        [|done].
      destruct (context_atomic_block p) as (body & -> & _).
      { by eapply Hctx, list_elem_of_lookup_2. }
      done.
  - destruct Hown as [Hshared Hall].
    destruct (Hall i p Hp) as [Hinit|(p0' & g & _ & _ & ->)]; [|done].
    assert (Hc : context p) by (by eapply Hctx, list_elem_of_lookup_2).
    pose proof (context_not_done p Hc) as Hnd.
    pose proof (context_seq p (shared c) Hc) as Heff.
    pose proof (done_count_insert (pool c) i p
                  (Ret (run_alone p (shared c)).2) Hp) as Hcnt.
    rewrite Hnd in Hcnt.
    destruct (context_atomic_block p Hc) as (body & -> & _).
    injection Hstep as <-. cbn [owner shared pool].
    exists body. split; [by apply list_lookup_insert_eq|].
    rewrite list_insert_insert_eq. cbn [run_alone] in Heff, Hcnt.
    destruct Heff as [[Hs Hr]|[Hg Hr]].
    + rewrite Hs, Hseq, to_u32_add_l. rewrite Hr in Hcnt |- *.
      cbn [is_done] in Hcnt. f_equal. lia.
    + rewrite Hg, Hseq. rewrite Hr in Hcnt. f_equal. lia.
Qed.

Lemma exec_seq_inv (pool0 : list prog) (seq0 : Z) (sched : list nat) :
  Forall context pool0 ->
  ∀ c, lock_inv pool0 c -> seq_inv seq0 c ->
       seq_inv seq0 (exec sched c).
Proof.
  intros Hctx.
  assert (Hblocks : Forall atomic_block pool0).
  { eapply Forall_impl; [exact Hctx|]. apply context_atomic_block. }
  induction sched as [|i sched IH]; intros c Hlock Hseq; [done|].
  cbn [exec].
  destruct (step_context i c) as [c'|] eqn:E; cbn [default from_option id].
  - apply IH; [by eapply step_context_inv|by eapply step_context_seq_inv].
  - by apply IH.
Qed.

Lemma done_count_contexts (pool0 : list prog) :
  Forall context pool0 -> done_count pool0 = 0%nat.
Proof.
  unfold done_count. induction 1 as [|p pool0 Hp Hpool IH]; [done|].
  cbn [List.filter]. by rewrite (context_not_done p Hp).
Qed.

(** X19: no IRQ is lost in [g.seq].  In every interleaving of handlers
    and debugfs reads, whenever the lock is free the sequence number has
    advanced, modulo 2^32, by exactly the number of handlers that have
    returned: an increment is never overwritten by another context's. *)
Theorem no_irq_lost (g0 : RangerK.module_state) (pool0 : list prog)
    (sched : list nat) :
  Forall context pool0 -> in_u32 (RangerK.seq g0) ->
  let c := exec sched (config_init g0 pool0) in
  owner c = None ->
  RangerK.seq (shared c)
  = to_u32 (RangerK.seq g0 + Z.of_nat (done_count (pool c))).
Proof.
  intros Hctx Hseq0 c Hfree.
  pose proof (exec_seq_inv pool0 (RangerK.seq g0) sched Hctx
                (config_init g0 pool0) (config_init_inv g0 pool0)) as H.
  unfold seq_inv in H at 2. fold c in H. rewrite Hfree in H. apply H.
  unfold seq_inv. cbn [owner config_init shared pool].
  rewrite done_count_contexts by exact Hctx.
  rewrite Z.add_0_r. symmetry. by apply to_u32_small.
Qed.

Lemma no_irq_lost_witness :
  let pool0 := [echo_irq_prog 0 1 100; echo_irq_prog 0 0 2000100;
                stats_read_prog] in
  let sched := [0; 1; 2; 0; 0; 1; 0; 0; 0; 1; 1; 1; 1; 1; 1; 1; 1; 1; 1]%nat in
  let c := exec sched (config_init RangerK.module_init pool0) in
  owner c = None /\ done_count (pool c) = 2%nat
  /\ RangerK.seq (shared c) = 2.
Proof.
  cbv zeta.
  assert (Hfree : owner (exec [0; 1; 2; 0; 0; 1; 0; 0; 0; 1; 1; 1; 1; 1; 1;
                               1; 1; 1; 1]%nat
                          (config_init RangerK.module_init
                             [echo_irq_prog 0 1 100;
                              echo_irq_prog 0 0 2000100; stats_read_prog]))
                  = None) by (by vm_compute).
  split; [exact Hfree|]. split; [by vm_compute|].
  rewrite (no_irq_lost RangerK.module_init
             [echo_irq_prog 0 1 100; echo_irq_prog 0 0 2000100;
              stats_read_prog]
             [0; 1; 2; 0; 0; 1; 0; 0; 0; 1; 1; 1; 1; 1; 1; 1; 1; 1; 1]%nat).
  - by vm_compute.
  - repeat constructor.
  - unfold in_u32. simpl. lia.
  - exact Hfree.
Defined.

(** ** The order of the drain loop *)

Lemma handle_event_frame_other (j idx : nat) (es : EdgeStamp)
    (st st' : loop_state) :
  handle_event j es st = Some st' -> idx ≠ j ->
  tf st' !! idx = tf st !! idx.
Proof.
  unfold handle_event. intros H Hne.
  destruct (sensors st !! j) as [sc|]; cbn [mbind option_bind] in H;
    [|done].
  destruct (on_edge es (tracker sc)) as [[pl|] tr'].
  - destruct (push (distance_m pl) (mf sc)) as [[[mv|] mf']|];
      cbn [mbind option_bind] in H; [|by injection H as <-|done].
    destruct (j <? FRAME_SLOTS)%nat; [|done].
    injection H as <-. cbn [tf]. by apply list_lookup_insert_ne.
  - by injection H as <-.
Qed.

Lemma drain_frame_other (n idx : nat) (evs : list (nat * EdgeStamp)) :
  (n <= idx)%nat -> Forall (λ p, (p.1 < n)%nat) evs ->
  ∀ st st', drain evs st = Some st' -> tf st' !! idx = tf st !! idx.
Proof.
  intros Hidx. induction 1 as [|[j es] evs Hj Hevs IH]; intros st st' H.
  - by injection H as <-.
  - cbn [drain] in H.
    destruct (handle_event j es st) as [st1|] eqn:E; [|done].
    cbn [mbind option_bind] in H. rewrite (IH _ _ H).
    eapply handle_event_frame_other; [exact E|]. cbn [fst] in Hj. lia.
Qed.

(** X22: the loop of [main] drains the sensors one after the other, so
    that it handles the events of a pass grouped by sensor and not in the
    order of their timestamps.  This order does not matter: on up to five
    lines, two sequences of events that give every line the same events in
    the same order are both handled without an access out of bounds and
    leave the same trackers, filters and frame. *)
Theorem drain_order_irrelevant (n : nat)
    (evs1 evs2 : list (nat * EdgeStamp)) :
  (n <= FRAME_SLOTS)%nat ->
  Forall (λ p, (p.1 < n)%nat) evs1 -> Forall (λ p, (p.1 < n)%nat) evs2 ->
  (∀ idx, (idx < n)%nat ->
     channel_events idx evs1 = channel_events idx evs2) ->
  is_Some (drain evs1 (loop_init n))
  /\ drain evs1 (loop_init n) = drain evs2 (loop_init n).
Proof.
  intros Hn H1 H2 Heq.
  destruct (drain_channels n evs1 Hn H1) as (st1 & E1 & Hs1 & Ht1 & Hok1).
  destruct (drain_channels n evs2 Hn H2) as (st2 & E2 & Hs2 & Ht2 & Hok2).
  rewrite E1, E2. split; [by eexists|]. f_equal.
  assert (Hsens : sensors st1 = sensors st2).
  { apply list_eq. intros idx.
    destruct (decide (idx < n)%nat) as [Hi|Hi].
    - destruct (Hok1 idx Hi) as (rs1 & -> & _).
      destruct (Hok2 idx Hi) as (rs2 & -> & _).
      by rewrite (Heq idx Hi).
    - rewrite !(proj2 (lookup_ge_None _ _)) by lia. done. }
  assert (Htf : tf st1 = tf st2).
  { apply list_eq. intros idx.
    destruct (decide (idx < n)%nat) as [Hi|Hi].
    - destruct (Hok1 idx Hi) as (rs1 & _ & Hr1 & ->).
      destruct (Hok2 idx Hi) as (rs2 & _ & Hr2 & ->).
      rewrite (Heq idx Hi) in Hr1. rewrite Hr1 in Hr2.
      by injection Hr2 as <-.
    - rewrite (drain_frame_other n idx evs1 ltac:(lia) H1 _ _ E1).
      by rewrite (drain_frame_other n idx evs2 ltac:(lia) H2 _ _ E2). }
  destruct st1, st2. cbn in Hsens, Htf. by subst.
Qed.

Lemma drain_order_irrelevant_witness :
  drain [(0%nat, mkEdgeStamp Rising 10); (1%nat, mkEdgeStamp Rising 12);
         (0%nat, mkEdgeStamp Falling 2000010);
         (1%nat, mkEdgeStamp Falling 3000012)] (loop_init 2)
  = drain [(0%nat, mkEdgeStamp Rising 10);
           (0%nat, mkEdgeStamp Falling 2000010);
           (1%nat, mkEdgeStamp Rising 12);
           (1%nat, mkEdgeStamp Falling 3000012)] (loop_init 2).
Proof.
  apply (drain_order_irrelevant 2).
  - unfold FRAME_SLOTS. lia.
  - repeat constructor; simpl; lia.
  - repeat constructor; simpl; lia.
  - intros [|[|idx]] Hi; [reflexivity|reflexivity|lia].
Defined.

(** ** The printed frame and its parser *)

Import Ascii RangerJson.

#[local] Open Scope char_scope.

Lemma getlines_getline (delim : ascii) (s : list ascii) :
  getlines delim s
  = match getline delim s with
    | None => []
    | Some (tok, rest) => tok :: getlines delim rest
    end.
Proof.
  induction s as [|c s IH]; [done|].
  cbn [getlines getline read_until].
  destruct (c =? delim); [done|].
  rewrite IH. destruct s as [|c' s]; [done|].
  cbn [getline]. by destruct (read_until delim (c' :: s)).
Qed.

Lemma getlines_app_delim (delim : ascii) (tok s : list ascii) :
  Forall (λ c, c ≠ delim) tok ->
  getlines delim (tok ++ delim :: s) = tok :: getlines delim s.
Proof.
  induction 1 as [|c tok Hc Htok IH]; cbn [app getlines].
  - by rewrite eqb_refl.
  - apply eqb_neq in Hc. by rewrite Hc, IH.
Qed.

Lemma getlines_one (delim : ascii) (tok : list ascii) :
  tok ≠ [] -> Forall (λ c, c ≠ delim) tok -> getlines delim tok = [tok].
Proof.
  intros Hne Htok. induction Htok as [|c tok Hc Htok IH]; [done|].
  cbn [getlines]. apply eqb_neq in Hc. rewrite Hc.
  destruct tok as [|c' tok]; [done|]. by rewrite IH.
Qed.

Lemma plain_no_comma (tok : list ascii) :
  plain tok -> Forall (λ c, c ≠ ",") tok.
Proof. intros H. eapply Forall_impl; [exact H|]. by intros c [? ?]. Qed.

Lemma getlines_join (toks : list (list ascii)) :
  Forall plain toks -> last toks ≠ Some [] ->
  getlines "," (join toks) = toks.
Proof.
  induction 1 as [|tok toks Htok Htoks IH]; intros Hlast; [done|].
  destruct toks as [|tok' toks].
  - cbn [join]. apply getlines_one; [|by apply plain_no_comma].
    intros ->. by apply Hlast.
  - cbn [join]. rewrite getlines_app_delim by (by apply plain_no_comma).
    f_equal. apply IH. by rewrite last_cons_cons in Hlast.
Qed.

Lemma plain_join (toks : list (list ascii)) :
  Forall plain toks -> Forall (λ c, c ≠ "]") (join toks).
Proof.
  induction 1 as [|tok toks Htok Htoks IH]; [done|].
  assert (Ht : Forall (λ c, c ≠ "]") tok).
  { eapply Forall_impl; [exact Htok|]. by intros c [? ?]. }
  destruct toks as [|tok' toks]; [done|].
  cbn [join]. apply Forall_app. split; [exact Ht|].
  apply Forall_cons. split; [done|exact IH].
Qed.

Lemma find_first_char (ch : ascii) (body post : list ascii) :
  Forall (λ c, c ≠ ch) body ->
  find_first [ch] (body ++ ch :: post) = Some (length body).
Proof.
  induction 1 as [|c body Hc Hbody IH]; cbn [app find_first is_prefix].
  - by rewrite eqb_refl.
  - assert (E : (ch =? c) = false) by (apply eqb_neq; congruence).
    rewrite E. cbn [andb]. by rewrite IH.
Qed.

Lemma fill_spec (stof : list ascii -> option float)
    (toks : list (list ascii)) :
  ∀ (idx : nat) (out : list float),
    (idx <= 5)%nat -> length out = 5%nat ->
    fill stof toks idx out
    = vs ← mapM stof (take (5 - idx) toks);
      Some ((idx + length vs)%nat,
            take idx out ++ vs ++ drop (idx + length vs) out).
Proof.
  induction toks as [|tok toks IH]; intros idx out Hidx Hout.
  - rewrite take_nil. cbn. by rewrite Nat.add_0_r, take_drop.
  - cbn [fill]. destruct (Nat.ltb_spec idx 5) as [Hlt|Hge].
    + replace (5 - idx)%nat with (S (5 - S idx)) by lia.
      cbn [take]. cbn [mapM]. destruct (stof tok) as [v|]; [|done].
      cbn [mbind option_bind].
      rewrite IH by (rewrite ?length_insert; lia).
      destruct (mapM stof (take (5 - S idx) toks)) as [vs|]; [|done].
      cbn [mbind option_bind mret option_ret length].
      f_equal. f_equal; [lia|].
      rewrite (take_S_r _ _ v) by (apply list_lookup_insert_eq; lia).
      rewrite take_insert_ge by lia. rewrite drop_insert_lt by lia.
      rewrite <- app_assoc. cbn [app].
      by replace (S idx + length vs)%nat with (idx + S (length vs))%nat
        by lia.
    + replace (5 - idx)%nat with 0%nat by lia. cbn.
      by rewrite Nat.add_0_r, take_drop.
Qed.

Lemma parse_framed (stof : list ascii -> option float)
    (body post : list ascii) :
  Forall (λ c, c ≠ "]") body ->
  parse_jsonl_line stof (opening ++ body ++ "]" :: post)
  = vs ← mapM stof (take 5 (getlines "," body));
    if (length vs =? 5)%nat then Some vs else None.
Proof.
  intros Hbody. unfold parse_jsonl_line.
  set (line := opening ++ body ++ "]" :: post).
  assert (H1 : find [dquote; "d"; dquote] line 0 = Some 1%nat)
    by reflexivity.
  assert (H2 : find ["["] line 1 = Some 5%nat) by reflexivity.
  assert (H3 : find ["]"] line 5 = Some (6 + length body)%nat).
  { unfold find.
    change (5 <=? length line)%nat with true. cbn match.
    change (drop 5 line) with ("[" :: body ++ "]" :: post).
    cbn [find_first is_prefix].
    change ("]" =? "[") with false. cbn [andb].
    by rewrite find_first_char. }
  rewrite H1. cbn [mbind option_bind]. rewrite H2. cbn [mbind option_bind].
  rewrite H3. cbn [mbind option_bind]. cbv zeta.
  assert (Harr : substr line (5 + 1) (6 + length body - 5 - 1) = body).
  { unfold substr.
    change (drop (5 + 1) line) with (body ++ "]" :: post).
    apply take_app_length'. lia. }
  rewrite Harr.
  rewrite fill_spec by (rewrite ?length_replicate; lia).
  replace (5 - 0)%nat with 5%nat by lia.
  destruct (mapM stof (take 5 (getlines "," body))) as [vs|] eqn:E;
    [|done].
  cbn [mbind option_bind app take Nat.add].
  apply length_mapM in E. rewrite length_take in E.
  destruct (Nat.eqb_spec (length vs) 5) as [Hl|Hl]; [|done].
  rewrite drop_ge by (rewrite length_replicate; lia).
  by rewrite app_nil_r.
Qed.

(** X16: on a line that opens as ranger-u's frames do, with the entries of
    the array between the brackets (none holding a comma or a closing
    bracket, the last one not empty) and anything after the closing
    bracket, [parse_jsonl_line] reads the first five entries with [stof] and
    nothing else: fewer than five entries give no result, and entries
    after the fifth are ignored, whether [stof] would accept them or
    not. *)
Theorem parse_array (stof : list ascii -> option float)
    (toks : list (list ascii)) (post : list ascii) :
  Forall plain toks -> last toks ≠ Some [] ->
  let line := opening ++ join toks ++ "]" :: post in
  ((length toks < 5)%nat -> parse_jsonl_line stof line = None)
  /\ ((5 <= length toks)%nat ->
      parse_jsonl_line stof line = mapM stof (take 5 toks)).
Proof.
  intros Hplain Hlast line. subst line.
  rewrite parse_framed by (by apply plain_join).
  rewrite getlines_join by done.
  destruct (mapM stof (take 5 toks)) as [vs|] eqn:E;
    cbn [mbind option_bind]; [|done].
  apply length_mapM in E. rewrite length_take in E.
  split; intros Hlen.
  - destruct (Nat.eqb_spec (length vs) 5); [lia|done].
  - destruct (Nat.eqb_spec (length vs) 5); [done|lia].
Qed.

Lemma parse_array_witness :
  parse_jsonl_line stof01
    (opening ++ join [["1"]; ["0"]; ["0"]; ["1"]; ["1"]; ["x"; "y"]]
     ++ "]" :: ["}"])
  = Some [1; 0; 0; 1; 1]%float.
Proof.
  destruct (parse_array stof01
              [["1"]; ["0"]; ["0"]; ["1"]; ["1"]; ["x"; "y"]] ["}"])
    as [_ H].
  - repeat constructor; discriminate.
  - discriminate.
  - rewrite H; [reflexivity|]. simpl. lia.
Defined.

Lemma join_cons (tok : list ascii) (toks : list (list ascii)) :
  join (tok :: toks) = tok ++ flat_map (λ t, "," :: t) toks.
Proof.
  revert tok. induction toks as [|t toks IH]; intros tok.
  - cbn. by rewrite app_nil_r.
  - change (join (tok :: t :: toks)) with (tok ++ "," :: join (t :: toks)).
    by rewrite IH.
Qed.

Lemma to_json_items_S (show : float -> list ascii) (i : nat)
    (d : list float) :
  to_json_items show (S i) d = flat_map (λ t, "," :: t) (show <$> d).
Proof.
  revert i. induction d as [|x d IH]; intros i; [done|].
  cbn [to_json_items fmap list_fmap flat_map Nat.eqb app].
  by rewrite IH.
Qed.

Lemma to_json_join (show : float -> list ascii) (tf : list float) :
  to_json show tf = opening ++ join (show <$> tf) ++ ["]"; "}"].
Proof.
  unfold to_json, opening. cbn [app]. do 6 f_equal.
  destruct tf as [|x d]; [done|].
  cbn [to_json_items Nat.eqb app fmap list_fmap].
  by rewrite join_cons, to_json_items_S.
Qed.

Lemma parse_to_json (show : float -> list ascii)
    (stof : list ascii -> option float) (rd : float -> float)
    (tf : list float) :
  length tf = 5%nat -> Forall (reads_back show stof rd) tf ->
  parse_jsonl_line stof (to_json show tf) = Some (rd <$> tf).
Proof.
  intros Hlen Hall. rewrite to_json_join.
  rewrite parse_framed.
  2:{ apply plain_join, Forall_fmap.
      eapply Forall_impl; [exact Hall|]. by intros x (_ & ? & _). }
  rewrite getlines_join.
  2:{ apply Forall_fmap. eapply Forall_impl; [exact Hall|].
      by intros x (_ & ? & _). }
  2:{ rewrite fmap_last. destruct (last tf) as [x|] eqn:El; [|done].
      apply last_Some_elem_of in El. rewrite Forall_forall in Hall.
      destruct (Hall x El) as (Hne & _). cbn. congruence. }
  rewrite take_ge by (rewrite length_fmap; lia).
  assert (E : mapM stof (show <$> tf) = Some (rd <$> tf)).
  { apply mapM_Some. apply Forall2_fmap. apply Forall_Forall2_diag.
    eapply Forall_impl; [exact Hall|]. by intros x (_ & _ & ?). }
  rewrite E. cbn [mbind option_bind]. rewrite length_fmap, Hlen. done.
Qed.

Lemma reads_back_01 (x : float) : reads_back show01 stof01 rd01 x.
Proof.
  unfold reads_back, show01, rd01, plain.
  destruct (x =? 0)%float; (split; [done|]); (split; [|done]);
    repeat constructor; discriminate.
Qed.

(** X17: what [to_json] writes for a frame, [parse_jsonl_line] reads back
    entry by entry: when what is written for each of the five distances
    is not empty, holds no comma and no closing bracket, and [stof] reads
    it as [rd x], the line parses to the five values [rd x], in order. *)
Theorem to_json_parsed (show : float -> list ascii)
    (stof : list ascii -> option float) (rd : float -> float)
    (tf : list float) :
  length tf = 5%nat -> Forall (reads_back show stof rd) tf ->
  parse_jsonl_line stof (to_json show tf) = Some (rd <$> tf).
Proof. apply parse_to_json. Qed.

Lemma to_json_parsed_witness :
  parse_jsonl_line stof01 (to_json show01 [0; 0.5; 0; 2; 0]%float)
  = Some [0; 1; 0; 1; 0]%float.
Proof.
  rewrite (to_json_parsed show01 stof01 rd01).
  - reflexivity.
  - reflexivity.
  - apply Forall_forall. intros x _. apply reads_back_01.
Defined.

(** ** From the frame of ranger-u to the frame on the bus *)






